(** * rtags daemon orchestration layer: a shallow embedding

  The development follows two classes of the daemon:
  - [Server]        (the dispatcher, the project registry, source-root
                     discovery, the job-id generator and the persistence
                     controller), and
  - [IndexerSyncer] (the staging buffer and the writer loop).

  A definition that carries the name of a member function transcribes that
  function; the C++ text it follows is quoted above it.  Iteration over a
  hash or a map is written as recursion over the list of its entries in
  iteration order; the members of [Server] a function touches are threaded
  through explicitly.  The first part holds the model, the second part the
  properties. *)

From Stdlib Require Import ZArith Lia List Bool Ascii String.
From stdpp Require Import gmap strings list fin_maps.

Import ListNotations.
Local Open Scope Z_scope.

#[local] Set Warnings "-clear-no-such-hyp".

(* ===================================================================== *)
(** * Job ids: [Server::nextId] *)
(* ===================================================================== *)

Module JobId.

(** [mJobId] is an [int]; [++] on it is written with its two's-complement
    wrap-around on 32 bits. *)
Definition INT_MIN : Z := -2147483648.
Definition INT_MAX : Z := 2147483647.

Definition wrap32 (z : Z) : Z := (z + 2147483648) mod 4294967296 - 2147483648.

Definition incr (j : Z) : Z := wrap32 (j + 1).

(** <<
    int Server::nextId()
    {
        ++mJobId;
        if (!mJobId)
            ++mJobId;
        return mJobId;
    }
    >>
    The result is the pair (returned id, new value of [mJobId]). *)
Definition nextId (mJobId : Z) : Z * Z :=
  let j := incr mJobId in
  let j := if j =? 0 then incr j else j in
  (j, j).

(** The counter after [n] calls, starting from the constructor's
    [mJobId(0)]. *)
Fixpoint after_calls (n : nat) : Z :=
  match n with
  | O => 0
  | S k => snd (nextId (after_calls k))
  end.

End JobId.

(* ===================================================================== *)
(** * Startup: the listen retry loop of [Server::init] *)
(* ===================================================================== *)

Module Startup.

(** What the loop does to the outside world, in program order. *)
Inductive Action : Type :=
| Listen (bound : bool)   (* mServer->listen(mOptions.socketFile) and its result *)
| SendShutdown            (* Client client(socketFile); client.message(Shutdown) *)
| Sleep                   (* sleep(1) *)
| RmSocket.               (* Path::rm(mOptions.socketFile) *)

(** The outcome of a [listen] call may depend on everything the daemon has
    done to the socket so far. *)
Definition Oracle : Type := list Action -> bool.

(** <<
    for (int i=0; i<10; ++i) {
        mServer = new LocalServer;
        if (mServer->listen(mOptions.socketFile)) {
            break;
        }
        delete mServer;
        mServer = 0;
        if (!i) {
            Client client(mOptions.socketFile, Client::DontWarnOnConnectionFailure);
            QueryMessage msg(QueryMessage::Shutdown);
            client.message(&msg);
        }
        sleep(1);
        Path::rm(mOptions.socketFile);
    }
    >>
    [n] counts the iterations that remain ([n = 10 - i]); the result is
    ([mServer != 0], the actions performed). *)
Fixpoint listenLoop (listen : Oracle) (n : nat) (i : Z) (hist : list Action)
  : bool * list Action :=
  match n with
  | O => (false, hist)
  | S n' =>
      if listen hist then (true, hist ++ [Listen true])
      else
        let hist := hist ++ [Listen false] in
        let hist := if i =? 0 then hist ++ [SendShutdown] else hist in
        let hist := hist ++ [Sleep] in
        let hist := hist ++ [RmSocket] in
        listenLoop listen n' (i + 1) hist
  end.

(** The part of [Server::init] that decides its result:
    <<
    if (!mServer) {
        error("Unable to listen on %s", mOptions.socketFile.constData());
        return false;
    }
    ...
    return true;
    >> *)
Definition init (listen : Oracle) : bool * list Action :=
  listenLoop listen 10 0 [].

(** The actions of one failed iteration with loop index [i]. *)
Definition failedRound (i : Z) : list Action :=
  Listen false :: (if i =? 0 then [SendShutdown] else []) ++ [Sleep; RmSocket].

Fixpoint failedRounds (i : Z) (k : nat) : list Action :=
  match k with
  | O => []
  | S k' => failedRound i ++ failedRounds (i + 1) k'
  end.

Definition isListen (a : Action) : bool :=
  match a with Listen _ => true | _ => false end.

Definition isShutdown (a : Action) : bool :=
  match a with SendShutdown => true | _ => false end.

(** Number of listen attempts in a history. *)
Definition attempts (tr : list Action) : nat := length (List.filter isListen tr).

(** The rule in the words of the specification: every listen attempt
    comes after a Shutdown message and after a removal of the socket file. *)
Definition everyAttemptPrepared (tr : list Action) : Prop :=
  forall (p : nat) (b : bool), tr !! p = Some (Listen b) ->
    (exists q : nat, (q < p)%nat /\ tr !! q = Some SendShutdown) /\
    (exists q : nat, (q < p)%nat /\ tr !! q = Some RmSocket).

(** A socket path occupied by a stale file with no listener behind it:
    [listen] binds once the file has been removed. *)
Definition staleSocket : Oracle :=
  fun hist => existsb (fun a => match a with RmSocket => true | _ => false end) hist.

(** A free socket path. *)
Definition freeSocket : Oracle := fun _ => true.

(** A socket path that can never be bound. *)
Definition deadSocket : Oracle := fun _ => false.

End Startup.

(* ===================================================================== *)
(** * The project registry: current-project selection and [IsIndexed] *)
(* ===================================================================== *)

Module Registry.

(** The view of a [Project] the registry code needs.  [path] is
    [Project::path()], the key under which every construction site stores
    the project in [mProjects]; two handles denote the same project exactly
    when their keys agree.  The last two fields stand for the answers of
    [Project::isIndexed(fileId)] and [fileManager->contains(path)]. *)
Record Project : Type := mkProject {
  path : string;
  srcRoot : string;
  resolvedSrcRoot : string;
  isValid : bool;
  isIndexedFile : N -> bool;
  fileManagerContains : string -> bool
}.

(** Effects in program order: assignments to [mCurrentProject] (by key),
    calls of [remake], and what is sent on the connection. *)
Inductive Event : Type :=
| EvCurrent (key : option string)
| EvRemake (makefile : string)
| EvWrite (msg : string)
| EvFinish.

(** [mProjects] is the list of the map's values in iteration order
    ([mProjects.begin()] .. [mProjects.end()]). *)
Record Server : Type := mkServer {
  mProjects : list Project;
  mCurrentProject : option Project;
  journal : list Event
}.

Definition keyOf (p : option Project) : option string := option_map path p.

(** [it->second == cur] on shared pointers. *)
Definition sameProject (p : Project) (cur : option Project) : bool :=
  match cur with
  | Some c => String.eqb (path p) (path c)
  | None => false
  end.

(** [!root.isEmpty() && !strncmp(root.constData(), path.constData(), root.size())]:
    the first [root.size()] bytes of [path] are those of [root]. *)
Definition rootMatches (root p : string) : bool :=
  negb (String.eqb root EmptyString) && String.prefix root p.

Definition sizeOf (s : string) : Z := Z.of_nat (String.length s).

(** The [for] loop of [updateProjectForLocation].  [None] is the early
    [return true]; otherwise the loop ends with ([match], [longest]). *)
Fixpoint scanProjects (projs : list Project) (cur : option Project) (p : string)
  (found : option Project) (longest : Z) : option (option Project * Z) :=
  match projs with
  | [] => Some (found, longest)
  | it :: rest =>
      if rootMatches (srcRoot it) p && sameProject it cur then None
      else
        let '(found, longest) :=
          if rootMatches (srcRoot it) p then
            let matchLength := sizeOf (srcRoot it) in
            if matchLength >? longest then (Some it, matchLength)
            else (found, longest)
          else (found, longest) in
        let '(found, longest) :=
          if rootMatches (resolvedSrcRoot it) p then
            let matchLength := sizeOf (resolvedSrcRoot it) in
            if matchLength >? longest then (Some it, matchLength)
            else (found, longest)
          else (found, longest) in
        scanProjects rest cur p found longest
  end.

(** <<
    shared_ptr<Project> Server::setCurrentProject(const shared_ptr<Project> &proj)
    {
        shared_ptr<Project> old = mCurrentProject.lock();
        mCurrentProject = proj;
        if (proj && !proj->isValid())
            remake(proj->path(), 0);
        return old;
    }
    >> *)
Definition setCurrentProject (s : Server) (proj : option Project)
  : option Project * Server :=
  let old := mCurrentProject s in
  let j := journal s ++ [EvCurrent (keyOf proj)] in
  let j := match proj with
           | Some q => if isValid q then j else j ++ [EvRemake (path q)]
           | None => j
           end in
  (old, {| mProjects := mProjects s; mCurrentProject := proj; journal := j |}).

(** <<
    bool Server::updateProjectForLocation(const Path &path)
    {
        shared_ptr<Project> match;
        int longest = -1;
        shared_ptr<Project> cur = mCurrentProject.lock();
        for (...) { ... }
        if (match) {
            setCurrentProject(match);
            return true;
        }
        return false;
    }
    >> *)
Definition updateProjectForLocation (s : Server) (p : string) : bool * Server :=
  match scanProjects (mProjects s) (mCurrentProject s) p None (-1) with
  | None => (true, s)
  | Some (Some m, _) => (true, snd (setCurrentProject s (Some m)))
  | Some (None, _) => (false, s)
  end.

(** What [Server::isIndexed] asks of the file system and of the path
    interner: [Path::isFile], [Path::isDir] and [Location::fileId]. *)
Record Env : Type := mkEnv {
  isFile : string -> bool;
  isDir : string -> bool;
  fileId : string -> N
}.

Definition write (s : Server) (msg : string) : Server :=
  {| mProjects := mProjects s; mCurrentProject := mCurrentProject s;
     journal := journal s ++ [EvWrite msg] |}.

Definition finish (s : Server) : Server :=
  {| mProjects := mProjects s; mCurrentProject := mCurrentProject s;
     journal := journal s ++ [EvFinish] |}.

(** [if (old) mCurrentProject = old;] *)
Definition restoreIf (s : Server) (old : option Project) : Server :=
  match old with
  | Some o => {| mProjects := mProjects s; mCurrentProject := Some o;
                 journal := journal s ++ [EvCurrent (Some (path o))] |}
  | None => s
  end.

(** <<
    void Server::isIndexed(const QueryMessage &query, Connection *conn)
    {
        const Path path = query.query();
        if (path.isFile()) {
            const uint32_t fileId = Location::fileId(path);
            if (fileId) {
                shared_ptr<Project> old = mCurrentProject.lock();
                updateProjectForLocation(path);
                shared_ptr<Project> cur = currentProject();
                if (cur && cur->isIndexed(fileId)) {
                    conn->write("1");
                    conn->finish();
                    if (old)
                        mCurrentProject = old;
                    return;
                }
                if (old)
                    mCurrentProject = old;
            }
        } else if (path.isDir()) {
            updateProjectForLocation(path);
            shared_ptr<Project> cur = currentProject();
            if (cur && cur->fileManager->contains(path)) {
                conn->write("1");
                conn->finish();
                return;
            }
        }
        conn->write("0");
        conn->finish();
    }
    >> *)
Definition isIndexed (env : Env) (s : Server) (query : string) : Server :=
  let no (s : Server) := finish (write s "0") in
  if isFile env query then
    let fid := fileId env query in
    if negb (N.eqb fid 0) then
      let old := mCurrentProject s in
      let s := snd (updateProjectForLocation s query) in
      match mCurrentProject s with
      | Some cur =>
          if isIndexedFile cur fid then
            let s := finish (write s "1") in
            restoreIf s old
          else no (restoreIf s old)
      | None => no (restoreIf s old)
      end
    else no s
  else if isDir env query then
    let s := snd (updateProjectForLocation s query) in
    match mCurrentProject s with
    | Some cur =>
        if fileManagerContains cur query then finish (write s "1")
        else no s
    | None => no s
    end
  else no s.

(** ** The selection rule in the words of the specification *)

(** Length of the longest root of [it] that is a non-empty prefix of
    [p], if any. *)
Definition matchLen (it : Project) (p : string) : option Z :=
  match rootMatches (srcRoot it) p, rootMatches (resolvedSrcRoot it) p with
  | true, true => Some (Z.max (sizeOf (srcRoot it)) (sizeOf (resolvedSrcRoot it)))
  | true, false => Some (sizeOf (srcRoot it))
  | false, true => Some (sizeOf (resolvedSrcRoot it))
  | false, false => None
  end.

(** [best] is registered and has a matching root of length [len]; every
    entry before it has only shorter matching roots, and no entry after it
    has a longer one. *)
Definition LongestFirstAt (projs : list Project) (p : string) (best : Project)
  (len : Z) : Prop :=
  exists pre post : list Project,
    projs = pre ++ best :: post /\
    matchLen best p = Some len /\
    (forall it l, it ∈ pre -> matchLen it p = Some l -> l < len) /\
    (forall it l, it ∈ post -> matchLen it p = Some l -> l <= len).

Definition LongestFirst (projs : list Project) (p : string) (best : Project) : Prop :=
  exists len : Z, LongestFirstAt projs p best len.

(** The rule in the words of the specification: whenever some project
    qualifies as longest-prefix match (first registered on ties), it is
    the current project after selection. *)
Definition selectsLongest (s : Server) (p : string) : Prop :=
  forall best, LongestFirst (mProjects s) p best ->
    keyOf (mCurrentProject (snd (updateProjectForLocation s p))) = Some (path best).

(** The current project is registered and its [srcRoot] is a non-empty
    prefix of [p]: the case in which the loop returns early. *)
Definition currentCovers (s : Server) (p : string) : Prop :=
  exists it, it ∈ mProjects s /\ rootMatches (srcRoot it) p = true /\
             sameProject it (mCurrentProject s) = true.

(** The claim about file queries in the words of the specification. *)
Definition fileQueryKeepsCurrent (env : Env) (s : Server) (query : string) : Prop :=
  isFile env query = true ->
  keyOf (mCurrentProject (isIndexed env s query)) = keyOf (mCurrentProject s).

Definition noMatch (projs : list Project) (p : string) : Prop :=
  forall it, it ∈ projs -> matchLen it p = None.

(** [it] makes the loop return early. *)
Definition covers (cur : option Project) (p : string) (it : Project) : Prop :=
  rootMatches (srcRoot it) p = true /\ sameProject it cur = true.

(** What the loop has established after the entries in [seen]. *)
Definition scanned (seen : list Project) (p : string) (found : option Project)
  (longest : Z) : Prop :=
  match found with
  | None => longest = -1 /\ noMatch seen p
  | Some best => LongestFirstAt seen p best longest
  end.

(** The current project after [IsIndexed], read off the code. *)
Definition currentAfterIsIndexed (env : Env) (s : Server) (query : string)
  : option Project :=
  let selected := mCurrentProject (snd (updateProjectForLocation s query)) in
  if isFile env query then
    if N.eqb (fileId env query) 0 then mCurrentProject s
    else match mCurrentProject s with
         | Some old => Some old
         | None => selected
         end
  else if isDir env query then selected
  else mCurrentProject s.

(** ** Two small registries *)

Definition constFalse {A} (_ : A) : bool := false.

Definition projA : Project :=
  {| path := "/src/a/Makefile"; srcRoot := "/src/a/"; resolvedSrcRoot := "";
     isValid := true; isIndexedFile := fun f => N.eqb f 1;
     fileManagerContains := constFalse |}.

Definition projAB : Project :=
  {| path := "/src/a/b/Makefile"; srcRoot := "/src/a/b/"; resolvedSrcRoot := "";
     isValid := true; isIndexedFile := fun f => N.eqb f 2;
     fileManagerContains := constFalse |}.

(** [projA] is current, and a deeper project is registered as well. *)
Definition nested : Server :=
  {| mProjects := [projA; projAB]; mCurrentProject := Some projA; journal := [] |}.

(** The same registry with no current project. *)
Definition nestedNoCurrent : Server :=
  {| mProjects := [projA; projAB]; mCurrentProject := None; journal := [] |}.

(** Both sources are existing files, known to the interner under ids 1
    and 2. *)
Definition twoFiles : Env :=
  {| isFile := fun q => String.eqb q "/src/a/main.c" || String.eqb q "/src/a/b/util.c";
     isDir := constFalse;
     fileId := fun q => if String.eqb q "/src/a/main.c" then 1%N
                        else if String.eqb q "/src/a/b/util.c" then 2%N else 0%N |}.



End Registry.

(* ===================================================================== *)
(** * Pending lookups: [Server::onConnectionDestroyed] and [Server::event] *)
(* ===================================================================== *)

Module Lookups.

(** A [Connection*] is an address; the object behind it is looked up in
    [connections].  [writable] is the result [Connection::write] will
    return. *)
Record Connection : Type := mkConnection {
  isConnected : bool;
  writable : bool;
  written : list string;
  finished : bool
}.

(** [aborted] collects the jobs on which [Job::abort()] has been called. *)
Record Server : Type := mkServer {
  mPendingLookups : gmap Z positive;
  connections : gmap positive Connection;
  aborted : gset Z
}.

(** A [JobOutputEvent]: [job] is [e->job.lock()], the job itself (named by
    its id) or nothing when the weak pointer has expired. *)
Record JobOutputEvent : Type := mkJobOutputEvent {
  id : Z;
  job : option Z;
  out : string;
  finish : bool
}.

Inductive Event : Type :=
| JobOutput (e : JobOutputEvent)
| MakefileParserDone
| OtherEvent.

(** <<
    void Server::onConnectionDestroyed(Connection *o)
    {
        Map<int, Connection*>::iterator it = mPendingLookups.begin();
        const Map<int, Connection*>::const_iterator end = mPendingLookups.end();
        while (it != end) {
            if (it->second == o) {
                mPendingLookups.erase(it++);
            } else {
                ++it;
            }
        }
    }
    >>
    The loop visits every entry once and erases those whose value is [o];
    nothing else is touched. *)
Definition onConnectionDestroyed (s : Server) (o : positive) : Server :=
  {| mPendingLookups := filter (fun kv => kv.2 <> o) (mPendingLookups s);
     connections := connections s;
     aborted := aborted s |}.

(** [if (shared_ptr<Job> job = e->job.lock()) job->abort();] *)
Definition abortJob (s : Server) (e : JobOutputEvent) : Server :=
  match job e with
  | Some j => {| mPendingLookups := mPendingLookups s;
                 connections := connections s;
                 aborted := {[ j ]} ∪ aborted s |}
  | None => s
  end.

Definition setConnection (s : Server) (c : positive) (v : Connection) : Server :=
  {| mPendingLookups := mPendingLookups s;
     connections := <[ c := v ]> (connections s);
     aborted := aborted s |}.

Definition isEmpty (x : string) : bool := String.eqb x EmptyString.

(** The [JobOutputEvent] case of [Server::event]:
    <<
    Map<int, Connection*>::iterator it = mPendingLookups.find(e->id);
    if (it == mPendingLookups.end()) {
        if (shared_ptr<Job> job = e->job.lock())
            job->abort();
        break;
    }
    if (!it->second->isConnected()) {
        if (shared_ptr<Job> job = e->job.lock())
            job->abort();
        break;
    }
    if (!e->out.isEmpty() && !it->second->write(e->out)) {
        if (shared_ptr<Job> job = e->job.lock())
            job->abort();
        break;
    }
    if (e->finish) {
        it->second->finish();
    }
    >>
    The result is [None] when the table names a connection that no longer
    exists (a dangling pointer is dereferenced). *)
Definition jobOutput (s : Server) (e : JobOutputEvent) : option Server :=
  match mPendingLookups s !! id e with
  | None => Some (abortJob s e)
  | Some c =>
      match connections s !! c with
      | None => None
      | Some conn =>
          if negb (isConnected conn) then Some (abortJob s e)
          else if negb (isEmpty (out e)) && negb (writable conn) then Some (abortJob s e)
          else
            let conn :=
              if negb (isEmpty (out e)) then
                {| isConnected := isConnected conn; writable := writable conn;
                   written := written conn ++ [out e]; finished := finished conn |}
              else conn in
            let conn :=
              if finish e then
                {| isConnected := isConnected conn; writable := writable conn;
                   written := written conn; finished := true |}
              else conn in
            Some (setConnection s c conn)
      end
  end.

(** [Server::event]: one event taken off the loop's queue. *)
Definition event (s : Server) (ev : Event) : option Server :=
  match ev with
  | JobOutput e => jobOutput s e
  | MakefileParserDone => Some s
  | OtherEvent => Some s
  end.

(** One turn of the event loop: the events queued at that moment are
    handled in order. *)
Fixpoint loopIteration (s : Server) (evs : list Event) : option Server :=
  match evs with
  | [] => Some s
  | ev :: rest =>
      match event s ev with
      | Some s' => loopIteration s' rest
      | None => None
      end
  end.

(** The rule in the words of the specification: once connection [o] is
    destroyed, one turn of the event loop (handling [evs]) leaves every
    job that was pending on [o] aborted. *)
Definition abortedWithinOneIteration (s : Server) (o : positive) (evs : list Event)
  : Prop :=
  forall jobId : Z, mPendingLookups s !! jobId = Some o ->
    exists s', loopIteration (onConnectionDestroyed s o) evs = Some s'
               /\ jobId ∈ aborted s'.

Definition liveConnection : Connection :=
  {| isConnected := true; writable := true; written := []; finished := false |}.

(** Jobs 7 and 8 are pending on connections 1 and 2. *)
Definition twoClients : Server :=
  {| mPendingLookups := {[ 7 := 1%positive; 8 := 2%positive ]};
     connections := {[ 1%positive := liveConnection; 2%positive := liveConnection ]};
     aborted := ∅ |}.

(** Job 8 reports a line of output. *)
Definition outputOf8 : Event :=
  JobOutput {| id := 8; job := Some 8; out := "main.c:3:1"; finish := false |}.

(** A [Connection] is deleted: its destructor emits [destroyed()], which
    runs [onConnectionDestroyed], and then the object is gone. *)
Definition destroyConnection (s : Server) (o : positive) : Server :=
  let s := onConnectionDestroyed s o in
  {| mPendingLookups := mPendingLookups s;
     connections := delete o (connections s);
     aborted := aborted s |}.

(** Every connection the table names exists. *)
Definition tableLive (s : Server) : Prop :=
  forall (jobId : Z) (c : positive),
    mPendingLookups s !! jobId = Some c -> is_Some (connections s !! c).

(** The jobs that the events of a queue could abort. *)
Fixpoint jobsOf (evs : list Event) : gset Z :=
  match evs with
  | [] => ∅
  | JobOutput e :: rest =>
      match job e with
      | Some j => {[ j ]} ∪ jobsOf rest
      | None => jobsOf rest
      end
  | _ :: rest => jobsOf rest
  end.

(** [twoClients] after the loop has handled [outputOf8]. *)
Definition twoClientsAfterOutput : Server :=
  {| mPendingLookups := mPendingLookups twoClients;
     connections := <[ 2%positive :=
                       {| isConnected := true; writable := true;
                          written := ["main.c:3:1"%string]; finished := false |} ]>
                      (connections twoClients);
     aborted := ∅ |}.

(** [conn->finish()] on the connection a handler was given. *)
Definition finishConnection (s : Server) (c : positive) : option Server :=
  match connections s !! c with
  | Some conn =>
      Some (setConnection s c
              {| isConnected := isConnected conn; writable := writable conn;
                 written := written conn; finished := true |})
  | None => None
  end.

(** <<
    void Server::findFile(const QueryMessage &query, Connection *conn)
    {
        shared_ptr<Project> project = currentProject();
        if (!project || !project->fileManager) {
            error("No project");
            conn->finish();
            return;
        }

        shared_ptr<FindFileJob> job(new FindFileJob(query, project));
        job->setId(nextId());
        mPendingLookups[job->id()] = conn;
        startJob(job);
    }
    >>
    [ready] says that there is a current project with a file manager.
    The result is the id given to the job (if one is started), the new
    value of [mJobId] and the server; what the job does in the thread
    pool reaches the server as [JobOutputEvent]s. *)
Definition findFile (ready : bool) (mJobId : Z) (s : Server) (conn : positive)
  : option (option Z * Z * Server) :=
  if negb ready then
    match finishConnection s conn with
    | Some s' => Some (None, mJobId, s')
    | None => None
    end
  else
    let (jobId, mJobId') := JobId.nextId mJobId in
    Some (Some jobId, mJobId',
          {| mPendingLookups := <[ jobId := conn ]> (mPendingLookups s);
             connections := connections s;
             aborted := aborted s |}).

End Lookups.

(* ===================================================================== *)
(** * The persistence controller: save timers and [Server::save] *)
(* ===================================================================== *)

Module Persist.

(** Modelled from the spec: [EventLoop] is declared outside the sources at
    hand.  It is a table of timers: [addTimer] registers an interval (in
    milliseconds) and the callback's user data (here the indexer, named by
    a number) under an id that is not in use and returns that id;
    [removeTimer] drops the entry; only a registered timer can fire. *)
Record EventLoop : Type := mkEventLoop {
  timers : gmap Z (Z * N);
  nextTimer : Z
}.

Definition addTimer (el : EventLoop) (interval : Z) (userData : N) : Z * EventLoop :=
  let id := nextTimer el in
  (id, {| timers := <[ id := (interval, userData) ]> (timers el);
          nextTimer := id + 1 |}).

Definition removeTimer (el : EventLoop) (id : Z) : EventLoop :=
  {| timers := delete id (timers el); nextTimer := nextTimer el |}.

(** The view of a registry entry [Server::save] needs: [key] is
    [it->first]; [indexer] is [it->second->indexer] (possibly null);
    [projectSave] and [indexerSave] are the bytes that
    [it->second->save(out)] and [it->second->indexer->save(out)] put on
    the stream, with their results. *)
Record Project : Type := mkProject {
  key : string;
  indexer : option N;
  projectSave : list Z * bool;
  indexerSave : list Z * bool
}.

(** [files] maps a path to the bytes of the file stored there. *)
Record Server : Type := mkServer {
  mSaveTimers : gmap N Z;
  loop : EventLoop;
  mProjects : list Project;
  files : gmap string (list Z)
}.

(** Options, constants and the outcome of system calls.  [pathsToIds] is
    the serialized form of [Location::pathsToIds()]; [encodePath] is
    [RTags::encodePath]; [mkdirOk] and [canOpen] say whether
    [Path::mkdir(dataDir)] and [fopen(p, "w")] succeed. *)
Record Env : Type := mkEnv {
  dataDir : string;
  DatabaseVersion : Z;
  pathsToIds : list Z;
  encodePath : string -> string;
  mkdirOk : bool;
  canOpen : string -> bool
}.

(** [out << static_cast<int>(v)]: the four bytes of a 32-bit integer,
    least significant first. *)
Definition int32Bytes (v : Z) : list Z :=
  let u := v mod 4294967296 in
  [u mod 256; (u / 256) mod 256; (u / 65536) mod 256; (u / 16777216) mod 256].

(** [fopen(p, "w")] truncates; everything written later is appended. *)
Definition fopenW (fs : gmap string (list Z)) (p : string) : gmap string (list Z) :=
  <[ p := [] ]> fs.

Definition fwrite (fs : gmap string (list Z)) (p : string) (bytes : list Z)
  : gmap string (list Z) :=
  alter (fun old => old ++ bytes) p fs.

Definition sameIndexer (a : option N) (b : N) : bool :=
  match a with Some x => N.eqb x b | None => false end.

(** The loop over [mProjects] in [Server::save]:
    <<
    for (ProjectsMap::const_iterator it = mProjects.begin(); it != mProjects.end(); ++it) {
        if (it->second->indexer != indexer)
            continue;
        Path makeFilePath = it->first;
        RTags::encodePath(makeFilePath);
        const Path p = mOptions.dataDir + makeFilePath;
        FILE *f = fopen(p.constData(), "w");
        if (!f) { ... return; }
        Serializer out(f);
        out << static_cast<int>(DatabaseVersion);
        if (!it->second->save(out)) { ... fclose(f); return; }
        if (!it->second->indexer->save(out)) { ... fclose(f); return; }
        fclose(f);
        break;
    }
    >> *)
Fixpoint saveProjects (env : Env) (fs : gmap string (list Z)) (projs : list Project)
  (ix : N) : gmap string (list Z) :=
  match projs with
  | [] => fs
  | it :: rest =>
      if negb (sameIndexer (indexer it) ix) then saveProjects env fs rest ix
      else
        let p := (dataDir env ++ encodePath env (key it))%string in
        if negb (canOpen env p) then fs
        else
          let fs := fopenW fs p in
          let fs := fwrite fs p (int32Bytes (DatabaseVersion env)) in
          let fs := fwrite fs p (fst (projectSave it)) in
          if negb (snd (projectSave it)) then fs
          else
            let fs := fwrite fs p (fst (indexerSave it)) in
            fs
  end.

(** <<
    void Server::save(const shared_ptr<Indexer> &indexer)
    {
        if (!Path::mkdir(mOptions.dataDir)) { ... return; }
        {
            const Path p = mOptions.dataDir + "fileids";
            FILE *f = fopen(p.constData(), "w");
            if (!f) { ... return; }
            const Map<Path, uint32_t> pathsToIds = Location::pathsToIds();
            Serializer out(f);
            out << static_cast<int>(DatabaseVersion) << pathsToIds;
            fclose(f);
        }
        for (...) { ... }
    }
    >> *)
Definition saveFiles (env : Env) (fs : gmap string (list Z)) (projs : list Project)
  (ix : N) : gmap string (list Z) :=
  if negb (mkdirOk env) then fs
  else
    let p := (dataDir env ++ "fileids")%string in
    if negb (canOpen env p) then fs
    else
      let fs := fopenW fs p in
      let fs := fwrite fs p (int32Bytes (DatabaseVersion env)) in
      let fs := fwrite fs p (pathsToIds env) in
      saveProjects env fs projs ix.

Definition save (env : Env) (s : Server) (ix : N) : Server :=
  {| mSaveTimers := mSaveTimers s; loop := loop s; mProjects := mProjects s;
     files := saveFiles env (files s) (mProjects s) ix |}.

(** [mSaveTimers.take(indexer, &ok)]: the value stored under the key (with
    [ok] set) and the map without the key. *)
Definition take (m : gmap N Z) (k : N) : Z * bool * gmap N Z :=
  match m !! k with
  | Some v => (v, true, delete k m)
  | None => (0, false, m)
  end.

Definition SaveTimerInterval : Z := 5000.

(** The common start of [onJobsComplete] and [onJobStarted]:
    <<
    bool ok;
    const int id = mSaveTimers.take(indexer, &ok);
    if (ok && id != -1)
        EventLoop::instance()->removeTimer(id);
    >> *)
Definition disarm (s : Server) (ix : N) : Server :=
  let '(id, ok, m) := take (mSaveTimers s) ix in
  let el := if ok && negb (id =? -1) then removeTimer (loop s) id else loop s in
  {| mSaveTimers := m; loop := el; mProjects := mProjects s; files := files s |}.

(** <<
    void Server::onJobsComplete(shared_ptr<Indexer> indexer, int count)
    {
        ... take, removeTimer ...
        if (count) {
            enum { SaveTimerInterval = 5000 };
            mSaveTimers[indexer] = EventLoop::instance()->addTimer(SaveTimerInterval,
                                       Server::saveTimerCallback,
                                       new shared_ptr<Indexer>(indexer));
        }
    }
    >> *)
Definition onJobsComplete (s : Server) (ix : N) (count : Z) : Server :=
  let s := disarm s ix in
  if negb (count =? 0) then
    let '(id, el) := addTimer (loop s) SaveTimerInterval ix in
    {| mSaveTimers := <[ ix := id ]> (mSaveTimers s); loop := el;
       mProjects := mProjects s; files := files s |}
  else s.

(** [Server::onJobStarted(indexer, path)]: take and remove, nothing else. *)
Definition onJobStarted (s : Server) (ix : N) (path : string) : Server :=
  disarm s ix.

(** <<
    void Server::saveTimerCallback(int id, void *userData)
    {
        shared_ptr<Indexer> *indexer = static_cast<shared_ptr<Indexer> *>(userData);
        EventLoop::instance()->removeTimer(id);
        Server::instance()->save( *indexer );
        delete indexer;
    }
    >> *)
Definition saveTimerCallback (env : Env) (s : Server) (id : Z) (ix : N) : Server :=
  let s := {| mSaveTimers := mSaveTimers s; loop := removeTimer (loop s) id;
              mProjects := mProjects s; files := files s |} in
  save env s ix.

(** The event loop fires a timer: possible only for a registered id, and
    the callback receives the user data registered with it. *)
Definition fire (env : Env) (s : Server) (id : Z) : option Server :=
  match timers (loop s) !! id with
  | Some (_, ix) => Some (saveTimerCallback env s id ix)
  | None => None
  end.

(** The timers currently registered for an indexer. *)
Definition armedFor (s : Server) (ix : N) : gmap Z (Z * N) :=
  filter (fun kv => snd (snd kv) = ix) (timers (loop s)).

(** States the handlers can produce from a server with no timer. *)
Inductive reachable (env : Env) : Server -> Prop :=
| reach_init projs fs n :
    0 <= n ->
    reachable env {| mSaveTimers := ∅;
                     loop := {| timers := ∅; nextTimer := n |};
                     mProjects := projs; files := fs |}
| reach_complete s ix count :
    reachable env s -> reachable env (onJobsComplete s ix count)
| reach_started s ix path :
    reachable env s -> reachable env (onJobStarted s ix path)
| reach_fire s id s' :
    reachable env s -> fire env s id = Some s' -> reachable env s'.

(** Every registered timer is the one recorded for its indexer, and ids
    are non-negative and below the next one to be handed out. *)
Definition timersRecorded (s : Server) : Prop :=
  (forall id iv ix, timers (loop s) !! id = Some (iv, ix) ->
                    mSaveTimers s !! ix = Some id /\ 0 <= id < nextTimer (loop s))
  /\ 0 <= nextTimer (loop s).

(** The blob of the first project (in iteration order) held by the
    indexer, when there is one. *)
Definition projectOf (projs : list Project) (ix : N) : option Project :=
  List.find (fun it => sameIndexer (indexer it) ix) projs.

Definition blobPath (env : Env) (it : Project) : string :=
  (dataDir env ++ encodePath env (key it))%string.

Definition fileidsPath (env : Env) : string := (dataDir env ++ "fileids")%string.

(** The complete blob of a project. *)
Definition fullBlob (env : Env) (it : Project) : list Z :=
  int32Bytes (DatabaseVersion env) ++ fst (projectSave it) ++ fst (indexerSave it).

(** What is in the blob once [save] is through with it: the version, what
    [Project::save] wrote and, when that succeeded, what [Indexer::save]
    wrote. *)
Definition writtenBlob (env : Env) (it : Project) : list Z :=
  int32Bytes (DatabaseVersion env)
  ++ fst (projectSave it)
  ++ (if snd (projectSave it) then fst (indexerSave it) else []).

(** The rule in the words of the specification: the per-project blob is
    replaced atomically, so after a save it holds either what it held
    before or the complete new blob. *)
Definition blobReplacedAtomically (env : Env) (s : Server) (ix : N) : Prop :=
  forall it, projectOf (mProjects s) ix = Some it ->
    files (save env s ix) !! blobPath env it = files s !! blobPath env it
    \/ files (save env s ix) !! blobPath env it = Some (fullBlob env it).

(** ** A small data directory *)

Fixpoint underscores (p : string) : string :=
  match p with
  | EmptyString => EmptyString
  | String c rest =>
      String (if Ascii.eqb c "/" then "_"%char else c) (underscores rest)
  end.

Definition dataEnv : Env :=
  {| dataDir := "/data/"; DatabaseVersion := 10; pathsToIds := [1; 2; 3];
     encodePath := underscores; mkdirOk := true; canOpen := fun _ => true |}.

(** A project whose [Project::save] fails before it writes anything. *)
Definition failingProject : Project :=
  {| key := "/src/a/Makefile"; indexer := Some 1%N;
     projectSave := ([], false); indexerSave := ([7], true) |}.

(** The blob of an earlier, complete save is on disk. *)
Definition savedBefore : Server :=
  {| mSaveTimers := ∅; loop := {| timers := ∅; nextTimer := 0 |};
     mProjects := [failingProject];
     files := {[ "/data/_src_a_Makefile"%string := [10; 0; 0; 0; 42; 42] ]} |}.

Definition goodProject : Project :=
  {| key := "/src/a/Makefile"; indexer := Some 1%N;
     projectSave := ([5; 6], true); indexerSave := ([7], true) |}.

(** A server with no timer, and the same server after its indexer 1 has
    reported three finished jobs. *)
Definition idleServer : Server :=
  {| mSaveTimers := ∅; loop := {| timers := ∅; nextTimer := 0 |};
     mProjects := [goodProject]; files := ∅ |}.

Definition afterBurst : Server := onJobsComplete idleServer 1%N 3.

(** [in >> version]: an [int] read back from its four bytes. *)
Definition readInt32 (bytes : list Z) : option (Z * list Z) :=
  match bytes with
  | b0 :: b1 :: b2 :: b3 :: rest =>
      Some (JobId.wrap32 (b0 + 256 * b1 + 65536 * b2 + 16777216 * b3), rest)
  | _ => None
  end.

(** What [Server::restore] does with the paths blob: it hands the rest of
    the file to [Location::init] ([Adopted]), leaves the interner alone
    because the version differs ([Ignored]), finds no file it can open
    ([NoFile]), or reads a version from a file that is too short to hold
    one ([Truncated], where [version] stays uninitialized). *)
Inductive Restored : Type :=
| Adopted (serializedPaths : list Z)
| Ignored
| NoFile
| Truncated.

(** <<
    void Server::restore()
    {
        {
            const Path p = mOptions.dataDir + "fileids";
            FILE *f = fopen(p.constData(), "r");
            if (!f) {
                return;
            }
            Map<Path, uint32_t> pathsToIds;
            Deserializer in(f);
            int version;
            in >> version;
            if (version == DatabaseVersion) {
                in >> pathsToIds;
                Location::init(pathsToIds);
                fclose(f);
            }
        }
    }
    >>
    [fopen(p, "r")] needs the file to exist and to be one that can be
    opened. *)
Definition restore (env : Env) (fs : gmap string (list Z)) : Restored :=
  match fs !! fileidsPath env with
  | None => NoFile
  | Some bytes =>
      if negb (canOpen env (fileidsPath env)) then NoFile
      else
        match readInt32 bytes with
        | None => Truncated
        | Some (version, rest) =>
            if version =? DatabaseVersion env then Adopted rest else Ignored
        end
  end.

(** The same data directory opened by a daemon built with another schema
    version. *)
Definition withVersion (env : Env) (v : Z) : Env :=
  {| dataDir := dataDir env; DatabaseVersion := v; pathsToIds := pathsToIds env;
     encodePath := encodePath env; mkdirOk := mkdirOk env; canOpen := canOpen env |}.

End Persist.

(* ===================================================================== *)
(** * The indexer aggregator: [IndexerSyncer] *)
(* ===================================================================== *)

Module Syncer.

(** Modelled from the spec: [RTags::Location] is declared outside the
    sources at hand.  A location is a pair (path id, byte offset), null
    when the path id is 0. *)
Definition Location : Type := (N * N)%type.

Definition isNull (l : Location) : bool := N.eqb (fst l) 0.

Definition nullLocation : Location := (0%N, 0%N).

(** [Rdm::NormalReference] and the other reference kinds. *)
Inductive ReferenceType : Type :=
| NormalReference
| MemberFunction
| GlobalFunction.

Definition isNormal (k : ReferenceType) : bool :=
  match k with NormalReference => true | _ => false end.

(** Modelled from the spec: [Rdm::CursorInfo] is declared outside the
    sources at hand.  Per location: kind, target location (may be null),
    set of reference locations, usr string, symbol name. *)
Record CursorInfo : Type := mkCursorInfo {
  kind : N;
  target : Location;
  references : gset Location;
  usr : string;
  symbolName : string
}.

#[global] Instance CursorInfo_eq_dec : EqDecision CursorInfo.
Proof. solve_decision. Defined.

(** A default-constructed [CursorInfo], which is also what
    [Rdm::readValue] returns for a key that is not stored. *)
Definition emptyCursorInfo : CursorInfo :=
  {| kind := 0%N; target := nullLocation; references := ∅;
     usr := EmptyString; symbolName := EmptyString |}.

#[global] Instance CursorInfo_inhabited : Inhabited CursorInfo :=
  populate emptyCursorInfo.

Definition addReferences (extra : gset Location) (ci : CursorInfo) : CursorInfo :=
  {| kind := kind ci; target := target ci; references := references ci ∪ extra;
     usr := usr ci; symbolName := symbolName ci |}.

Definition setTarget (t : Location) (ci : CursorInfo) : CursorInfo :=
  {| kind := kind ci; target := t; references := references ci;
     usr := usr ci; symbolName := symbolName ci |}.

(** Modelled from the spec: [CursorInfo::unite] is declared outside the
    sources at hand.  It unions the reference sets; fills a null target
    from the incoming value; keeps the earliest-seen kind/usr when both
    sides agree, otherwise prefers the incoming definition-like kind over a
    declaration-like kind.  Which kinds are definition-like is left to
    [definitionLike]; a record that has no kind yet takes the incoming
    one.  The result says whether the record was modified. *)
Definition unite (definitionLike : N -> bool) (current added : CursorInfo)
  : CursorInfo * bool :=
  let takeIncoming :=
    N.eqb (kind current) 0
    || (negb (N.eqb (kind current) (kind added))
        && definitionLike (kind added) && negb (definitionLike (kind current))) in
  let merged :=
    {| kind := if takeIncoming then kind added else kind current;
       target := if isNull (target current) then target added else target current;
       references := references current ∪ references added;
       usr := if takeIncoming then usr added else usr current;
       symbolName := if takeIncoming then symbolName added else symbolName current |} in
  (merged, negb (bool_decide (merged = current))).

(** [addTo(container, value)] on a set of locations:
    <<
    const int oldSize = container.size();
    container += value;
    return container.size() != oldSize;
    >> *)
Definition addTo (container value : gset Location) : gset Location * bool :=
  let grown := container ∪ value in
  (grown, negb (Nat.eqb (size grown) (size container))).

(** ** The staging buffer *)

(** <<
    void IndexerSyncer::addSymbolNames(const SymbolNameHash &locations)
    {
        QMutexLocker lock(&mMutex);
        if (mSymbolNames.isEmpty()) {
            mSymbolNames = locations;
        } else {
            for (it = locations.begin(); it != end; ++it)
                mSymbolNames[it.key()].unite(it.value());
        }
    }
    >>
    [mSymbolNames[k]] creates an empty set under [k] when there is none. *)
Definition uniteAt (m : gmap string (gset Location)) (kv : string * gset Location)
  : gmap string (gset Location) :=
  <[ kv.1 := default ∅ (m !! kv.1) ∪ kv.2 ]> m.

Definition addSymbolNames (mSymbolNames locations : gmap string (gset Location))
  : gmap string (gset Location) :=
  if decide (mSymbolNames = ∅) then locations
  else fold_left uniteAt (map_to_list locations) mSymbolNames.

(** The staging map after a sequence of producer calls on an empty buffer. *)
Definition staged (calls : list (gmap string (gset Location)))
  : gmap string (gset Location) :=
  fold_left addSymbolNames calls ∅.

(** ** The writer cycle: symbol names *)

(** [Rdm::readValue<QSet<RTags::Location> >(db.db(), key)]. *)
Definition readNames (db : gmap string (gset Location)) (k : string) : gset Location :=
  default ∅ (db !! k).

(** One turn of the [while (it != end)] loop over the staged names: the
    state is the write batch and the flag [changed]. *)
Definition namesStep (db : gmap string (gset Location))
  (st : list (string * gset Location) * bool) (kv : string * gset Location)
  : list (string * gset Location) * bool :=
  let '(batch, changed) := st in
  let '(current, grew) := addTo (readNames db kv.1) kv.2 in
  if grew then (batch ++ [(kv.1, current)], true) else (batch, changed).

(** [db.db()->Write(leveldb::WriteOptions(), &batch)]: the writes of the
    batch take effect in order. *)
Definition writeBatch {K V} `{Countable K} (db : gmap K V) (batch : list (K * V))
  : gmap K V :=
  fold_left (fun d kv => <[ kv.1 := kv.2 ]> d) batch db.

(** The symbol-names part of one cycle of [IndexerSyncer::run], on the
    swapped-out map.  [opens] is the result of
    [db.open(Database::SymbolName, LevelDB::ReadWrite)]; when it fails the
    thread returns ([None]).  Otherwise the result is the store after the
    cycle together with the batch that was built. *)
Definition syncSymbolNames (opens : bool) (db symbolNames : gmap string (gset Location))
  : option (gmap string (gset Location) * list (string * gset Location)) :=
  if decide (symbolNames = ∅) then Some (db, [])
  else if negb opens then None
  else
    let '(batch, changed) :=
      fold_left (namesStep db) (map_to_list symbolNames) ([], false) in
    Some (if changed then writeBatch db batch else db, batch).

(** The writes the loop over the staged names puts in the batch. *)
Definition namesBatch (db : gmap string (gset Location))
  (l : list (string * gset Location)) : list (string * gset Location) :=
  omap (fun kv => if snd (addTo (readNames db kv.1) kv.2)
                  then Some (kv.1, readNames db kv.1 ∪ kv.2) else None) l.

(** The union of the sets staged for [k] by a sequence of producer calls. *)
Definition stagedUnion (calls : list (gmap string (gset Location))) (k : string)
  : gset Location :=
  ⋃ (List.map (fun c => default ∅ (c !! k)) calls).

(** ** The writer cycle: references and symbols *)

(** [Rdm::readValue<Rdm::CursorInfo>(symbolDB.db(), key)]; the padded key
    of a location is taken to be the location. *)
Definition readSymbol (db : gmap Location CursorInfo) (k : Location) : CursorInfo :=
  default emptyCursorInfo (db !! k).

(** [symbols[k]]: the entry under [k], created empty when absent. *)
Definition touch (k : Location) (symbols : gmap Location CursorInfo)
  : gmap Location CursorInfo :=
  match symbols !! k with
  | Some _ => symbols
  | None => <[ k := emptyCursorInfo ]> symbols
  end.

(** The branch taken when [symbols.find(it.value().first) != symbols.end()].
    [ci] and [other] are references into the hash, so every statement
    updates the hash in place:
    <<
    Rdm::CursorInfo &ci = sym.value();
    ci.references.insert(it.key());
    if (it.value().second != Rdm::NormalReference) {
        Rdm::CursorInfo &other = symbols[it.key()];
        ci.references += other.references;
        other.references += ci.references;
        if (other.target.isNull())
            other.target = it.value().first;
    }
    >> *)
Definition referenceInMemory (symbols : gmap Location CursorInfo)
  (from to : Location) (k : ReferenceType) : gmap Location CursorInfo :=
  let symbols := alter (addReferences {[ from ]}) to symbols in
  if negb (isNormal k) then
    let symbols := touch from symbols in
    let symbols := alter (addReferences (references (symbols !!! from))) to symbols in
    let symbols := alter (addReferences (references (symbols !!! to))) from symbols in
    if isNull (target (symbols !!! from)) then alter (setTarget to) from symbols
    else symbols
  else symbols.

(** The branch taken when the target is not staged: [current] and [other]
    are copies read from the store, and what changed goes to the batch.
    <<
    Rdm::CursorInfo current = Rdm::readValue<Rdm::CursorInfo>(symbolDB.db(), key.constData());
    bool changedCurrent = false;
    if (addTo(current.references, it.key()))
        changedCurrent = true;
    if (it.value().second != Rdm::NormalReference) {
        Rdm::CursorInfo other = Rdm::readValue<Rdm::CursorInfo>(symbolDB.db(), otherKey);
        bool changedOther = false;
        if (addTo(other.references, it.key()))
            changedOther = true;
        if (addTo(other.references, current.references))
            changedOther = true;
        if (addTo(current.references, other.references))
            changedCurrent = true;
        if (other.target.isNull()) {
            other.target = it.value().first;
            changedOther = true;
        }
        if (changedOther) {
            changedSymbols = true;
            Rdm::writeValue<Rdm::CursorInfo>(&symbolsBatch, otherKey, other);
        }
    }
    if (changedCurrent) {
        changedSymbols = true;
        Rdm::writeValue<Rdm::CursorInfo>(&symbolsBatch, key, current);
    }
    >> *)
Definition referenceInStore (db : gmap Location CursorInfo)
  (batch : list (Location * CursorInfo)) (from to : Location) (k : ReferenceType)
  : list (Location * CursorInfo) :=
  let current := readSymbol db to in
  let '(refs, changedCurrent) := addTo (references current) {[ from ]} in
  let current := addReferences refs current in
  let '(current, changedCurrent, batch) :=
    if negb (isNormal k) then
      let other := readSymbol db from in
      let '(refs, c1) := addTo (references other) {[ from ]} in
      let other := addReferences refs other in
      let '(refs, c2) := addTo (references other) (references current) in
      let other := addReferences refs other in
      let '(refs, c3) := addTo (references current) (references other) in
      let current := addReferences refs current in
      let '(other, c4) :=
        if isNull (target other) then (setTarget to other, true) else (other, false) in
      let changedOther := c1 || c2 || c4 in
      (current, changedCurrent || c3,
       if changedOther then batch ++ [(from, other)] else batch)
    else (current, changedCurrent, batch) in
  if changedCurrent then batch ++ [(to, current)] else batch.

(** The state of the symbols part of a cycle: the staged [symbols] hash,
    the batch, and whether [symbolDB] has been opened. *)
Record Cycle : Type := mkCycle {
  symbols : gmap Location CursorInfo;
  symbolsBatch : list (Location * CursorInfo);
  opened : bool
}.

(** The loop over the staged references, in the iteration order of the
    hash.  [opens] is the result of [symbolDB.open(...)]; [None] is the
    [return] on failure. *)
Fixpoint syncReferences (opens : bool) (db : gmap Location CursorInfo)
  (refs : list (Location * (Location * ReferenceType))) (c : Cycle) : option Cycle :=
  match refs with
  | [] => Some c
  | (from, (to, k)) :: rest =>
      match symbols c !! to with
      | Some _ =>
          syncReferences opens db rest
            {| symbols := referenceInMemory (symbols c) from to k;
               symbolsBatch := symbolsBatch c; opened := opened c |}
      | None =>
          if negb (opened c) && negb opens then None
          else
            syncReferences opens db rest
              {| symbols := symbols c;
                 symbolsBatch := referenceInStore db (symbolsBatch c) from to k;
                 opened := true |}
      end
  end.

(** One turn of the loop over the staged symbols:
    <<
    Rdm::CursorInfo added = it.value();
    Rdm::CursorInfo current = Rdm::readValue<Rdm::CursorInfo>(symbolDB.db(), key.constData());
    if (current.unite(added)) {
        changedSymbols = true;
        Rdm::writeValue<Rdm::CursorInfo>(&symbolsBatch, key, current);
    }
    >> *)
Definition symbolStep (definitionLike : N -> bool) (db : gmap Location CursorInfo)
  (batch : list (Location * CursorInfo)) (kv : Location * CursorInfo)
  : list (Location * CursorInfo) :=
  let '(current, changed) := unite definitionLike (readSymbol db kv.1) kv.2 in
  if changed then batch ++ [(kv.1, current)] else batch.

(** The references and symbols parts of one cycle of [IndexerSyncer::run]
    on the swapped-out maps; the result is the symbols store after the
    cycle.  [changedSymbols] is set exactly when something was put in the
    batch. *)
Definition syncSymbols (definitionLike : N -> bool) (opens : bool)
  (db : gmap Location CursorInfo)
  (refs : list (Location * (Location * ReferenceType)))
  (staged : gmap Location CursorInfo) : option (gmap Location CursorInfo) :=
  match syncReferences opens db refs
          {| symbols := staged; symbolsBatch := []; opened := false |} with
  | None => None
  | Some c =>
      if decide (symbols c = ∅) then Some (writeBatch db (symbolsBatch c))
      else if negb (opened c) && negb opens then None
      else
        Some (writeBatch db
                (fold_left (symbolStep definitionLike db)
                           (map_to_list (symbols c)) (symbolsBatch c)))
  end.

(** ** Vocabulary for the statements *)

(** [b] has everything [a] has: all its references, and a target if [a]
    has one. *)
Definition extends (a b : CursorInfo) : Prop :=
  references a ⊆ references b
  /\ (isNull (target a) = false -> isNull (target b) = false).

(** Every entry of [m] is still in [m'], extended. *)
Definition grows (m m' : gmap Location CursorInfo) : Prop :=
  forall k ci, m !! k = Some ci -> exists ci', m' !! k = Some ci' /\ extends ci ci'.

(** What the in-memory branch establishes for a reference [from -> to]
    that is not normal. *)
Definition linked (from to : Location) (m : gmap Location CursorInfo) : Prop :=
  (exists ci, m !! to = Some ci /\ from ∈ references ci)
  /\ (exists other, m !! from = Some other
                    /\ from ∈ references other
                    /\ (isNull to = false -> isNull (target other) = false)).

(** Every write of the batch extends what the store holds under its key. *)
Definition batchExtends (db : gmap Location CursorInfo)
  (batch : list (Location * CursorInfo)) : Prop :=
  forall k v, (k, v) ∈ batch -> extends (readSymbol db k) v.

(** The writes the loop over the staged symbols puts in the batch. *)
Definition symbolsBatchOf (definitionLike : N -> bool) (db : gmap Location CursorInfo)
  (l : list (Location * CursorInfo)) : list (Location * CursorInfo) :=
  omap (fun kv => if snd (unite definitionLike (readSymbol db kv.1) kv.2)
                  then Some (kv.1, fst (unite definitionLike (readSymbol db kv.1) kv.2))
                  else None) l.

(** The rule in the words of the specification: after the cycle each
    side's references contain the other side's location, and the target of
    [symbols[to]] is not null. *)
Definition linksBothWays (db' : gmap Location CursorInfo) (from to : Location) : Prop :=
  from ∈ references (readSymbol db' to)
  /\ to ∈ references (readSymbol db' from)
  /\ isNull (target (readSymbol db' to)) = false.

(** ** Small inputs *)

Definition locA : Location := (1%N, 10%N).
Definition locB : Location := (1%N, 20%N).
Definition locC : Location := (2%N, 5%N).

(** Two producer calls, both naming [main]. *)
Definition firstCall : gmap string (gset Location) :=
  {[ "main"%string := {[ locA ]}; "helper"%string := {[ locB ]} ]}.

Definition secondCall : gmap string (gset Location) :=
  {[ "main"%string := {[ locC ]} ]}.

(** A call at [locA] of the member function declared at [locB], staged
    together with the symbol at [locB]; the store is empty. *)
Definition oneCall : list (Location * (Location * ReferenceType)) :=
  [ (locA, (locB, MemberFunction)) ].

Definition declaredAtB : gmap Location CursorInfo :=
  {[ locB := emptyCursorInfo ]}.

Definition noDefinitions : N -> bool := fun _ => false.

(** The store already knows where [helper] is. *)
Definition namesOnDisk : gmap string (gset Location) :=
  {[ "helper"%string := {[ locB ]} ]}.

(** [b] is [a] with references added and, if [a] had no target, possibly
    a target filled in: the kind, usr and symbol name are those of [a], and
    a target that is not null is kept as it is. *)
Definition onlyAdds (a b : CursorInfo) : Prop :=
  references a ⊆ references b
  /\ kind b = kind a /\ usr b = usr a /\ symbolName b = symbolName a
  /\ (isNull (target a) = false -> target b = target a).

(** Every entry of [m] is still in [m'], with only such additions. *)
Definition onlyAddsTo (m m' : gmap Location CursorInfo) : Prop :=
  forall k ci, m !! k = Some ci -> exists ci', m' !! k = Some ci' /\ onlyAdds ci ci'.

(** The symbol at [locB] already has its target at [locC]. *)
Definition targetedAtB : gmap Location CursorInfo :=
  {[ locB := setTarget locC emptyCursorInfo ]}.

End Syncer.

(* ===================================================================== *)
(** * The indexer aggregator: the other staging maps and their stages *)
(* ===================================================================== *)

Module Staging.

(** <<
    void IndexerSyncer::addReferences(const ReferenceHash &references)
    {
        QMutexLocker lock(&mMutex);
        if (mReferences.isEmpty()) {
            mReferences = references;
        } else {
            for (it = references.begin(); it != end; ++it)
                mReferences[it.key()] = it.value();
        }
    }
    >> *)
Definition addReferences
  (mReferences references : gmap Syncer.Location (Syncer.Location * Syncer.ReferenceType))
  : gmap Syncer.Location (Syncer.Location * Syncer.ReferenceType) :=
  if decide (mReferences = ∅) then references
  else fold_left (fun m kv => <[ kv.1 := kv.2 ]> m) (map_to_list references) mReferences.

(** The staged references after a sequence of producer calls. *)
Definition stagedReferences
  (calls : list (gmap Syncer.Location (Syncer.Location * Syncer.ReferenceType)))
  : gmap Syncer.Location (Syncer.Location * Syncer.ReferenceType) :=
  fold_left addReferences calls ∅.

(** What the last call that mentions [k] says about it. *)
Fixpoint lastMention {K V} `{Countable K} (calls : list (gmap K V)) (k : K) : option V :=
  match calls with
  | [] => None
  | c :: rest =>
      match lastMention rest k with
      | Some v => Some v
      | None => c !! k
      end
  end.

(** <<
    void IndexerSyncer::addDependencies(const DependencyHash& dependencies)
    {
        QMutexLocker lock(&mMutex);
        if (mDependencies.isEmpty()) {
            mDependencies = dependencies;
        } else {
            for (it = dependencies.begin(); it != end; ++it)
                mDependencies[it.key()].unite(it.value());
        }
    }
    >> *)
Definition uniteDependenciesAt (m : gmap string (gset string)) (kv : string * gset string)
  : gmap string (gset string) :=
  <[ kv.1 := default ∅ (m !! kv.1) ∪ kv.2 ]> m.

Definition addDependencies (mDependencies dependencies : gmap string (gset string))
  : gmap string (gset string) :=
  if decide (mDependencies = ∅) then dependencies
  else fold_left uniteDependenciesAt (map_to_list dependencies) mDependencies.

Definition stagedDependencies (calls : list (gmap string (gset string)))
  : gmap string (gset string) :=
  fold_left addDependencies calls ∅.

(** [Rdm::readValue<QSet<Path> >(db.db(), key)]. *)
Definition readDependencies (db : gmap string (gset string)) (k : string) : gset string :=
  default ∅ (db !! k).

(** One turn of the loop over the staged dependencies:
    <<
    QSet<Path> added = it.value();
    QSet<Path> current = Rdm::readValue<QSet<Path> >(db.db(), key);
    const int oldSize = current.size();
    if (current.unite(added).size() > oldSize) {
        changed = true;
        Rdm::writeValue<QSet<Path> >(&batch, key, current);
    }
    >> *)
Definition dependenciesStep (db : gmap string (gset string))
  (st : list (string * gset string) * bool) (kv : string * gset string)
  : list (string * gset string) * bool :=
  let '(batch, changed) := st in
  let current := readDependencies db kv.1 in
  let oldSize := size current in
  let current := current ∪ kv.2 in
  if (oldSize <? size current)%nat then (batch ++ [(kv.1, current)], true)
  else (batch, changed).

(** The dependencies part of one cycle of [IndexerSyncer::run]; [opens] is
    the result of [db.open(Database::Dependency, LevelDB::ReadWrite)], and
    [None] the [return] when it fails. *)
Definition syncDependencies (opens : bool) (db dependencies : gmap string (gset string))
  : option (gmap string (gset string) * list (string * gset string)) :=
  if decide (dependencies = ∅) then Some (db, [])
  else if negb opens then None
  else
    let '(batch, changed) :=
      fold_left (dependenciesStep db) (map_to_list dependencies) ([], false) in
    Some (if changed then Syncer.writeBatch db batch else db, batch).

Definition dependenciesBatch (db : gmap string (gset string))
  (l : list (string * gset string)) : list (string * gset string) :=
  omap (fun kv => if (size (readDependencies db kv.1)
                      <? size (readDependencies db kv.1 ∪ kv.2))%nat
                  then Some (kv.1, readDependencies db kv.1 ∪ kv.2) else None) l.

Definition stagedDependencyUnion (calls : list (gmap string (gset string))) (k : string)
  : gset string :=
  ⋃ (List.map (fun c => default ∅ (c !! k)) calls).

(** [FileInformation]: the compile arguments of a source and the time it
    was last touched. *)
Record FileInformation : Type := mkFileInformation {
  lastTouched : Z;
  compileArgs : list string
}.

(** <<
    void IndexerSyncer::addFileInformation(const Path& input,
                                           const QList<QByteArray>& args, time_t timeStamp)
    {
        FileInformation fi;
        fi.lastTouched = timeStamp;
        fi.compileArgs = args;
        QMutexLocker lock(&mMutex);
        mInformations[input] = fi;
    }
    >> *)
Definition addFileInformation (mInformations : gmap string FileInformation)
  (call : string * list string * Z) : gmap string FileInformation :=
  let '(input, args, timeStamp) := call in
  <[ input := {| lastTouched := timeStamp; compileArgs := args |} ]> mInformations.

Definition stagedInformations (calls : list (string * list string * Z))
  : gmap string FileInformation :=
  fold_left addFileInformation calls ∅.

(** The file-information part of one cycle of [IndexerSyncer::run]:
    <<
    if (!informations.isEmpty()) {
        leveldb::WriteBatch batch;
        ... while (it != end) {
            Rdm::writeValue<FileInformation>(&batch, key, it.value());
            ++it;
        }
        LevelDB db;
        if (!db.open(Database::FileInformation, LevelDB::ReadWrite))
            return;
        db.db()->Write(leveldb::WriteOptions(), &batch);
    }
    >> *)
Definition syncInformations (opens : bool)
  (db informations : gmap string FileInformation) : option (gmap string FileInformation) :=
  if decide (informations = ∅) then Some db
  else
    let batch := fold_left (fun b kv => b ++ [kv]) (map_to_list informations) [] in
    if negb opens then None
    else Some (Syncer.writeBatch db batch).

(** The last call that names [input]. *)
Fixpoint lastInformation (calls : list (string * list string * Z)) (input : string)
  : option FileInformation :=
  match calls with
  | [] => None
  | (p, args, timeStamp) :: rest =>
      match lastInformation rest input with
      | Some fi => Some fi
      | None =>
          if String.eqb p input
          then Some {| lastTouched := timeStamp; compileArgs := args |}
          else None
      end
  end.

(** Three calls for two sources; [a.c] is reported twice. *)
Definition threeReports : list (string * list string * Z) :=
  [ ("/src/a.c"%string, ["-O0"%string], 100);
    ("/src/b.c"%string, ["-O2"%string], 101);
    ("/src/a.c"%string, ["-O2"%string; "-g"%string], 102) ].

Definition depsFirst : gmap string (gset string) :=
  {[ "/src/a.c"%string := {[ "/src/a.h"%string ]} ]}.

Definition depsSecond : gmap string (gset string) :=
  {[ "/src/a.c"%string := {[ "/src/b.h"%string ]} ]}.

End Staging.

(* ===================================================================== *)
(** * Source-root discovery: [findAncestor] and [findProjectRoot] *)
(* ===================================================================== *)

Module Discovery.

Local Open Scope string_scope.

(** What discovery asks of the outside world: whether [stat] succeeds on a
    path, the names [readdir_r] yields for a directory ([None] when
    [opendir] fails), [Path::home()], the lines [RTags::readLine] yields
    for a file, and [Path::resolved]. *)
Record FileSystem : Type := mkFileSystem {
  stat : string -> bool;
  opendir : string -> option (list string);
  home : string;
  readLines : string -> list string;
  resolved : string -> string
}.

(** [enum FindAncestorFlag { Shallow = 0x1, Wildcard = 0x2 }] *)
Definition Shallow : Z := 1.
Definition Wildcard : Z := 2.

(** [flags & f] as a condition. *)
Definition hasFlag (flags f : Z) : bool := negb (Z.land flags f =? 0)%Z.

Definition sizeOf (s : string) : Z := Z.of_nat (String.length s).

Definition isEmpty (s : string) : bool := String.eqb s "".

Fixpoint lastIndexAux (c : ascii) (s : string) (pos from best : Z) : Z :=
  match s with
  | EmptyString => best
  | String a rest =>
      lastIndexAux c rest (pos + 1) from
        (if Ascii.eqb a c && (pos <=? from)%Z then pos else best)
  end.

(** [s.lastIndexOf(c, from)]: the greatest index not above [from] at which
    [c] occurs, or -1. *)
Definition lastIndexOf (c : ascii) (s : string) (from : Z) : Z :=
  lastIndexAux c s 0 from (-1).

(** [fnmatch(pattern, s, 0) == 0] for patterns made of ordinary
    characters, [*] and [?] (the markers use nothing else).  With no flag
    set, [*] also matches slashes and a leading period. *)
Fixpoint fnmatch (pattern s : string) : bool :=
  match pattern with
  | EmptyString => isEmpty s
  | String c pattern' =>
      if Ascii.eqb c "*" then
        (fix star (t : string) : bool :=
           fnmatch pattern' t
           || match t with
              | EmptyString => false
              | String _ t' => star t'
              end) s
      else
        match s with
        | EmptyString => false
        | String a s' => (Ascii.eqb c "?" || Ascii.eqb a c) && fnmatch pattern' s'
        end
  end.

(** The entries the scan does not skip: everything but [.] and [..]. *)
Definition isDotEntry (name : string) : bool :=
  String.eqb name "." || String.eqb name "..".

(** The inner [while (!readdir_r(dir, direntBuf, &entry) && entry)] loop:
    is there an entry, other than [.] and [..], with
    [!fnmatch(fn, buf, 0)], where [buf] holds the directory followed by
    the entry's name? *)
Definition scanDirectory (fs : FileSystem) (dir fn : string) : bool :=
  match opendir fs dir with
  | Some names =>
      existsb (fun name => negb (isDotEntry name) && fnmatch fn (dir ++ name)) names
  | None => false
  end.

(** The test made at one ancestor [dir] (which ends in a slash). *)
Definition markerAt (fs : FileSystem) (fn : string) (flags : Z) (dir : string) : bool :=
  if negb (hasFlag flags Wildcard) then stat fs (dir ++ fn)
  else scanDirectory fs dir fn.

(** <<
    while ((slash = path.lastIndexOf('/', slash - 1)) > 0) { // We don't want to search in /
        if (!(flags & Wildcard)) {
            memcpy(buf + slash + 1, fn, len);
            if (!stat(buf, &st)) {
                buf[slash + 1] = '\0';
                ret = buf;
                if (flags & Shallow) {
                    break;
                }
            }
        } else {
            buf[slash + 1] = '\0';
            DIR *dir = opendir(buf);
            bool found = false;
            if (dir) { ... ret = buf; ret.truncate(slash + 1); found = true; break; ... }
            closedir(dir);
            if (found && flags & Shallow)
                break;
        }
    }
    >>
    [buf] starts as a copy of [path] and is only overwritten after
    [slash], so its first [slash + 1] bytes are those of [path].  [slash]
    decreases in every turn; [fuel] bounds the number of turns. *)
Fixpoint findAncestorLoop (fs : FileSystem) (fuel : nat) (path fn : string)
  (flags slash : Z) (ret : string) : string :=
  match fuel with
  | O => ret
  | S fuel' =>
      let slash := lastIndexOf "/" path (slash - 1) in
      if (slash >? 0)%Z then
        let dir := String.substring 0 (Z.to_nat (slash + 1)) path in
        if markerAt fs fn flags dir then
          if hasFlag flags Shallow then dir
          else findAncestorLoop fs fuel' path fn flags slash dir
        else findAncestorLoop fs fuel' path fn flags slash ret
      else ret
  end.

(** <<
    static inline Path findAncestor(Path path, const char *fn, unsigned flags)
    {
        Path ret;
        int slash = path.size();
        ...
        return ret;
    }
    >> *)
Definition findAncestor (fs : FileSystem) (path fn : string) (flags : Z) : string :=
  findAncestorLoop fs (S (String.length path)) path fn flags (sizeOf path) "".

(** The table of [findProjectRoot]. *)
Definition entries : list (string * Z) :=
  [ ("GTAGS", 0%Z); ("configure", 0%Z); (".git", 0%Z); ("CMakeLists.txt", 0%Z);
    ("*.pro", Wildcard); ("scons.1", 0%Z); ("*.scons", Wildcard);
    ("SConstruct", 0%Z); ("autogen.*", Wildcard); ("Makefile*", Wildcard);
    ("GNUMakefile*", Wildcard); ("INSTALL*", Wildcard); ("README*", Wildcard) ].

(** [!p.isEmpty() && p != home] *)
Definition accepted (fs : FileSystem) (p : string) : bool :=
  negb (isEmpty p) && negb (String.eqb p (home fs)).

(** <<
    for (int i=0; entries[i].name; ++i) {
        const Path p = findAncestor(path, entries[i].name, entries[i].flags);
        if (!p.isEmpty() && p != home) {
            return p;
        }
    }
    >> *)
Fixpoint firstRoot (fs : FileSystem) (path : string) (es : list (string * Z))
  : option string :=
  match es with
  | [] => None
  | (name, flags) :: rest =>
      let p := findAncestor fs path name flags in
      if accepted fs p then Some p else firstRoot fs path rest
  end.

Definition endsWithSlash (s : string) : bool :=
  match String.get (String.length s - 1) s with
  | Some c => Ascii.eqb c "/" && negb (isEmpty s)
  | None => false
  end.

(** <<
    for (int i=0; i<MaxLines; ++i) {
        int r = RTags::readLine(f, line, sizeof(line));
        if (r == -1)
            break;
        char *configure = strstr(line, "configure");
        if (configure) {
            Path ret = Path::resolved(ByteArray(line, configure - line));
            if (!ret.endsWith('/'))
                ret.append('/');
            if (ret != home)
                return ret;
        }
    }
    >>
    over the lines that are read. *)
Fixpoint scanConfigStatus (fs : FileSystem) (lines : list string) : option string :=
  match lines with
  | [] => None
  | line :: rest =>
      match String.index 0 "configure" line with
      | Some n =>
          let ret := resolved fs (String.substring 0 n line) in
          let ret := if endsWithSlash ret then ret else ret ++ "/" in
          if negb (String.eqb ret (home fs)) then Some ret
          else scanConfigStatus fs rest
      | None => scanConfigStatus fs rest
      end
  end.

Definition MaxLines : nat := 10.

(** [static Path findProjectRoot(const Path &path)] *)
Definition findProjectRoot (fs : FileSystem) (path : string) : string :=
  match firstRoot fs path entries with
  | Some p => p
  | None =>
      let configStatus := findAncestor fs path "config.status" 0 in
      if negb (isEmpty configStatus) then
        match scanConfigStatus fs
                (firstn MaxLines (readLines fs (configStatus ++ "config.status"))) with
        | Some ret => ret
        | None => ""
        end
      else ""
  end.

(** ** Vocabulary for the statements *)

(** The directories the loop of [findAncestor] visits, deepest first. *)
Fixpoint ancestorsFrom (fuel : nat) (path : string) (slash : Z) : list string :=
  match fuel with
  | O => []
  | S fuel' =>
      let slash := lastIndexOf "/" path (slash - 1) in
      if (slash >? 0)%Z then
        String.substring 0 (Z.to_nat (slash + 1)) path :: ancestorsFrom fuel' path slash
      else []
  end.

Definition ancestorDirs (path : string) : list string :=
  ancestorsFrom (S (String.length path)) path (sizeOf path).

(** The shallowest of the ancestors at which the marker is found, or the
    empty path. *)
Definition shallowestWith (fs : FileSystem) (path fn : string) (flags : Z) : string :=
  List.last (List.filter (markerAt fs fn flags) (ancestorDirs path)) "".



(** ** Two directory trees *)

Definition noDirectory (_ : string) : option (list string) := None.
Definition noLines (_ : string) : list string := [].




(** A checkout under [/work/proj/] with a nested checkout in [lib/]. *)
Definition nestedTree : FileSystem :=
  {| stat := fun p => String.eqb p "/work/proj/.git"
                      || String.eqb p "/work/proj/lib/.git";
     opendir := noDirectory;
     home := "/home/u/";
     readLines := noLines;
     resolved := fun p => p |}.

End Discovery.

(* ===================================================================== *)
(** * Properties *)
(* ===================================================================== *)

Module JobIdFacts.
Import JobId.

Lemma wrap32_small z : INT_MIN <= z <= INT_MAX -> wrap32 z = z.
Proof.
  unfold wrap32, INT_MIN, INT_MAX. intros H.
  rewrite Z.mod_small by lia. lia.
Qed.

Lemma wrap32_range z : INT_MIN <= wrap32 z <= INT_MAX.
Proof.
  unfold wrap32, INT_MIN, INT_MAX.
  pose proof (Z.mod_pos_bound (z + 2147483648) 4294967296). lia.
Qed.

Lemma nextId_fst_snd j : fst (nextId j) = snd (nextId j).
Proof. reflexivity. Qed.

Lemma nextId_nonzero j : fst (nextId j) <> 0.
Proof.
  unfold nextId; cbn [fst].
  destruct (incr j =? 0) eqn:E.
  - apply Z.eqb_eq in E. rewrite E. vm_compute. discriminate.
  - apply Z.eqb_neq in E. exact E.
Qed.

Lemma nextId_range j : INT_MIN <= fst (nextId j) <= INT_MAX.
Proof.
  unfold nextId; cbn [fst].
  destruct (incr j =? 0); unfold incr; apply wrap32_range.
Qed.

Lemma nextId_below_max j :
  INT_MIN <= j < INT_MAX -> j < fst (nextId j).
Proof.
  intros H. unfold nextId; cbn [fst].
  assert (Hi : incr j = j + 1).
  { unfold incr. apply wrap32_small. unfold INT_MIN, INT_MAX in *. lia. }
  rewrite Hi.
  destruct (j + 1 =? 0) eqn:E.
  - apply Z.eqb_eq in E. rewrite E. vm_compute incr. lia.
  - lia.
Qed.

Lemma after_calls_small (n : nat) :
  Z.of_nat n <= INT_MAX -> after_calls n = Z.of_nat n.
Proof.
  induction n as [|k IH]; intros H; [reflexivity|].
  cbn [after_calls]. rewrite IH by lia.
  unfold nextId; cbn [snd].
  assert (Hi : incr (Z.of_nat k) = Z.of_nat k + 1).
  { unfold incr. apply wrap32_small. unfold INT_MIN, INT_MAX in *. lia. }
  rewrite Hi.
  destruct (Z.of_nat k + 1 =? 0) eqn:E; [apply Z.eqb_eq in E; lia | lia].
Qed.


Example nextId_first : nextId 0 = (1, 1).
Proof. reflexivity. Qed.

Example nextId_skips_zero : nextId (-1) = (1, 1).
Proof. reflexivity. Qed.

Example nextId_at_INT_MAX : nextId INT_MAX = (INT_MIN, INT_MIN).
Proof. reflexivity. Qed.

(** The wrap is reached: after [INT_MAX] calls the counter is [INT_MAX]. *)
Lemma INT_MAX_reached : exists n : nat, after_calls n = INT_MAX.
Proof.
  exists (Z.to_nat INT_MAX).
  rewrite after_calls_small; rewrite Z2Nat.id; unfold INT_MAX; lia.
Qed.

(** C5, as stated, fails: claiming for every counter value that the id is
    non-zero and that the next id is larger breaks at the wrap-around, where
    [INT_MAX] is followed by [INT_MIN]. *)
Lemma nextId_not_increasing_at_wrap :
  ~ (forall j : Z, INT_MIN <= j <= INT_MAX ->
       fst (nextId j) <> 0 /\ fst (nextId j) < fst (nextId (snd (nextId j)))).
Proof.
  intros H. specialize (H (INT_MAX - 1)).
  assert (Hr : INT_MIN <= INT_MAX - 1 <= INT_MAX) by (unfold INT_MIN, INT_MAX; lia).
  destruct (H Hr) as [_ Hlt]. vm_compute in Hlt. discriminate.
Qed.

(** C5 (amended): the id returned by [Server::nextId] is never 0, and of
    two successive calls the second returns a larger id than the first
    unless the first returned [INT_MAX], where the counter wraps. *)
Theorem nextId_nonzero_increasing_until_wrap (j : Z) :
  let '(r1, s1) := nextId j in
  let '(r2, _) := nextId s1 in
  r1 <> 0 /\ r2 <> 0 /\ (r1 <> INT_MAX -> r1 < r2).
Proof.
  destruct (nextId j) as [r1 s1] eqn:E1.
  destruct (nextId s1) as [r2 s2] eqn:E2.
  assert (H1 : r1 = fst (nextId j)) by (rewrite E1; reflexivity).
  assert (H2 : r2 = fst (nextId s1)) by (rewrite E2; reflexivity).
  assert (Hs : s1 = r1).
  { pose proof (nextId_fst_snd j) as F. rewrite E1 in F. cbn in F. congruence. }
  split; [subst r1; apply nextId_nonzero|].
  split; [subst r2; apply nextId_nonzero|].
  intros Hmax. subst s1. rewrite H2. apply nextId_below_max.
  pose proof (nextId_range j) as R. rewrite <- H1 in R. lia.
Qed.

(** After the wrap the counter runs through the negative numbers. *)
Lemma after_calls_wrapped (n : nat) :
  INT_MAX < Z.of_nat n <= 4294967295 -> after_calls n = Z.of_nat n - 4294967296.
Proof.
  induction n as [|k IH]; intros H; [unfold INT_MAX in H; lia|].
  cbn [after_calls]. unfold INT_MAX in *.
  destruct (Z.le_gt_cases (Z.of_nat k) 2147483647) as [Hk|Hk].
  - rewrite after_calls_small by (unfold INT_MAX; lia).
    assert (E : Z.of_nat k = 2147483647) by lia. rewrite E.
    replace (Z.of_nat (S k)) with 2147483648 by lia. reflexivity.
  - rewrite IH by lia. unfold nextId; cbn [snd].
    assert (Hi : incr (Z.of_nat k - 4294967296) = Z.of_nat k - 4294967296 + 1).
    { unfold incr. apply wrap32_small. unfold INT_MIN, INT_MAX. lia. }
    rewrite Hi.
    destruct (Z.of_nat k - 4294967296 + 1 =? 0) eqn:E; [apply Z.eqb_eq in E; lia | lia].
Qed.

(** X1: the ids handed out by the first 2^32 - 1 calls of [nextId] are
    pairwise distinct: an id is not reused before the counter has run
    through every non-zero [int]. *)
Theorem nextId_ids_distinct (i j : nat) :
  (1 <= i < j)%nat -> Z.of_nat j <= 4294967295 ->
  after_calls i <> after_calls j.
Proof.
  intros Hij Hj.
  destruct (Z.le_gt_cases (Z.of_nat i) INT_MAX) as [Hi|Hi];
    destruct (Z.le_gt_cases (Z.of_nat j) INT_MAX) as [Hj'|Hj'].
  - rewrite !after_calls_small by assumption. lia.
  - rewrite after_calls_small by assumption.
    rewrite after_calls_wrapped by lia. unfold INT_MAX in *. lia.
  - unfold INT_MAX in *. lia.
  - rewrite !after_calls_wrapped by (unfold INT_MAX in *; lia). lia.
Qed.

Lemma nextId_ids_distinct_witness :
  (1 <= 1 < 2)%nat /\ Z.of_nat 2 <= 4294967295 /\ after_calls 1 <> after_calls 2.
Proof.
  assert (A : (1 <= 1 < 2)%nat) by lia.
  assert (B : Z.of_nat 2 <= 4294967295) by lia.
  split; [exact A|]. split; [exact B|].
  exact (nextId_ids_distinct 1 2 A B).
Defined.

End JobIdFacts.

Module StartupFacts.
Import Startup.

Lemma listenLoop_shape (listen : Oracle) (n : nat) :
  forall (i : Z) (hist : list Action),
  exists k : nat,
    (k <= n)%nat /\
    snd (listenLoop listen n i hist)
      = hist ++ failedRounds i k
             ++ (if fst (listenLoop listen n i hist) then [Listen true] else []) /\
    (fst (listenLoop listen n i hist) = false -> k = n) /\
    (fst (listenLoop listen n i hist) = true -> (k < n)%nat).
Proof.
  induction n as [|n IH]; intros i hist.
  - exists 0%nat. cbn. rewrite app_nil_r. repeat split; [lia | discriminate].
  - cbn [listenLoop]. destruct (listen hist).
    + exists 0%nat. cbn. repeat split; [lia | discriminate | lia].
    + destruct (IH (i + 1)
                  (((if i =? 0 then (hist ++ [Listen false]) ++ [SendShutdown]
                     else hist ++ [Listen false]) ++ [Sleep]) ++ [RmSocket]))
        as (k & Hk & Htr & Hf & Ht).
      exists (S k). split; [lia|]. split.
      * rewrite Htr. cbn [failedRounds]. unfold failedRound.
        destruct (i =? 0); cbn; rewrite <- !app_assoc; reflexivity.
      * split; [intros E; rewrite (Hf E); reflexivity | intros E; specialize (Ht E); lia].
Qed.

Lemma init_shape (listen : Oracle) :
  exists k : nat,
    (k <= 10)%nat /\
    snd (init listen)
      = failedRounds 0 k ++ (if fst (init listen) then [Listen true] else []) /\
    (fst (init listen) = false -> k = 10%nat) /\
    (fst (init listen) = true -> (k < 10)%nat).
Proof. apply (listenLoop_shape listen 10 0 []). Qed.

Example init_freeSocket : init freeSocket = (true, [Listen true]).
Proof. reflexivity. Qed.

(** A path that never binds: ten attempts, one Shutdown message, and
    [init] gives up. *)
Example init_deadSocket :
  fst (init deadSocket) = false
  /\ attempts (snd (init deadSocket)) = 10%nat
  /\ length (List.filter isShutdown (snd (init deadSocket))) = 1%nat.
Proof. repeat split. Qed.

Ltac by_position p H :=
  repeat (cbn in H;
          first [ discriminate H
                | destruct p as [|p];
                  [ cbn in H |- *;
                    first [ discriminate H | lia | reflexivity | split; reflexivity ]
                  | ] ]).

(** C8, as stated, fails: when the socket path holds a stale file, the
    first listen attempt comes before any Shutdown message and before any
    removal of the file. *)
Lemma first_attempt_not_prepared :
  init staleSocket
    = (true, [Listen false; SendShutdown; Sleep; RmSocket; Listen true])
  /\ ~ everyAttemptPrepared (snd (init staleSocket)).
Proof.
  split; [reflexivity|].
  intros H. destruct (H 0%nat false eq_refl) as [[q [Hq _]] _]. lia.
Qed.

(** C8 (amended): [Server::init] makes at most 10 listen attempts, each
    failed one followed by a sleep and the removal of the socket file (and,
    for the first one only, by a Shutdown message before these); it
    succeeds exactly when an attempt binds and fails only after 10 failed
    attempts; every attempt but the first comes right after a removal of
    the socket file; a Shutdown message is sent at most once, right after
    a failed first attempt. *)
Theorem init_listen_retries (listen : Oracle) :
  let '(ok, tr) := init listen in
  (exists k : nat, (k <= 10)%nat /\
     tr = failedRounds 0 k ++ (if ok then [Listen true] else [])) /\
  (attempts tr <= 10)%nat /\
  (ok = true <-> In (Listen true) tr) /\
  (ok = false <-> attempts tr = 10%nat /\ ~ In (Listen true) tr) /\
  (forall (p : nat) (b : bool), (0 < p)%nat -> tr !! p = Some (Listen b) ->
     tr !! (p - 1)%nat = Some RmSocket) /\
  (forall p : nat, tr !! p = Some SendShutdown ->
     p = 1%nat /\ tr !! 0%nat = Some (Listen false)).
Proof.
  destruct (init_shape listen) as (k & Hk & Htr & Hf & Ht).
  destruct (init listen) as [ok tr]. cbn [fst snd] in *.
  split; [exists k; split; assumption|].
  destruct ok.
  - specialize (Ht eq_refl). subst tr.
    assert (Hin : In (Listen true) (failedRounds 0 k ++ [Listen true])).
    { apply in_or_app. right. left. reflexivity. }
    split; [|split; [|split; [|split]]].
    + do 10 (destruct k as [|k]; [vm_compute; lia|]). lia.
    + split; [intros _; exact Hin | reflexivity].
    + split; [discriminate | intros [_ H]; destruct (H Hin)].
    + intros p b Hp H. do 10 (destruct k as [|k]; [by_position p H|]). lia.
    + intros p H. do 10 (destruct k as [|k]; [by_position p H|]). lia.
  - specialize (Hf eq_refl). subst k tr.
    assert (Hnot : ~ In (Listen true) (failedRounds 0 10 ++ [])).
    { cbn. intros H. repeat (destruct H as [H|H]; [discriminate H|]). destruct H. }
    split; [|split; [|split; [|split]]].
    + vm_compute. lia.
    + split; [discriminate | intros H; destruct (Hnot H)].
    + split; [intros _; split; [reflexivity | exact Hnot] | reflexivity].
    + intros p b Hp H. by_position p H.
    + intros p H. by_position p H.
Qed.

(** X2: when [listen] binds as soon as the socket file has been removed
    (a stale file with no daemon behind it), [init] succeeds, and it needs
    at most two attempts. *)
Theorem init_recovers_from_stale_socket (listen : Oracle) :
  (forall hist, In RmSocket hist -> listen hist = true) ->
  fst (init listen) = true /\ (attempts (snd (init listen)) <= 2)%nat.
Proof.
  intros H. unfold init. cbn [listenLoop].
  destruct (listen []); [cbn; split; [reflexivity | lia]|].
  cbn [Z.eqb app].
  rewrite (H [Listen false; SendShutdown; Sleep; RmSocket])
    by (cbn; tauto).
  cbn. split; [reflexivity | lia].
Qed.

Lemma init_recovers_witness :
  (forall hist, In RmSocket hist -> staleSocket hist = true) /\
  fst (init staleSocket) = true /\ (attempts (snd (init staleSocket)) <= 2)%nat.
Proof.
  assert (A : forall hist, In RmSocket hist -> staleSocket hist = true).
  { intros hist Hin. unfold staleSocket. apply existsb_exists.
    exists RmSocket. split; [exact Hin | reflexivity]. }
  split; [exact A|]. exact (init_recovers_from_stale_socket staleSocket A).
Defined.

End StartupFacts.

Module RegistryFacts.
Import Registry.

Lemma sizeOf_nonneg (x : string) : 0 <= sizeOf x.
Proof. unfold sizeOf. lia. Qed.

Lemma matchLen_nonneg (it : Project) (p : string) (l : Z) :
  matchLen it p = Some l -> 0 <= l.
Proof.
  unfold matchLen. pose proof (sizeOf_nonneg (srcRoot it)).
  pose proof (sizeOf_nonneg (resolvedSrcRoot it)).
  destruct (rootMatches (srcRoot it) p), (rootMatches (resolvedSrcRoot it) p);
    intros E; inversion E; lia.
Qed.

(** One turn of the loop, in terms of [matchLen]. *)
Lemma scanProjects_cons (it : Project) (rest : list Project) (cur : option Project)
  (p : string) (found : option Project) (longest : Z) :
  scanProjects (it :: rest) cur p found longest =
    if rootMatches (srcRoot it) p && sameProject it cur then None
    else match matchLen it p with
         | Some l =>
             if l >? longest then scanProjects rest cur p (Some it) l
             else scanProjects rest cur p found longest
         | None => scanProjects rest cur p found longest
         end.
Proof.
  cbn [scanProjects]. unfold matchLen.
  destruct (rootMatches (srcRoot it) p) eqn:E1; cbn [andb].
  - destruct (sameProject it cur); [reflexivity|].
    destruct (rootMatches (resolvedSrcRoot it) p) eqn:E2.
    + destruct (sizeOf (srcRoot it) >? longest) eqn:C1.
      * destruct (sizeOf (resolvedSrcRoot it) >? sizeOf (srcRoot it)) eqn:C2.
        -- replace (Z.max (sizeOf (srcRoot it)) (sizeOf (resolvedSrcRoot it)))
             with (sizeOf (resolvedSrcRoot it)) by lia.
           replace (sizeOf (resolvedSrcRoot it) >? longest) with true by lia.
           reflexivity.
        -- replace (Z.max (sizeOf (srcRoot it)) (sizeOf (resolvedSrcRoot it)))
             with (sizeOf (srcRoot it)) by lia.
           rewrite C1. reflexivity.
      * destruct (sizeOf (resolvedSrcRoot it) >? longest) eqn:C2.
        -- replace (Z.max (sizeOf (srcRoot it)) (sizeOf (resolvedSrcRoot it)))
             with (sizeOf (resolvedSrcRoot it)) by lia.
           rewrite C2. reflexivity.
        -- replace (Z.max (sizeOf (srcRoot it)) (sizeOf (resolvedSrcRoot it)) >? longest)
             with false by lia.
           reflexivity.
    + destruct (sizeOf (srcRoot it) >? longest); reflexivity.
  - destruct (rootMatches (resolvedSrcRoot it) p) eqn:E2.
    + destruct (sizeOf (resolvedSrcRoot it) >? longest); reflexivity.
    + reflexivity.
Qed.

Lemma scanned_skip (seen : list Project) (p : string) (found : option Project)
  (longest : Z) (it : Project) :
  scanned seen p found longest ->
  (forall l, matchLen it p = Some l -> l <= longest) ->
  scanned (seen ++ [it]) p found longest.
Proof.
  intros H Hle. destruct found as [best|]; cbn in *.
  - destruct H as (pre & post & Hs & Hm & Hpre & Hpost).
    exists pre, (post ++ [it]). split; [rewrite Hs, <- app_assoc; reflexivity|].
    split; [exact Hm|]. split; [exact Hpre|].
    intros x l Hx Hl. apply elem_of_app in Hx as [Hx|Hx]; [eauto|].
    apply list_elem_of_singleton in Hx. subst x. auto.
  - destruct H as [Hl Hn]. split; [exact Hl|].
    intros x Hx. apply elem_of_app in Hx as [Hx|Hx]; [auto|].
    apply list_elem_of_singleton in Hx. subst x.
    destruct (matchLen it p) as [l|] eqn:E; [|reflexivity].
    pose proof (matchLen_nonneg _ _ _ E). specialize (Hle l eq_refl). lia.
Qed.

Lemma scanned_take (seen : list Project) (p : string) (found : option Project)
  (longest : Z) (it : Project) (l : Z) :
  scanned seen p found longest ->
  matchLen it p = Some l -> longest < l ->
  scanned (seen ++ [it]) p (Some it) l.
Proof.
  intros H Hm Hlt. cbn. exists seen, []. split; [reflexivity|].
  split; [exact Hm|]. split.
  - intros x lx Hx Hlx. destruct found as [best|]; cbn in H.
    + destruct H as (pre & post & Hs & Hb & Hpre & Hpost). subst seen.
      apply elem_of_app in Hx as [Hx|Hx]; [specialize (Hpre _ _ Hx Hlx); lia|].
      apply elem_of_cons in Hx as [->|Hx]; [congruence || (rewrite Hb in Hlx; inversion Hlx; lia)|].
      specialize (Hpost _ _ Hx Hlx). lia.
    + destruct H as [_ Hn]. rewrite (Hn _ Hx) in Hlx. discriminate.
  - intros x lx Hx. inversion Hx.
Qed.

Lemma scanProjects_scanned (p : string) (cur : option Project) (rest : list Project) :
  forall (seen : list Project) (found : option Project) (longest : Z),
    scanned seen p found longest ->
    match scanProjects rest cur p found longest with
    | None => exists it, it ∈ rest /\ covers cur p it
    | Some (found', longest') =>
        scanned (seen ++ rest) p found' longest' /\
        (forall it, it ∈ rest -> ~ covers cur p it)
    end.
Proof.
  induction rest as [|it rest IH]; intros seen found longest H.
  - cbn. rewrite app_nil_r. split; [exact H|]. intros it Hit. inversion Hit.
  - rewrite scanProjects_cons.
    destruct (rootMatches (srcRoot it) p && sameProject it cur) eqn:Ec.
    + exists it. split; [left|]. apply andb_true_iff in Ec. exact Ec.
    + assert (Hnc : ~ covers cur p it).
      { intros [A B]. rewrite A, B in Ec. discriminate. }
      assert (Hgoal : forall f l, scanned (seen ++ [it]) p f l ->
                match scanProjects rest cur p f l with
                | None => exists x, x ∈ it :: rest /\ covers cur p x
                | Some (found', longest') =>
                    scanned (seen ++ it :: rest) p found' longest' /\
                    (forall x, x ∈ it :: rest -> ~ covers cur p x)
                end).
      { intros f l Hs. specialize (IH _ _ _ Hs).
        destruct (scanProjects rest cur p f l) as [[f' l']|].
        - destruct IH as [I1 I2]. rewrite <- app_assoc in I1. split; [exact I1|].
          intros x Hx. apply elem_of_cons in Hx as [->|Hx]; auto.
        - destruct IH as (x & Hx & Hc). exists x. split; [right; exact Hx | exact Hc]. }
      destruct (matchLen it p) as [l|] eqn:Em.
      * destruct (l >? longest) eqn:Cl.
        -- apply Hgoal. eapply scanned_take; eauto. lia.
        -- apply Hgoal. apply scanned_skip; [exact H|].
           intros l' E. rewrite Em in E. inversion E. subst l'. lia.
      * apply Hgoal. apply scanned_skip; [exact H|].
        intros l' E. rewrite Em in E. discriminate.
Qed.

Example select_with_no_current :
  keyOf (mCurrentProject (snd (updateProjectForLocation nestedNoCurrent "/src/a/b/util.c")))
  = Some "/src/a/b/Makefile"%string.
Proof. reflexivity. Qed.

Example select_outside_every_root :
  updateProjectForLocation nested "/tmp/scratch.c" = (false, nested).
Proof. reflexivity. Qed.

Lemma LongestFirst_nested :
  LongestFirst (mProjects nested) "/src/a/b/util.c" projAB.
Proof.
  exists 9, [projA], []. split; [reflexivity|]. split; [reflexivity|]. split.
  - intros it l Hit Hl. apply list_elem_of_singleton in Hit. subst it.
    vm_compute in Hl. inversion Hl. lia.
  - intros it l Hit. inversion Hit.
Qed.

(** C2, as stated, fails: with [/src/a/] and [/src/a/b/] registered and
    the first one current, a path under [/src/a/b/] has the second project
    as its longest-prefix match, yet the first one stays current. *)
Lemma current_project_sticks :
  ~ selectsLongest nested "/src/a/b/util.c".
Proof.
  intros H. specialize (H projAB LongestFirst_nested).
  vm_compute in H. discriminate H.
Qed.

(** C2 (amended): when the current project is registered and its srcRoot
    is a non-empty prefix of the path, selection leaves it current;
    otherwise the project whose non-empty srcRoot or resolvedSrcRoot is the
    longest prefix of the path becomes current, the first one in the
    registry's iteration order on ties; when no root is a prefix, the
    current project is unchanged and the result is false. *)
Theorem updateProjectForLocation_sticky_longest (s : Server) (p : string) :
  (currentCovers s p /\ updateProjectForLocation s p = (true, s))
  \/ (~ currentCovers s p /\ noMatch (mProjects s) p /\
      updateProjectForLocation s p = (false, s))
  \/ (~ currentCovers s p /\
      exists best,
        LongestFirst (mProjects s) p best /\
        fst (updateProjectForLocation s p) = true /\
        mCurrentProject (snd (updateProjectForLocation s p)) = Some best /\
        mProjects (snd (updateProjectForLocation s p)) = mProjects s).
Proof.
  assert (H0 : scanned [] p None (-1)).
  { split; [reflexivity|]. intros it Hit. inversion Hit. }
  pose proof (scanProjects_scanned p (mCurrentProject s) (mProjects s) [] None (-1) H0) as H.
  unfold updateProjectForLocation.
  destruct (scanProjects (mProjects s) (mCurrentProject s) p None (-1))
    as [[found longest]|].
  - destruct H as [Hs Hn]. cbn [app] in Hs.
    assert (Hnc : ~ currentCovers s p).
    { intros (it & Hit & A & B). apply (Hn it Hit). split; assumption. }
    destruct found as [best|]; cbn in Hs.
    + right. right. split; [exact Hnc|]. exists best.
      split; [exists longest; exact Hs|]. repeat split.
    + right. left. destruct Hs as [_ Hs]. repeat split; assumption.
  - left. destruct H as (it & Hit & A & B). split; [|reflexivity].
    exists it. repeat split; assumption.
Qed.

(** C10, as stated, fails: with no current project, an [IsIndexed] query
    on an existing, indexed file leaves the selected project current; and
    on the path that answers "1" the reply is written before the saved
    project is put back. *)
Lemma isIndexed_adopts_selection :
  ~ fileQueryKeepsCurrent twoFiles nestedNoCurrent "/src/a/b/util.c"
  /\ journal (isIndexed twoFiles nested "/src/a/main.c")
     = [EvWrite "1"; EvFinish; EvCurrent (Some "/src/a/Makefile")].
Proof.
  split; [|reflexivity].
  unfold fileQueryKeepsCurrent. intros H. specialize (H eq_refl).
  vm_compute in H. discriminate H.
Qed.

(** C10 (amended): for an [IsIndexed] query on an existing file the handler
    saves the current project before selection and puts it back before it
    returns when it is non-null, so a server that has a current project
    keeps it; a server without one keeps the project that selection made
    current (and nothing is selected when the file has no id).  For an
    existing directory the project selected during the lookup remains
    current.  The registry itself is never changed. *)
Theorem isIndexed_current_project (env : Env) (s : Server) (query : string) :
  mCurrentProject (isIndexed env s query) = currentAfterIsIndexed env s query
  /\ mProjects (isIndexed env s query) = mProjects s.
Proof.
  assert (Hp : mProjects (snd (updateProjectForLocation s query)) = mProjects s).
  { unfold updateProjectForLocation.
    destruct (scanProjects _ _ _ _ _) as [[[m|] l]|]; reflexivity. }
  unfold isIndexed, currentAfterIsIndexed.
  destruct (isFile env query).
  - destruct (N.eqb (fileId env query) 0); cbn [negb]; [split; reflexivity|].
    destruct (mCurrentProject (snd (updateProjectForLocation s query))) as [cur|] eqn:Ec.
    + destruct (isIndexedFile cur (fileId env query));
        destruct (mCurrentProject s) as [old|]; cbn; rewrite ?Ec; split; auto.
    + destruct (mCurrentProject s) as [old|]; cbn; rewrite ?Ec; split; auto.
  - destruct (isDir env query); [|split; reflexivity].
    destruct (mCurrentProject (snd (updateProjectForLocation s query))) as [cur|] eqn:Ec.
    + destruct (fileManagerContains cur query); cbn; rewrite ?Ec; split; auto.
    + cbn. rewrite Ec. split; auto.
Qed.

Lemma scanProjects_cur_independent (p : string) (cur cur' : option Project)
  (projs : list Project) :
  forall (found : option Project) (longest : Z) (r : option Project * Z),
    scanProjects projs cur p found longest = Some r ->
    scanProjects projs cur' p found longest = None
    \/ scanProjects projs cur' p found longest = Some r.
Proof.
  induction projs as [|it rest IH]; intros found longest r H; [right; exact H|].
  rewrite scanProjects_cons in H. rewrite scanProjects_cons.
  destruct (rootMatches (srcRoot it) p && sameProject it cur); [discriminate|].
  destruct (rootMatches (srcRoot it) p && sameProject it cur'); [left; reflexivity|].
  destruct (matchLen it p) as [l|]; [destruct (l >? longest)|]; apply IH; exact H.
Qed.

(** X3: selecting twice for the same path is the same as selecting once:
    the second call leaves the current project where the first one put
    it, and returns the same result. *)
Theorem updateProjectForLocation_idempotent (s : Server) (p : string) :
  let once := updateProjectForLocation s p in
  let twice := updateProjectForLocation (snd once) p in
  mCurrentProject (snd twice) = mCurrentProject (snd once)
  /\ fst twice = fst once
  /\ mProjects (snd twice) = mProjects s.
Proof.
  cbn zeta.
  assert (Hcase :
    updateProjectForLocation s p = (true, s)
    \/ updateProjectForLocation s p = (false, s)
    \/ exists m l, scanProjects (mProjects s) (mCurrentProject s) p None (-1)
                     = Some (Some m, l)
                   /\ updateProjectForLocation s p
                      = (true, snd (setCurrentProject s (Some m)))).
  { unfold updateProjectForLocation.
    destruct (scanProjects (mProjects s) (mCurrentProject s) p None (-1))
      as [[[m|] l]|] eqn:E; eauto 6. }
  destruct Hcase as [H|[H|(m & l & E & H)]].
  - rewrite H. cbn [fst snd]. rewrite H. repeat split.
  - rewrite H. cbn [fst snd]. rewrite H. repeat split.
  - rewrite H. cbn [fst snd setCurrentProject]. unfold updateProjectForLocation.
    cbn [mProjects mCurrentProject].
    destruct (scanProjects_cur_independent p _ (Some m) _ _ _ _ E) as [E'|E'];
      rewrite E'; cbn; repeat split.
Qed.

(** X4: [updateProjectForLocation] returns true exactly when some
    registered project has a non-empty root that is a prefix of the path;
    the current project is then such a project; when it returns false the
    server is unchanged. *)
Theorem updateProjectForLocation_result (s : Server) (p : string) :
  (fst (updateProjectForLocation s p) = true
   <-> exists it, it ∈ mProjects s /\ is_Some (matchLen it p))
  /\ (fst (updateProjectForLocation s p) = true ->
      exists it, it ∈ mProjects s /\ is_Some (matchLen it p)
                 /\ keyOf (mCurrentProject (snd (updateProjectForLocation s p)))
                    = Some (path it))
  /\ (fst (updateProjectForLocation s p) = false ->
      snd (updateProjectForLocation s p) = s).
Proof.
  assert (H0 : scanned [] p None (-1)).
  { split; [reflexivity|]. intros it Hit. inversion Hit. }
  pose proof (scanProjects_scanned p (mCurrentProject s) (mProjects s) [] None (-1) H0) as H.
  assert (Hcov : forall it, covers (mCurrentProject s) p it -> is_Some (matchLen it p)).
  { intros it [A _]. unfold matchLen. rewrite A.
    destruct (rootMatches (resolvedSrcRoot it) p); eauto. }
  unfold updateProjectForLocation.
  destruct (scanProjects (mProjects s) (mCurrentProject s) p None (-1))
    as [[[best|] longest]|]; cbn [fst snd].
  - destruct H as [(pre & post & Hs & Hm & _) _]. cbn [app] in Hs.
    assert (Hin : best ∈ mProjects s).
    { rewrite Hs. apply elem_of_app. right. left. }
    split_and!.
    + split; [intros _|reflexivity]. exists best. rewrite Hm. eauto.
    + intros _. exists best. rewrite Hm. eauto.
    + discriminate.
  - destruct H as [[_ Hn] _]. cbn [app] in Hn. split_and!.
    + split; [discriminate|]. intros (it & Hit & [l Hl]). rewrite (Hn it Hit) in Hl.
      discriminate.
    + discriminate.
    + reflexivity.
  - destruct H as (it & Hit & Hc). split_and!.
    + split; [intros _|reflexivity]. exists it. split; [exact Hit | apply Hcov, Hc].
    + intros _. exists it. split; [exact Hit|]. split; [apply Hcov, Hc|].
      destruct Hc as [_ Hsame]. unfold sameProject in Hsame.
      destruct (mCurrentProject s) as [c|]; [|discriminate].
      apply String.eqb_eq in Hsame. cbn. congruence.
    + discriminate.
Qed.





End RegistryFacts.

Module LookupsFacts.
Import Lookups.

Lemma onConnectionDestroyed_lookup (s : Server) (o : positive) (jobId : Z) :
  mPendingLookups (onConnectionDestroyed s o) !! jobId
  = match mPendingLookups s !! jobId with
    | Some c => if decide (c = o) then None else Some c
    | None => None
    end.
Proof.
  cbn [onConnectionDestroyed mPendingLookups].
  destruct (mPendingLookups s !! jobId) as [c|] eqn:E.
  - destruct (decide (c = o)) as [->|Hne].
    + apply map_lookup_filter_None. right. intros x Hx. cbn. intros Hn.
      rewrite E in Hx. inversion Hx. subst x. apply Hn. reflexivity.
    + apply map_lookup_filter_Some. split; [exact E | exact Hne].
  - apply map_lookup_filter_None. left. exact E.
Qed.

(** C6, as stated, fails: connection 1 is destroyed while job 7 is pending
    on it; in the next turn of the event loop only job 8 reports output,
    and job 7 has not been aborted. *)
Lemma no_abort_without_output :
  ~ abortedWithinOneIteration twoClients 1%positive [outputOf8].
Proof.
  intros H. destruct (H 7 eq_refl) as (s' & Hs & Hin).
  vm_compute in Hs. inversion Hs. subst s'. cbn in Hin.
  apply elem_of_empty in Hin. exact Hin.
Qed.

(** C6 (amended): destroying a connection removes exactly the
    pending-lookup entries whose value is that connection and aborts
    nothing by itself; the job of a removed entry is aborted when the
    event loop next handles an output event of that job. *)
Theorem onConnectionDestroyed_purges (s : Server) (o : positive) :
  let s' := onConnectionDestroyed s o in
  (forall jobId : Z,
     mPendingLookups s' !! jobId
     = match mPendingLookups s !! jobId with
       | Some c => if decide (c = o) then None else Some c
       | None => None
       end)
  /\ aborted s' = aborted s
  /\ (forall e : JobOutputEvent,
        mPendingLookups s !! id e = Some o -> job e = Some (id e) ->
        exists s'', event s' (JobOutput e) = Some s''
                    /\ id e ∈ aborted s''
                    /\ connections s'' = connections s).
Proof.
  intros s'. split; [intros jobId; apply onConnectionDestroyed_lookup|].
  split; [reflexivity|].
  intros e Hp Hj. exists (abortJob s' e).
  assert (Hnone : mPendingLookups s' !! id e = None).
  { unfold s'. rewrite onConnectionDestroyed_lookup, Hp.
    destruct (decide (o = o)); [reflexivity | congruence]. }
  split.
  - cbn [event]. unfold jobOutput. rewrite Hnone. reflexivity.
  - unfold abortJob. rewrite Hj. cbn. split; [set_solver | reflexivity].
Qed.

Lemma event_table (s s' : Server) (ev : Event) :
  event s ev = Some s' ->
  mPendingLookups s' = mPendingLookups s
  /\ aborted s ⊆ aborted s'
  /\ aborted s' ⊆ aborted s ∪ jobsOf [ev]
  /\ (tableLive s -> tableLive s').
Proof.
  assert (Ab : forall e, mPendingLookups (abortJob s e) = mPendingLookups s
                         /\ aborted s ⊆ aborted (abortJob s e)
                         /\ aborted (abortJob s e) ⊆ aborted s ∪ jobsOf [JobOutput e]
                         /\ (tableLive s -> tableLive (abortJob s e))).
  { intros e. unfold abortJob. cbn [jobsOf]. destruct (job e); cbn.
    - split_and!; [reflexivity | set_solver | set_solver | auto].
    - split_and!; [reflexivity | set_solver | set_solver | auto]. }
  destruct ev as [e| |]; cbn [event].
  - unfold jobOutput. destruct (mPendingLookups s !! id e) as [c|] eqn:Ep.
    + destruct (connections s !! c) as [conn|] eqn:Ec; [|discriminate].
      destruct (negb (isConnected conn)); [intros H; inversion H; apply Ab|].
      destruct (negb (isEmpty (out e)) && negb (writable conn));
        [intros H; inversion H; apply Ab|].
      intros H. inversion H. subst s'. cbn.
      split_and!; [reflexivity | set_solver | set_solver |].
      intros Hl j c' Hj. cbn in *. destruct (decide (c' = c)) as [->|Hne].
      * rewrite lookup_insert_eq. eauto.
      * rewrite lookup_insert_ne by congruence. eapply Hl; eauto.
    + intros H. inversion H. apply Ab.
  - intros H. inversion H. subst. split_and!; [reflexivity | set_solver | set_solver | auto].
  - intros H. inversion H. subst. split_and!; [reflexivity | set_solver | set_solver | auto].
Qed.

Lemma jobsOf_cons (ev : Event) (evs : list Event) :
  jobsOf (ev :: evs) = jobsOf [ev] ∪ jobsOf evs.
Proof.
  destruct ev as [e| |]; cbn [jobsOf]; [destruct (job e)|..]; set_solver.
Qed.

(** X7: handling output events never changes the pending-lookups table,
    not even for an event that carries [finish]; and the only jobs the
    loop aborts are jobs of the events it handles. *)
Theorem loopIteration_keeps_table (evs : list Event) :
  forall s s' : Server,
    loopIteration s evs = Some s' ->
    mPendingLookups s' = mPendingLookups s
    /\ aborted s ⊆ aborted s'
    /\ aborted s' ⊆ aborted s ∪ jobsOf evs.
Proof.
  induction evs as [|ev evs IH]; intros s s' H.
  - inversion H. subst. split_and!; [reflexivity | set_solver | set_solver].
  - cbn [loopIteration] in H. destruct (event s ev) as [s1|] eqn:E; [|discriminate].
    destruct (event_table _ _ _ E) as (A & B & C & _).
    destruct (IH _ _ H) as (A' & B' & C').
    rewrite jobsOf_cons. split_and!; [congruence | set_solver | set_solver].
Qed.

Lemma loopIteration_keeps_table_witness :
  loopIteration twoClients [outputOf8] = Some twoClientsAfterOutput
  /\ mPendingLookups twoClientsAfterOutput = mPendingLookups twoClients.
Proof.
  assert (A : loopIteration twoClients [outputOf8] = Some twoClientsAfterOutput)
    by reflexivity.
  split; [exact A|].
  apply (loopIteration_keeps_table [outputOf8] twoClients twoClientsAfterOutput A).
Defined.

Lemma event_live (s : Server) (ev : Event) :
  tableLive s -> is_Some (event s ev).
Proof.
  intros Hl. destruct ev as [e| |]; cbn [event]; eauto.
  unfold jobOutput. destruct (mPendingLookups s !! id e) as [c|] eqn:Ep; [|eauto].
  destruct (Hl _ _ Ep) as [conn Ec]. rewrite Ec.
  destruct (negb (isConnected conn)); [eauto|].
  destruct (negb (isEmpty (out e)) && negb (writable conn)); eauto.
Qed.

Lemma loopIteration_live (evs : list Event) :
  forall s : Server, tableLive s -> is_Some (loopIteration s evs).
Proof.
  induction evs as [|ev evs IH]; intros s Hl; [cbn; eauto|].
  cbn [loopIteration]. destruct (event_live s ev Hl) as [s1 E]. rewrite E.
  apply IH. apply (event_table _ _ _ E). exact Hl.
Qed.

(** A table entry that outlives its connection makes the next output
    event of that job touch a deleted object. *)
Example dangling_entry_is_dereferenced :
  event {| mPendingLookups := {[ 7 := 1%positive ]}; connections := ∅; aborted := ∅ |}
        (JobOutput {| id := 7; job := Some 7; out := "x"; finish := false |})
  = None.
Proof. reflexivity. Qed.

(** X8: the purge is what keeps the loop off deleted connections: if every
    table entry other than those of the connection being deleted names an
    existing connection, then after the deletion every queue of events is
    handled without touching a connection that does not exist. *)
Theorem destroyConnection_keeps_loop_safe (s : Server) (o : positive)
  (evs : list Event) :
  (forall (jobId : Z) (c : positive),
     mPendingLookups s !! jobId = Some c -> c <> o -> is_Some (connections s !! c)) ->
  tableLive (destroyConnection s o)
  /\ is_Some (loopIteration (destroyConnection s o) evs).
Proof.
  intros H.
  assert (Hl : tableLive (destroyConnection s o)).
  { intros j c Hj. unfold destroyConnection in *. cbn [mPendingLookups connections] in *.
    rewrite onConnectionDestroyed_lookup in Hj.
    destruct (mPendingLookups s !! j) as [c'|] eqn:E; [|discriminate].
    destruct (decide (c' = o)); [discriminate|]. inversion Hj. subst c'.
    rewrite lookup_delete_ne by congruence. apply (H j c E). assumption. }
  split; [exact Hl | apply loopIteration_live; exact Hl].
Qed.

Lemma destroyConnection_witness :
  (forall (jobId : Z) (c : positive),
     mPendingLookups twoClients !! jobId = Some c -> c <> 1%positive ->
     is_Some (connections twoClients !! c)) /\
  is_Some (loopIteration (destroyConnection twoClients 1%positive) [outputOf8]).
Proof.
  assert (A : forall (jobId : Z) (c : positive),
             mPendingLookups twoClients !! jobId = Some c -> c <> 1%positive ->
             is_Some (connections twoClients !! c)).
  { intros j c Hj Hc. unfold twoClients in *. cbn [mPendingLookups connections] in *.
    destruct (decide (j = 7)) as [->|H7].
    - rewrite lookup_insert_eq in Hj. inversion Hj. congruence.
    - rewrite lookup_insert_ne in Hj by congruence.
      destruct (decide (j = 8)) as [->|H8].
      + rewrite lookup_singleton_eq in Hj. inversion Hj. subst c.
        exists liveConnection. reflexivity.
      + rewrite lookup_singleton_ne in Hj by congruence. discriminate. }
  split; [exact A|].
  apply (destroyConnection_keeps_loop_safe twoClients 1%positive [outputOf8] A).
Defined.

(** X18: a findFile query with a current project that has a file manager
    takes the next id of [nextId], which is not 0, and files the
    connection under it: whatever was filed under that id before is
    replaced, and every other entry of the table is left alone.  An output
    event with that id then reaches this connection: its text, if any, is
    written to it, it is finished if the event says so, and no job is
    aborted.  Without such a project no id is used: the connection is
    finished right away and the table is left as it is. *)
Theorem findFile_output_reaches_client (mJobId : Z) (s : Server) (conn : positive)
  (c : Connection) (e : JobOutputEvent) :
  connections s !! conn = Some c -> isConnected c = true -> writable c = true ->
  (exists (jobId : Z) (s' : Server),
     jobId = fst (JobId.nextId mJobId)
     /\ findFile true mJobId s conn = Some (Some jobId, jobId, s')
     /\ jobId <> 0
     /\ mPendingLookups s' !! jobId = Some conn
     /\ (forall k, k <> jobId -> mPendingLookups s' !! k = mPendingLookups s !! k)
     /\ connections s' = connections s
     /\ (id e = jobId ->
         exists s'', event s' (JobOutput e) = Some s''
           /\ connections s'' !! conn
              = Some {| isConnected := true; writable := true;
                        written := if isEmpty (out e) then written c
                                   else (written c ++ [out e])%list;
                        finished := finish e || finished c |}
           /\ (forall c', c' <> conn -> connections s'' !! c' = connections s !! c')
           /\ mPendingLookups s'' = mPendingLookups s'
           /\ aborted s'' = aborted s))
  /\ (exists s', findFile false mJobId s conn = Some (None, mJobId, s')
        /\ mPendingLookups s' = mPendingLookups s
        /\ (finished <$> connections s' !! conn) = Some true).
Proof.
  intros Hc Hi Hw. split.
  - unfold findFile. cbn [negb].
    pose proof (JobIdFacts.nextId_nonzero mJobId) as Hz.
    pose proof (JobIdFacts.nextId_fst_snd mJobId) as Hp.
    destruct (JobId.nextId mJobId) as [jobId m]. cbn [fst snd] in Hz, Hp. subst m.
    exists jobId. eexists. split; [reflexivity|]. split; [reflexivity|].
    cbn [mPendingLookups connections aborted].
    split; [exact Hz|]. split; [apply lookup_insert_eq|].
    split; [intros k Hk; apply lookup_insert_ne; congruence|].
    split; [reflexivity|].
    intros He. unfold event, jobOutput. cbn [mPendingLookups connections].
    rewrite He, lookup_insert_eq, Hc, Hi, Hw. cbn [negb andb].
    rewrite andb_false_r.
    eexists. split; [reflexivity|]. unfold setConnection.
    cbn [mPendingLookups connections aborted]. rewrite lookup_insert_eq.
    split; [|split; [|split; reflexivity]].
    + destruct c as [ic wr wn fi]. cbn in Hi, Hw. subst ic wr. cbn.
      destruct (isEmpty (out e)), (finish e); reflexivity.
    + intros c' Hc'. apply lookup_insert_ne. congruence.
  - unfold findFile, finishConnection. cbn [negb]. rewrite Hc.
    eexists. split; [reflexivity|]. unfold setConnection.
    cbn [mPendingLookups connections]. rewrite lookup_insert_eq. split; reflexivity.
Qed.

Lemma findFile_output_witness :
  connections twoClients !! 1%positive = Some liveConnection
  /\ exists s' s'',
       findFile true 8 twoClients 1%positive = Some (Some 9, 9, s')
       /\ mPendingLookups s' !! 9 = Some 1%positive
       /\ mPendingLookups s' !! 7 = Some 1%positive
       /\ mPendingLookups s' !! 8 = Some 2%positive
       /\ event s' (JobOutput {| id := 9; job := Some 9; out := "a.c"; finish := true |})
          = Some s''
       /\ connections s'' !! 1%positive
          = Some {| isConnected := true; writable := true;
                    written := ["a.c"%string]; finished := true |}
       /\ aborted s'' = ∅.
Proof.
  split; [reflexivity|].
  destruct (findFile_output_reaches_client 8 twoClients 1%positive liveConnection
              {| id := 9; job := Some 9; out := "a.c"; finish := true |}
              eq_refl eq_refl eq_refl)
    as [(jobId & s' & Hj & Hf & _ & Hn & Ho & _ & He) _].
  vm_compute in Hj. subst jobId.
  destruct (He eq_refl) as (s'' & E1 & E2 & _ & _ & E3).
  exists s', s''. split; [exact Hf|]. split; [exact Hn|].
  split; [rewrite (Ho 7) by discriminate; reflexivity|].
  split; [rewrite (Ho 8) by discriminate; reflexivity|].
  split; [exact E1|]. split; [exact E2 | exact E3].
Defined.

(** The id is the counter's next value whether or not a job is still
    pending under it: with [mJobId] at 7, the query of connection 1 takes
    id 8 from the job that connection 2 is waiting for, and the output of
    that job goes to connection 1. *)
Example findFile_takes_over_pending_id :
  mPendingLookups twoClients !! 8 = Some 2%positive
  /\ match findFile true 7 twoClients 1%positive with
     | Some (jobId, _, s') =>
         jobId = Some 8
         /\ mPendingLookups s' !! 8 = Some 1%positive
         /\ match event s' outputOf8 with
            | Some s'' =>
                (written <$> connections s'' !! 1%positive) = Some ["main.c:3:1"%string]
                /\ (written <$> connections s'' !! 2%positive) = Some []
            | None => False
            end
     | None => False
     end.
Proof. split; [reflexivity|]. vm_compute. split_and!; reflexivity. Qed.

End LookupsFacts.

Module PersistFacts.
Import Persist.

Lemma armedFor_lookup (s : Server) (ix : N) (id : Z) (x : Z * N) :
  armedFor s ix !! id = Some x <-> timers (loop s) !! id = Some x /\ snd x = ix.
Proof.
  unfold armedFor. rewrite map_lookup_filter_Some. cbn. tauto.
Qed.

Lemma armedFor_empty (s : Server) (ix : N) :
  armedFor s ix = ∅ <-> forall id iv, timers (loop s) !! id <> Some (iv, ix).
Proof.
  rewrite map_empty. split.
  - intros H id iv E. specialize (H id).
    assert (A : armedFor s ix !! id = Some (iv, ix)) by (apply armedFor_lookup; auto).
    congruence.
  - intros H id. destruct (armedFor s ix !! id) as [[iv ix']|] eqn:E; [|reflexivity].
    apply armedFor_lookup in E as [E1 E2]. cbn in E2. subst ix'.
    destruct (H id iv E1).
Qed.

(** What [take] followed by [removeTimer] achieves on a state in which
    every timer is recorded. *)
Lemma disarm_recorded (s : Server) (ix : N) :
  timersRecorded s ->
  timersRecorded (disarm s ix)
  /\ armedFor (disarm s ix) ix = ∅
  /\ mSaveTimers (disarm s ix) !! ix = None
  /\ nextTimer (loop (disarm s ix)) = nextTimer (loop s)
  /\ (forall id x, timers (loop (disarm s ix)) !! id = Some x ->
                   timers (loop s) !! id = Some x)
  /\ mProjects (disarm s ix) = mProjects s
  /\ files (disarm s ix) = files s.
Proof.
  intros [Hrec Hnext]. unfold disarm, take.
  destruct (mSaveTimers s !! ix) as [id|] eqn:Em.
  - assert (Hid : forall id' iv, timers (loop s) !! id' = Some (iv, ix) -> id' = id /\ 0 <= id).
    { intros id' iv E. destruct (Hrec _ _ _ E) as [A B]. rewrite Em in A.
      inversion A. subst. split; [reflexivity | lia]. }
    cbn [andb].
    destruct (id =? -1) eqn:Eid; cbn [negb].
    + (* a recorded -1 can stand for no timer at all *)
      assert (Hno : forall id' iv, timers (loop s) !! id' <> Some (iv, ix)).
      { intros id' iv E. destruct (Hid _ _ E). lia. }
      split_and!; cbn; auto.
      * split; [|exact Hnext]. cbn. intros id' iv ix' E.
        destruct (Hrec _ _ _ E) as [A B]. split; [|exact B].
        destruct (decide (ix' = ix)) as [->|Hne]; [destruct (Hno _ _ E)|].
        rewrite lookup_delete_ne by congruence. exact A.
      * apply armedFor_empty. exact Hno.
      * apply lookup_delete_eq.
    + split_and!; cbn; auto.
      * split; [|exact Hnext]. cbn. intros id' iv ix' E.
        destruct (decide (id' = id)) as [->|Hne]; [rewrite lookup_delete_eq in E; discriminate|].
        rewrite lookup_delete_ne in E by congruence.
        destruct (Hrec _ _ _ E) as [A B]. split; [|exact B].
        destruct (decide (ix' = ix)) as [->|Hnx]; [destruct (Hid _ _ E); congruence|].
        rewrite lookup_delete_ne by congruence. exact A.
      * apply armedFor_empty. cbn. intros id' iv E.
        destruct (decide (id' = id)) as [->|Hne]; [rewrite lookup_delete_eq in E; discriminate|].
        rewrite lookup_delete_ne in E by congruence.
        destruct (Hid _ _ E). congruence.
      * apply lookup_delete_eq.
      * intros id' x E.
        destruct (decide (id' = id)) as [->|Hne]; [rewrite lookup_delete_eq in E; discriminate|].
        rewrite lookup_delete_ne in E by congruence. exact E.
  - split_and!; cbn; auto.
    + split; assumption.
    + apply armedFor_empty. intros id iv E. destruct (Hrec _ _ _ E) as [A _]. congruence.
Qed.

Lemma onJobsComplete_recorded (s : Server) (ix : N) (count : Z) :
  timersRecorded s -> timersRecorded (onJobsComplete s ix count).
Proof.
  intros H. unfold onJobsComplete.
  destruct (disarm_recorded s ix H) as ([Hrec Hnext] & Hemp & Hnone & Hn & Hsub & _).
  destruct (count =? 0); cbn [negb]; [split; assumption|].
  unfold timersRecorded, addTimer. cbn [loop timers nextTimer mSaveTimers].
  split; [|lia].
  intros id iv ix' E.
  destruct (decide (id = nextTimer (loop (disarm s ix)))) as [->|Hne].
  - rewrite lookup_insert_eq in E. inversion E. subst.
    rewrite lookup_insert_eq. split; [reflexivity | lia].
  - rewrite lookup_insert_ne in E by congruence.
    destruct (Hrec _ _ _ E) as [A B]. split; [|lia].
    destruct (decide (ix' = ix)) as [->|Hnx].
    + rewrite armedFor_empty in Hemp. destruct (Hemp _ _ E).
    + rewrite lookup_insert_ne by congruence. exact A.
Qed.

Lemma fire_recorded (env : Env) (s s' : Server) (id : Z) :
  timersRecorded s -> fire env s id = Some s' -> timersRecorded s'.
Proof.
  intros [Hrec Hnext] Hf. unfold fire in Hf.
  destruct (timers (loop s) !! id) as [[iv ix]|]; [|discriminate].
  inversion Hf. subst s'. split; [|exact Hnext].
  intros id' iv' ix' E. cbn in E |- *.
  destruct (decide (id' = id)) as [->|Hne]; [rewrite lookup_delete_eq in E; discriminate|].
  rewrite lookup_delete_ne in E by congruence. apply (Hrec _ _ _ E).
Qed.

Lemma reachable_recorded (env : Env) (s : Server) :
  reachable env s -> timersRecorded s.
Proof.
  induction 1 as [projs fs n Hn | s ix count _ IH | s ix path _ IH | s id s' _ IH Hf].
  - split; [|exact Hn]. intros id iv ix E. cbn in E. rewrite lookup_empty in E. discriminate.
  - apply onJobsComplete_recorded. exact IH.
  - apply (disarm_recorded s ix IH).
  - eapply fire_recorded; eauto.
Qed.

(** C9: [jobsComplete(indexer, N)] with [N > 0] leaves exactly one timer
    armed for the indexer, a new one of 5000 ms that replaces any earlier
    one; [jobStarted] for the indexer, or [jobsComplete] with [N = 0],
    leaves no timer armed for it, right after the arming event as well as
    in any later state; and a timer that fires is gone, so it fires once. *)
Theorem save_timer_armed_then_disarmed (env : Env) (s : Server) (ix : N) (n : Z)
  (path : string) :
  reachable env s -> 0 < n ->
  (exists id : Z,
     timers (loop s) !! id = None /\
     mSaveTimers (onJobsComplete s ix n) !! ix = Some id /\
     armedFor (onJobsComplete s ix n) ix = {[ id := (SaveTimerInterval, ix) ]})
  /\ armedFor (onJobStarted (onJobsComplete s ix n) ix path) ix = ∅
  /\ armedFor (onJobsComplete (onJobsComplete s ix n) ix 0) ix = ∅
  /\ armedFor (onJobStarted s ix path) ix = ∅
  /\ armedFor (onJobsComplete s ix 0) ix = ∅
  /\ (forall id s', fire env (onJobsComplete s ix n) id = Some s' ->
                    timers (loop s') !! id = None).
Proof.
  intros Hreach Hn.
  pose proof (reachable_recorded env s Hreach) as Hrec.
  assert (Hrec1 : timersRecorded (onJobsComplete s ix n))
    by (apply onJobsComplete_recorded; exact Hrec).
  split_and!.
  - destruct (disarm_recorded s ix Hrec) as ([Hr Hnx] & Hemp & Hnone & Hnext & Hsub & _).
    exists (nextTimer (loop s)). split_and!.
    + destruct (timers (loop s) !! nextTimer (loop s)) as [[iv ix']|] eqn:E; [|reflexivity].
      destruct Hrec as [Hrec _]. destruct (Hrec _ _ _ E). lia.
    + unfold onJobsComplete. replace (n =? 0) with false by lia. cbn [negb].
      unfold addTimer. cbn [mSaveTimers]. rewrite Hnext. apply lookup_insert_eq.
    + unfold onJobsComplete. replace (n =? 0) with false by lia. cbn [negb].
      apply map_eq. intros id.
      destruct (decide (id = nextTimer (loop s))) as [->|Hne].
      * rewrite lookup_singleton_eq. apply armedFor_lookup.
        unfold addTimer. cbn [loop timers snd]. rewrite Hnext, lookup_insert_eq.
        split; reflexivity.
      * rewrite lookup_singleton_ne by congruence.
        match goal with |- ?m !! id = None => destruct (m !! id) as [[iv ix']|] eqn:E end;
          [|reflexivity].
        apply armedFor_lookup in E as [E1 E2]. cbn in E2. subst ix'.
        unfold addTimer in E1. cbn [loop timers] in E1.
        rewrite Hnext, lookup_insert_ne in E1 by congruence.
        rewrite armedFor_empty in Hemp. destruct (Hemp _ _ E1).
  - apply (disarm_recorded _ ix Hrec1).
  - unfold onJobsComplete at 1. cbn [Z.eqb negb]. apply (disarm_recorded _ ix Hrec1).
  - apply (disarm_recorded _ ix Hrec).
  - unfold onJobsComplete. cbn [Z.eqb negb]. apply (disarm_recorded _ ix Hrec).
  - intros id s' Hf. unfold fire in Hf.
    destruct (timers (loop (onJobsComplete s ix n)) !! id) as [[iv ix']|]; [|discriminate].
    inversion Hf. cbn. apply lookup_delete_eq.
Qed.

(** The theorem at work: an idle server, indexer 1, three finished jobs. *)
Lemma save_timer_witness :
  reachable dataEnv idleServer /\ 0 < 3 /\
  armedFor (onJobStarted (onJobsComplete idleServer 1%N 3) 1%N "/src/a/main.c") 1%N = ∅.
Proof.
  assert (R : reachable dataEnv idleServer) by (apply reach_init; lia).
  assert (P : 0 < 3) by lia.
  split; [exact R|]. split; [exact P|].
  apply (save_timer_armed_then_disarmed dataEnv idleServer 1%N 3 "/src/a/main.c" R P).
Defined.

Lemma int32Bytes_length (v : Z) : length (int32Bytes v) = 4%nat.
Proof. reflexivity. Qed.

Lemma fwrite_insert (fs : gmap string (list Z)) (p : string) (old bytes : list Z) :
  fwrite (<[ p := old ]> fs) p bytes = <[ p := old ++ bytes ]> fs.
Proof. unfold fwrite. exact (alter_insert_eq fs p (fun o => o ++ bytes) old). Qed.

Lemma saveProjects_written (env : Env) (projs : list Project) (ix : N) :
  forall fs : gmap string (list Z),
  saveProjects env fs projs ix
  = match projectOf projs ix with
    | Some it =>
        if canOpen env (blobPath env it)
        then <[ blobPath env it := writtenBlob env it ]> fs
        else fs
    | None => fs
    end.
Proof.
  induction projs as [|it rest IH]; intros fs; [reflexivity|].
  cbn [saveProjects projectOf List.find].
  destruct (sameIndexer (indexer it) ix); cbn [negb]; [|apply IH].
  fold (blobPath env it).
  destruct (canOpen env (blobPath env it)); cbn [negb]; [|reflexivity].
  unfold fopenW, writtenBlob. rewrite !fwrite_insert. cbn [app].
  destruct (snd (projectSave it)); cbn [negb].
  - rewrite <- app_assoc. reflexivity.
  - rewrite app_nil_r. reflexivity.
Qed.

Lemma saveFiles_written (env : Env) (fs : gmap string (list Z)) (projs : list Project)
  (ix : N) :
  mkdirOk env = true -> canOpen env (fileidsPath env) = true ->
  saveFiles env fs projs ix
  = saveProjects env
      (<[ fileidsPath env := int32Bytes (DatabaseVersion env) ++ pathsToIds env ]> fs)
      projs ix.
Proof.
  intros Hm Ho. unfold saveFiles. fold (fileidsPath env). rewrite Hm, Ho. cbn [negb].
  unfold fopenW. rewrite !fwrite_insert. reflexivity.
Qed.

(** C7, as stated, fails: the blob is opened for writing at its own path,
    so when [Project::save] fails the blob of the earlier save is gone and
    only the version is left: neither the old blob nor a complete new one. *)
Lemma failed_save_truncates_blob :
  ~ blobReplacedAtomically dataEnv savedBefore 1%N.
Proof.
  intros H. specialize (H failingProject eq_refl).
  vm_compute in H. destruct H as [H|H]; discriminate H.
Qed.

(** C7 (amended): when the save timer fires (and the data directory and
    the paths blob can be opened) the timer is removed, the global paths
    blob [fileids] is rewritten, and the blob of the indexer's project is
    written in place, at its own path, with no temporary file and no
    rename: no other file changes.  Each written blob begins with the four
    bytes of the schema version; the project blob is cut short when
    [Project::save] fails. *)
Theorem fire_saves_in_place (env : Env) (s : Server) (id iv : Z) (ix : N) :
  timers (loop s) !! id = Some (iv, ix) ->
  mkdirOk env = true ->
  canOpen env (fileidsPath env) = true ->
  exists s',
    fire env s id = Some s' /\
    timers (loop s') !! id = None /\
    (exists rest,
       files s' !! fileidsPath env = Some (int32Bytes (DatabaseVersion env) ++ rest)) /\
    ((forall it, projectOf (mProjects s) ix = Some it ->
                 blobPath env it <> fileidsPath env) ->
     files s' !! fileidsPath env
     = Some (int32Bytes (DatabaseVersion env) ++ pathsToIds env)) /\
    (forall it, projectOf (mProjects s) ix = Some it ->
                canOpen env (blobPath env it) = true ->
       files s' !! blobPath env it
       = Some (int32Bytes (DatabaseVersion env)
               ++ fst (projectSave it)
               ++ (if snd (projectSave it) then fst (indexerSave it) else []))) /\
    (forall p, p <> fileidsPath env ->
               (forall it, projectOf (mProjects s) ix = Some it -> p <> blobPath env it) ->
       files s' !! p = files s !! p).
Proof.
  intros Ht Hm Ho. unfold fire. rewrite Ht. eexists. split; [reflexivity|].
  unfold saveTimerCallback, save. cbn [loop files mProjects removeTimer timers].
  rewrite (saveFiles_written env _ _ _ Hm Ho), saveProjects_written.
  split; [apply lookup_delete_eq|].
  destruct (projectOf (mProjects s) ix) as [it|] eqn:Ep.
  - destruct (canOpen env (blobPath env it)) eqn:Eo.
    + split_and!.
      * destruct (decide (blobPath env it = fileidsPath env)) as [E|E].
        -- rewrite E, lookup_insert_eq. unfold writtenBlob. eexists. reflexivity.
        -- rewrite lookup_insert_ne, lookup_insert_eq by congruence. eexists. reflexivity.
      * intros Hne. specialize (Hne it eq_refl).
        rewrite lookup_insert_ne, lookup_insert_eq by congruence. reflexivity.
      * intros it' E _. inversion E. subst it'. rewrite lookup_insert_eq. reflexivity.
      * intros p Hp Hb. specialize (Hb it eq_refl).
        rewrite !lookup_insert_ne by congruence. reflexivity.
    + split_and!.
      * rewrite lookup_insert_eq. eexists. reflexivity.
      * intros _. rewrite lookup_insert_eq. reflexivity.
      * intros it' E Ho'. inversion E. subst it'. congruence.
      * intros p Hp _. rewrite lookup_insert_ne by congruence. reflexivity.
  - split_and!.
    + rewrite lookup_insert_eq. eexists. reflexivity.
    + intros _. rewrite lookup_insert_eq. reflexivity.
    + intros it E. discriminate E.
    + intros p Hp _. rewrite lookup_insert_ne by congruence. reflexivity.
Qed.

(** The theorem at work: the timer armed by a burst of three jobs fires. *)
Lemma fire_saves_witness :
  timers (loop afterBurst) !! 0 = Some (5000, 1%N) /\
  mkdirOk dataEnv = true /\
  canOpen dataEnv (fileidsPath dataEnv) = true /\
  exists s', fire dataEnv afterBurst 0 = Some s' /\
             files s' !! "/data/_src_a_Makefile"%string = Some [10; 0; 0; 0; 5; 6; 7].
Proof.
  assert (A : timers (loop afterBurst) !! 0 = Some (5000, 1%N)) by reflexivity.
  assert (B : mkdirOk dataEnv = true) by reflexivity.
  assert (C : canOpen dataEnv (fileidsPath dataEnv) = true) by reflexivity.
  split; [exact A|]. split; [exact B|]. split; [exact C|].
  destruct (fire_saves_in_place dataEnv afterBurst 0 5000 1%N A B C)
    as (s' & Hf & _ & _ & _ & Hb & _).
  exists s'. split; [exact Hf|].
  apply (Hb goodProject eq_refl eq_refl).
Defined.

Lemma reachable_interval (env : Env) (s : Server) :
  reachable env s ->
  forall id iv ix, timers (loop s) !! id = Some (iv, ix) -> iv = SaveTimerInterval.
Proof.
  induction 1 as [projs fs n Hn | s ix count Hr IH | s ix path Hr IH | s id s' Hr IH Hf];
    intros id' iv ix' E.
  - cbn in E. rewrite lookup_empty in E. discriminate.
  - pose proof (reachable_recorded env s Hr) as Hrec.
    destruct (disarm_recorded s ix Hrec) as (_ & _ & _ & _ & Hsub & _).
    unfold onJobsComplete in E. destruct (count =? 0); cbn [negb] in E.
    + eapply IH. apply Hsub. exact E.
    + unfold addTimer in E. cbn [loop timers] in E.
      destruct (decide (id' = nextTimer (loop (disarm s ix)))) as [->|Hne].
      * rewrite lookup_insert_eq in E. inversion E. reflexivity.
      * rewrite lookup_insert_ne in E by congruence. eapply IH. apply Hsub. exact E.
  - pose proof (reachable_recorded env s Hr) as Hrec.
    destruct (disarm_recorded s ix Hrec) as (_ & _ & _ & _ & Hsub & _).
    eapply IH. apply Hsub. exact E.
  - unfold fire in Hf. destruct (timers (loop s) !! id) as [[iv0 ix0]|]; [|discriminate].
    inversion Hf. subst s'. cbn in E.
    destruct (decide (id' = id)) as [->|Hne]; [rewrite lookup_delete_eq in E; discriminate|].
    rewrite lookup_delete_ne in E by congruence. eapply IH. exact E.
Qed.

(** X9: however the three handlers and the firing of timers interleave,
    an indexer never has two save timers armed at once, and every armed
    timer is a 5000 ms one. *)
Theorem at_most_one_save_timer (env : Env) (s : Server) (ix : N)
  (id1 id2 iv1 iv2 : Z) :
  reachable env s ->
  timers (loop s) !! id1 = Some (iv1, ix) ->
  timers (loop s) !! id2 = Some (iv2, ix) ->
  id1 = id2 /\ iv1 = SaveTimerInterval.
Proof.
  intros Hr E1 E2. destruct (reachable_recorded env s Hr) as [Hrec _].
  destruct (Hrec _ _ _ E1) as [A _]. destruct (Hrec _ _ _ E2) as [B _].
  split; [congruence | exact (reachable_interval env s Hr _ _ _ E1)].
Qed.

Lemma at_most_one_save_timer_witness :
  reachable dataEnv afterBurst /\
  timers (loop afterBurst) !! 0 = Some (5000, 1%N) /\
  0 = 0 /\ 5000 = SaveTimerInterval.
Proof.
  assert (R : reachable dataEnv afterBurst).
  { unfold afterBurst. apply reach_complete. apply reach_init. lia. }
  assert (T : timers (loop afterBurst) !! 0 = Some (5000, 1%N)) by reflexivity.
  split; [exact R|]. split; [exact T|].
  exact (at_most_one_save_timer dataEnv afterBurst 1%N 0 0 5000 5000 R T T).
Defined.

Lemma readInt32_int32Bytes (v : Z) (rest : list Z) :
  readInt32 (int32Bytes v ++ rest) = Some (JobId.wrap32 v, rest).
Proof.
  unfold int32Bytes, readInt32. cbn [app]. f_equal. f_equal.
  set (u := v mod 4294967296).
  assert (Hu : 0 <= u < 4294967296) by (apply Z.mod_pos_bound; lia).
  assert (E : u mod 256 + 256 * ((u / 256) mod 256) + 65536 * ((u / 65536) mod 256)
              + 16777216 * ((u / 16777216) mod 256) = u).
  { clearbody u. Z.to_euclidean_division_equations. lia. }
  rewrite E. unfold JobId.wrap32, u.
  rewrite Zplus_mod_idemp_l. reflexivity.
Qed.

(** X10: what [save] puts in the paths blob, [restore] gets back: after a
    save, a daemon built with the same schema version adopts exactly the
    serialized path table that was written, and a daemon built with
    another version ignores the file. *)
Theorem restore_after_save (env : Env) (s : Server) (ix : N) (v : Z) :
  mkdirOk env = true ->
  canOpen env (fileidsPath env) = true ->
  JobId.INT_MIN <= DatabaseVersion env <= JobId.INT_MAX ->
  (forall it, projectOf (mProjects s) ix = Some it ->
              blobPath env it <> fileidsPath env) ->
  restore (withVersion env v) (files (save env s ix))
  = if DatabaseVersion env =? v then Adopted (pathsToIds env) else Ignored.
Proof.
  intros Hm Ho Hv Hne. unfold save. cbn [files].
  rewrite (saveFiles_written env _ _ _ Hm Ho), saveProjects_written.
  unfold restore. change (fileidsPath (withVersion env v)) with (fileidsPath env).
  change (canOpen (withVersion env v)) with (canOpen env).
  change (DatabaseVersion (withVersion env v)) with v.
  assert (L : forall fs : gmap string (list Z),
            match projectOf (mProjects s) ix with
            | Some it =>
                if canOpen env (blobPath env it)
                then <[ blobPath env it := writtenBlob env it ]>
                       (<[ fileidsPath env :=
                           int32Bytes (DatabaseVersion env) ++ pathsToIds env ]> fs)
                else <[ fileidsPath env :=
                        int32Bytes (DatabaseVersion env) ++ pathsToIds env ]> fs
            | None => <[ fileidsPath env :=
                         int32Bytes (DatabaseVersion env) ++ pathsToIds env ]> fs
            end !! fileidsPath env
            = Some (int32Bytes (DatabaseVersion env) ++ pathsToIds env)).
  { intros fs. destruct (projectOf (mProjects s) ix) as [it|] eqn:Ep.
    - specialize (Hne it eq_refl). destruct (canOpen env (blobPath env it)).
      + rewrite lookup_insert_ne by congruence. apply lookup_insert_eq.
      + apply lookup_insert_eq.
    - apply lookup_insert_eq. }
  rewrite L, Ho. cbn [negb]. rewrite readInt32_int32Bytes.
  rewrite (JobIdFacts.wrap32_small _ Hv). reflexivity.
Qed.

Lemma restore_after_save_witness :
  mkdirOk dataEnv = true /\
  canOpen dataEnv (fileidsPath dataEnv) = true /\
  JobId.INT_MIN <= DatabaseVersion dataEnv <= JobId.INT_MAX /\
  (forall it, projectOf (mProjects idleServer) 1%N = Some it ->
              blobPath dataEnv it <> fileidsPath dataEnv) /\
  restore (withVersion dataEnv 10) (files (save dataEnv idleServer 1%N)) = Adopted [1; 2; 3].
Proof.
  assert (A : mkdirOk dataEnv = true) by reflexivity.
  assert (B : canOpen dataEnv (fileidsPath dataEnv) = true) by reflexivity.
  assert (C : JobId.INT_MIN <= DatabaseVersion dataEnv <= JobId.INT_MAX)
    by (vm_compute; split; discriminate).
  assert (D : forall it, projectOf (mProjects idleServer) 1%N = Some it ->
                         blobPath dataEnv it <> fileidsPath dataEnv).
  { intros it E. inversion E. subst it. vm_compute. discriminate. }
  split; [exact A|]. split; [exact B|]. split; [exact C|]. split; [exact D|].
  exact (restore_after_save dataEnv idleServer 1%N 10 A B C D).
Defined.

End PersistFacts.

Module SyncerFacts.
Import Syncer.

(** ** Symbol names *)

Lemma addTo_fst (c v : gset Location) : fst (addTo c v) = c ∪ v.
Proof. reflexivity. Qed.

Lemma addTo_grew (c v : gset Location) : snd (addTo c v) = true <-> ~ v ⊆ c.
Proof.
  unfold addTo. cbn [snd]. rewrite negb_true_iff, Nat.eqb_neq. split.
  - intros Hs Hsub. apply Hs. f_equal. set_solver.
  - intros Hn Hs. apply Hn.
    assert (E : c = c ∪ v).
    { apply set_subseteq_size_eq; [set_solver | lia]. }
    set_solver.
Qed.

Lemma fold_uniteAt_lookup (l : list (string * gset Location)) :
  forall (m : gmap string (gset Location)) (k : string),
    NoDup l.*1 ->
    default ∅ (fold_left uniteAt l m !! k)
    = default ∅ (m !! k) ∪ default ∅ ((list_to_map l : gmap string (gset Location)) !! k).
Proof.
  induction l as [|[k' v] l IH]; intros m k Hnd.
  - cbn. rewrite lookup_empty. cbn. set_solver.
  - cbn [fold_left]. inversion Hnd as [|? ? Hnotin Hnd']. subst.
    rewrite (IH _ _ Hnd'). unfold uniteAt. cbn [fst snd list_to_map foldr].
    destruct (decide (k = k')) as [->|Hne].
    + rewrite !lookup_insert_eq.
      rewrite (not_elem_of_list_to_map_1 l k') by exact Hnotin. cbn. set_solver.
    + rewrite !lookup_insert_ne by congruence. reflexivity.
Qed.

Lemma addSymbolNames_lookup (m locations : gmap string (gset Location)) (k : string) :
  default ∅ (addSymbolNames m locations !! k)
  = default ∅ (m !! k) ∪ default ∅ (locations !! k).
Proof.
  unfold addSymbolNames. destruct (decide (m = ∅)) as [->|Hne].
  - rewrite lookup_empty. cbn. set_solver.
  - rewrite fold_uniteAt_lookup by apply NoDup_fst_map_to_list.
    rewrite list_to_map_to_list. reflexivity.
Qed.

Lemma fold_addSymbolNames_lookup (calls : list (gmap string (gset Location))) :
  forall (acc : gmap string (gset Location)) (k : string),
    default ∅ (fold_left addSymbolNames calls acc !! k)
    = default ∅ (acc !! k) ∪ stagedUnion calls k.
Proof.
  induction calls as [|c calls IH]; intros acc k.
  - cbn. unfold stagedUnion. cbn. set_solver.
  - cbn [fold_left]. rewrite IH, addSymbolNames_lookup.
    unfold stagedUnion. cbn [List.map union_list foldr]. set_solver.
Qed.

(** The staging map holds, under every key, the union of what the calls
    staged for it. *)
Lemma staged_lookup (calls : list (gmap string (gset Location))) (k : string) :
  default ∅ (staged calls !! k) = stagedUnion calls k.
Proof.
  unfold staged. rewrite fold_addSymbolNames_lookup, lookup_empty. cbn. set_solver.
Qed.

Lemma fold_namesStep (db : gmap string (gset Location))
  (l : list (string * gset Location)) :
  forall (batch : list (string * gset Location)) (changed : bool),
    fold_left (namesStep db) l (batch, changed)
    = (batch ++ namesBatch db l,
       changed || negb (bool_decide (namesBatch db l = []))).
Proof.
  induction l as [|[k v] l IH]; intros batch changed.
  - cbn. rewrite app_nil_r, orb_false_r. reflexivity.
  - cbn [fold_left]. unfold namesStep at 2. cbn [fst snd].
    unfold namesBatch. cbn [omap list_omap fst snd]. fold (namesBatch db l).
    destruct (addTo (readNames db k) v) as [cur grew] eqn:E.
    assert (Ec : cur = readNames db k ∪ v) by (unfold addTo in E; congruence).
    cbn [snd]. destruct grew.
    + rewrite IH, <- app_assoc. subst cur. cbn. rewrite orb_true_r. reflexivity.
    + rewrite IH. reflexivity.
Qed.

Lemma namesBatch_keys (db : gmap string (gset Location))
  (l : list (string * gset Location)) (k : string) :
  k ∈ (namesBatch db l).*1 ->
  exists v, (k, v) ∈ l /\ snd (addTo (readNames db k) v) = true.
Proof.
  intros H. apply list_elem_of_fmap in H as ([k' x] & -> & Hx).
  apply list_elem_of_omap in Hx as ([k'' v] & Hin & Hf). cbn [fst snd] in Hf.
  destruct (snd (addTo (readNames db k'') v)) eqn:E; [|discriminate].
  inversion Hf. subst. exists v. split; assumption.
Qed.

Lemma namesBatch_NoDup (db : gmap string (gset Location))
  (l : list (string * gset Location)) :
  NoDup l.*1 -> NoDup (namesBatch db l).*1.
Proof.
  induction l as [|[k v] l IH]; intros Hnd; [constructor|].
  inversion Hnd as [|? ? Hnotin Hnd']. subst.
  unfold namesBatch. cbn [omap list_omap fst snd]. fold (namesBatch db l).
  destruct (snd (addTo (readNames db k) v)); [|auto].
  cbn. constructor; [|auto].
  intros Hin. apply namesBatch_keys in Hin as (v' & Hv' & _).
  apply Hnotin. apply list_elem_of_fmap. exists (k, v'). split; [reflexivity | exact Hv'].
Qed.

Lemma writeBatch_not_written {K} `{Countable K} {V} (batch : list (K * V)) :
  forall (db : gmap K V) (k : K),
    k ∉ batch.*1 -> writeBatch db batch !! k = db !! k.
Proof.
  induction batch as [|[k' v] batch IH]; intros db k Hn; [reflexivity|].
  cbn [writeBatch fold_left fst snd]. cbn in Hn.
  apply not_elem_of_cons in Hn as [Hne Hn].
  fold (writeBatch (<[k':=v]> db) batch). rewrite (IH _ _ Hn).
  apply lookup_insert_ne. congruence.
Qed.

Lemma writeBatch_written {K} `{Countable K} {V} (batch : list (K * V)) :
  forall (db : gmap K V) (k : K) (v : V),
    NoDup batch.*1 -> (k, v) ∈ batch -> writeBatch db batch !! k = Some v.
Proof.
  induction batch as [|[k' v'] batch IH]; intros db k v Hnd Hin; [inversion Hin|].
  cbn [writeBatch fold_left fst snd]. fold (writeBatch (<[k':=v']> db) batch).
  inversion Hnd as [|? ? Hnotin Hnd']. subst.
  apply elem_of_cons in Hin as [E|Hin].
  - inversion E. subst. rewrite writeBatch_not_written by exact Hnotin.
    apply lookup_insert_eq.
  - apply IH; assumption.
Qed.

(** ** References and symbols *)

Lemma extends_refl (a : CursorInfo) : extends a a.
Proof. split; [set_solver | auto]. Qed.

Lemma extends_trans (a b c : CursorInfo) : extends a b -> extends b c -> extends a c.
Proof. intros [A1 A2] [B1 B2]. split; [set_solver | auto]. Qed.

Lemma extends_addReferences (extra : gset Location) (ci : CursorInfo) :
  extends ci (addReferences extra ci).
Proof. split; cbn; [set_solver | auto]. Qed.

Lemma extends_setTarget (t : Location) (ci : CursorInfo) :
  isNull (target ci) = true -> extends ci (setTarget t ci).
Proof. intros Hn. split; cbn; [set_solver | congruence]. Qed.

Lemma grows_refl (m : gmap Location CursorInfo) : grows m m.
Proof. intros k ci E. exists ci. split; [exact E | apply extends_refl]. Qed.

Lemma grows_trans (m1 m2 m3 : gmap Location CursorInfo) :
  grows m1 m2 -> grows m2 m3 -> grows m1 m3.
Proof.
  intros H12 H23 k ci E. destruct (H12 _ _ E) as (ci2 & E2 & X2).
  destruct (H23 _ _ E2) as (ci3 & E3 & X3). exists ci3.
  split; [exact E3 | eapply extends_trans; eauto].
Qed.

Lemma grows_alter (f : CursorInfo -> CursorInfo) (k : Location)
  (m : gmap Location CursorInfo) :
  (forall ci, m !! k = Some ci -> extends ci (f ci)) -> grows m (alter f k m).
Proof.
  intros Hf k' ci E. destruct (decide (k' = k)) as [->|Hne].
  - exists (f ci). rewrite lookup_alter_eq, E. split; [reflexivity | auto].
  - exists ci. rewrite lookup_alter_ne by congruence. split; [exact E | apply extends_refl].
Qed.

Lemma grows_touch (k : Location) (m : gmap Location CursorInfo) : grows m (touch k m).
Proof.
  unfold touch. destruct (m !! k) eqn:E; [apply grows_refl|].
  intros k' ci E'. exists ci. split; [|apply extends_refl].
  rewrite lookup_insert_ne; [exact E' | congruence].
Qed.

Lemma touch_present (k : Location) (m : gmap Location CursorInfo) :
  is_Some (touch k m !! k).
Proof.
  unfold touch. destruct (m !! k) eqn:E; [rewrite E; eauto|].
  rewrite lookup_insert_eq. eauto.
Qed.

Lemma referenceInMemory_grows (m : gmap Location CursorInfo) (from to : Location)
  (k : ReferenceType) :
  grows m (referenceInMemory m from to k).
Proof.
  unfold referenceInMemory.
  set (m1 := alter (addReferences {[from]}) to m).
  assert (G1 : grows m m1).
  { apply grows_alter. intros. apply extends_addReferences. }
  destruct (isNormal k); cbn [negb]; [exact G1|].
  set (m2 := touch from m1).
  set (m3 := alter (addReferences (references (m2 !!! from))) to m2).
  set (m4 := alter (addReferences (references (m3 !!! to))) from m3).
  assert (G4 : grows m m4).
  { eapply grows_trans; [exact G1|]. eapply grows_trans; [apply grows_touch|].
    eapply grows_trans; apply grows_alter; intros; apply extends_addReferences. }
  destruct (isNull (target (m4 !!! from))) eqn:En; [|exact G4].
  eapply grows_trans; [exact G4|]. apply grows_alter. intros ci E.
  apply extends_setTarget. rewrite (lookup_total_correct _ _ _ E) in En. exact En.
Qed.

Lemma referenceInMemory_linked (m : gmap Location CursorInfo) (from to : Location)
  (k : ReferenceType) :
  is_Some (m !! to) -> isNormal k = false ->
  linked from to (referenceInMemory m from to k).
Proof.
  intros [ci0 E0] Hk. unfold referenceInMemory. rewrite Hk. cbn [negb].
  set (m1 := alter (addReferences {[from]}) to m).
  assert (E1 : exists c1, m1 !! to = Some c1 /\ from ∈ references c1).
  { exists (addReferences {[from]} ci0). unfold m1. rewrite lookup_alter_eq, E0.
    split; [reflexivity | cbn; set_solver]. }
  set (m2 := touch from m1).
  assert (E2 : exists c2, m2 !! to = Some c2 /\ from ∈ references c2).
  { destruct E1 as (c1 & A & B). destruct (grows_touch from m1 _ _ A) as (c2 & A2 & [X _]).
    exists c2. split; [exact A2 | set_solver]. }
  assert (F2 : is_Some (m2 !! from)) by apply touch_present.
  set (m3 := alter (addReferences (references (m2 !!! from))) to m2).
  assert (E3 : exists c3, m3 !! to = Some c3 /\ from ∈ references c3).
  { destruct E2 as (c2 & A & B). exists (addReferences (references (m2 !!! from)) c2).
    unfold m3. rewrite lookup_alter_eq, A. split; [reflexivity | cbn; set_solver]. }
  assert (F3 : is_Some (m3 !! from)).
  { destruct F2 as [o Ho]. unfold m3. destruct (decide (to = from)) as [->|Hne].
    - rewrite lookup_alter_eq, Ho. eauto.
    - rewrite lookup_alter_ne by congruence. eauto. }
  set (m4 := alter (addReferences (references (m3 !!! to))) from m3).
  assert (F4 : exists o4, m4 !! from = Some o4 /\ from ∈ references o4).
  { destruct F3 as [o Ho]. destruct E3 as (c3 & A & B).
    exists (addReferences (references (m3 !!! to)) o).
    unfold m4. rewrite lookup_alter_eq, Ho. split; [reflexivity|].
    cbn. rewrite (lookup_total_correct _ _ _ A). set_solver. }
  assert (E4 : exists c4, m4 !! to = Some c4 /\ from ∈ references c4).
  { destruct E3 as (c3 & A & B).
    assert (G : grows m3 m4).
    { apply grows_alter. intros. apply extends_addReferences. }
    destruct (G _ _ A) as (c4 & A4 & [X _]). exists c4. split; [exact A4 | set_solver]. }
  destruct F4 as (o4 & Ho4 & Hin4).
  rewrite (lookup_total_correct _ _ _ Ho4).
  destruct (isNull (target o4)) eqn:En.
  - split.
    + destruct E4 as (c4 & A & B).
      assert (G : grows m4 (alter (setTarget to) from m4)).
      { apply grows_alter. intros ci E. apply extends_setTarget. congruence. }
      destruct (G _ _ A) as (c5 & A5 & [X _]). exists c5. split; [exact A5 | set_solver].
    + exists (setTarget to o4). rewrite lookup_alter_eq, Ho4.
      split; [reflexivity|]. split; [exact Hin4 | cbn; auto].
  - split; [exact E4|]. exists o4. split; [exact Ho4|]. split; [exact Hin4 | auto].
Qed.

Lemma linked_grows (from to : Location) (m m' : gmap Location CursorInfo) :
  linked from to m -> grows m m' -> linked from to m'.
Proof.
  intros [(ci & A & B) (o & C & D & E)] G. split.
  - destruct (G _ _ A) as (ci' & A' & [X _]). exists ci'. split; [exact A' | set_solver].
  - destruct (G _ _ C) as (o' & C' & [X Y]). exists o'.
    split; [exact C'|]. split; [set_solver | auto].
Qed.

Lemma syncReferences_grows (opens : bool) (db : gmap Location CursorInfo)
  (refs : list (Location * (Location * ReferenceType))) :
  forall c c' : Cycle,
    syncReferences opens db refs c = Some c' -> grows (symbols c) (symbols c').
Proof.
  induction refs as [|[from [to k]] refs IH]; intros c c' H.
  - inversion H. apply grows_refl.
  - cbn [syncReferences] in H. destruct (symbols c !! to) eqn:E.
    + apply IH in H. cbn [symbols] in H.
      eapply grows_trans; [apply referenceInMemory_grows | exact H].
    + destruct (negb (opened c) && negb opens); [discriminate|].
      apply IH in H. exact H.
Qed.

Lemma syncReferences_total (db : gmap Location CursorInfo)
  (refs : list (Location * (Location * ReferenceType))) :
  forall c : Cycle, is_Some (syncReferences true db refs c).
Proof.
  induction refs as [|[from [to k]] refs IH]; intros c; [cbn; eauto|].
  cbn [syncReferences]. destruct (symbols c !! to); [apply IH|].
  cbn [negb]. rewrite andb_false_r. apply IH.
Qed.

Lemma syncReferences_linked (opens : bool) (db : gmap Location CursorInfo)
  (refs : list (Location * (Location * ReferenceType)))
  (from to : Location) (k : ReferenceType) :
  forall c c' : Cycle,
    (from, (to, k)) ∈ refs -> isNormal k = false -> is_Some (symbols c !! to) ->
    syncReferences opens db refs c = Some c' ->
    linked from to (symbols c').
Proof.
  induction refs as [|[f [t k']] refs IH]; intros c c' Hin Hk Hto H; [inversion Hin|].
  cbn [syncReferences] in H.
  apply elem_of_cons in Hin as [E|Hin].
  - inversion E. subst f t k'. destruct Hto as [ci Hci]. rewrite Hci in H.
    apply syncReferences_grows in H. cbn [symbols] in H.
    eapply linked_grows; [|exact H].
    apply referenceInMemory_linked; [rewrite Hci; eauto | exact Hk].
  - destruct (symbols c !! t) eqn:Et.
    + eapply IH; [exact Hin | exact Hk | | exact H]. cbn [symbols].
      destruct Hto as [ci Hci].
      destruct (referenceInMemory_grows (symbols c) f t k' _ _ Hci) as (ci' & A & _).
      rewrite A. eauto.
    + destruct (negb (opened c) && negb opens); [discriminate|].
      eapply IH; [exact Hin | exact Hk | | exact H]. exact Hto.
Qed.

Lemma batchExtends_snoc (db : gmap Location CursorInfo)
  (batch : list (Location * CursorInfo)) (k : Location) (v : CursorInfo) :
  batchExtends db batch -> extends (readSymbol db k) v ->
  batchExtends db (batch ++ [(k, v)]).
Proof.
  intros Hb Hv k' v' Hin. apply elem_of_app in Hin as [Hin|Hin]; [auto|].
  apply list_elem_of_singleton in Hin. inversion Hin. subst. exact Hv.
Qed.

Lemma referenceInStore_extends (db : gmap Location CursorInfo)
  (batch : list (Location * CursorInfo)) (from to : Location) (k : ReferenceType) :
  batchExtends db batch -> batchExtends db (referenceInStore db batch from to k).
Proof.
  intros Hb. unfold referenceInStore, addTo.
  destruct (isNormal k); cbn [negb fst snd].
  - match goal with |- context [if ?b then _ else _] => destruct b end; [|exact Hb].
    apply batchExtends_snoc; [exact Hb | apply extends_addReferences].
  - set (current1 := addReferences (references (readSymbol db to) ∪ {[from]}) (readSymbol db to)).
    set (other1 := addReferences (references (readSymbol db from) ∪ {[from]}) (readSymbol db from)).
    set (other2 := addReferences (references other1 ∪ references current1) other1).
    set (current2 := addReferences (references current1 ∪ references other2) current1).
    assert (Xc : extends (readSymbol db to) current2).
    { eapply extends_trans; apply extends_addReferences. }
    assert (Xo : extends (readSymbol db from) other2).
    { eapply extends_trans; apply extends_addReferences. }
    destruct (isNull (target other2)) eqn:En.
    + assert (Xo' : extends (readSymbol db from) (setTarget to other2)).
      { eapply extends_trans; [exact Xo | apply extends_setTarget; exact En]. }
      repeat match goal with |- context [if ?b then _ else _] => destruct b end;
        repeat (apply batchExtends_snoc); assumption.
    + repeat match goal with |- context [if ?b then _ else _] => destruct b end;
        repeat (apply batchExtends_snoc); assumption.
Qed.

Lemma syncReferences_batch (opens : bool) (db : gmap Location CursorInfo)
  (refs : list (Location * (Location * ReferenceType))) :
  forall c c' : Cycle,
    batchExtends db (symbolsBatch c) ->
    syncReferences opens db refs c = Some c' ->
    batchExtends db (symbolsBatch c').
Proof.
  induction refs as [|[from [to k]] refs IH]; intros c c' Hb H.
  - inversion H. subst. exact Hb.
  - cbn [syncReferences] in H. destruct (symbols c !! to).
    + eapply IH; [|exact H]. exact Hb.
    + destruct (negb (opened c) && negb opens); [discriminate|].
      eapply IH; [|exact H]. cbn [symbolsBatch].
      apply referenceInStore_extends. exact Hb.
Qed.

Lemma unite_extends_added (dl : N -> bool) (current added : CursorInfo) :
  extends added (fst (unite dl current added)).
Proof.
  unfold unite. cbn [fst]. split; cbn; [set_solver|].
  destruct (isNull (target current)) eqn:E; [auto | intros _; exact E].
Qed.

Lemma unite_extends_current (dl : N -> bool) (current added : CursorInfo) :
  extends current (fst (unite dl current added)).
Proof.
  unfold unite. cbn [fst]. split; cbn; [set_solver|].
  destruct (isNull (target current)) eqn:E; [discriminate | auto].
Qed.

Lemma unite_unchanged (dl : N -> bool) (current added : CursorInfo) :
  snd (unite dl current added) = false -> fst (unite dl current added) = current.
Proof.
  unfold unite. cbn [fst snd]. rewrite negb_false_iff. apply bool_decide_eq_true.
Qed.

Lemma fold_symbolStep (dl : N -> bool) (db : gmap Location CursorInfo)
  (l : list (Location * CursorInfo)) :
  forall batch : list (Location * CursorInfo),
    fold_left (symbolStep dl db) l batch = batch ++ symbolsBatchOf dl db l.
Proof.
  induction l as [|[k v] l IH]; intros batch.
  - cbn. rewrite app_nil_r. reflexivity.
  - cbn [fold_left]. unfold symbolStep at 2. cbn [fst snd].
    unfold symbolsBatchOf. cbn [omap list_omap fst snd]. fold (symbolsBatchOf dl db l).
    destruct (unite dl (readSymbol db k) v) as [cur changed]. cbn [fst snd].
    destruct changed.
    + rewrite IH, <- app_assoc. reflexivity.
    + apply IH.
Qed.

Lemma symbolsBatchOf_keys (dl : N -> bool) (db : gmap Location CursorInfo)
  (l : list (Location * CursorInfo)) (k : Location) :
  k ∈ (symbolsBatchOf dl db l).*1 ->
  exists v, (k, v) ∈ l /\ snd (unite dl (readSymbol db k) v) = true.
Proof.
  intros H. apply list_elem_of_fmap in H as ([k' x] & -> & Hx).
  apply list_elem_of_omap in Hx as ([k'' v] & Hin & Hf). cbn [fst snd] in Hf.
  destruct (snd (unite dl (readSymbol db k'') v)) eqn:E; [|discriminate].
  inversion Hf. subst. exists v. split; assumption.
Qed.

Lemma symbolsBatchOf_NoDup (dl : N -> bool) (db : gmap Location CursorInfo)
  (l : list (Location * CursorInfo)) :
  NoDup l.*1 -> NoDup (symbolsBatchOf dl db l).*1.
Proof.
  induction l as [|[k v] l IH]; intros Hnd; [constructor|].
  inversion Hnd as [|? ? Hnotin Hnd']. subst.
  unfold symbolsBatchOf. cbn [omap list_omap fst snd]. fold (symbolsBatchOf dl db l).
  destruct (snd (unite dl (readSymbol db k) v)); [|auto].
  cbn. constructor; [|auto].
  intros Hin. apply symbolsBatchOf_keys in Hin as (v' & Hv' & _).
  apply Hnotin. apply list_elem_of_fmap. exists (k, v'). split; [reflexivity | exact Hv'].
Qed.

Lemma writeBatch_app {K} `{Countable K} {V} (db : gmap K V) (b1 b2 : list (K * V)) :
  writeBatch db (b1 ++ b2) = writeBatch (writeBatch db b1) b2.
Proof. unfold writeBatch. apply fold_left_app. Qed.

(** A key reads, after the batch, what the store held or what some write
    of the batch put there. *)
Lemma writeBatch_cases {K} `{Countable K} {V} (batch : list (K * V)) :
  forall (db : gmap K V) (k : K),
    writeBatch db batch !! k = db !! k
    \/ exists v, (k, v) ∈ batch /\ writeBatch db batch !! k = Some v.
Proof.
  induction batch as [|[k' v'] batch IH]; intros db k; [left; reflexivity|].
  cbn [writeBatch fold_left fst snd]. fold (writeBatch (<[k':=v']> db) batch).
  destruct (IH (<[k':=v']> db) k) as [E|(v & Hin & E)].
  - destruct (decide (k = k')) as [->|Hne].
    + right. exists v'. split; [left|]. rewrite E. apply lookup_insert_eq.
    + left. rewrite E. apply lookup_insert_ne. congruence.
  - right. exists v. split; [right; exact Hin | exact E].
Qed.

(** What the symbols stage leaves in the store under a staged key. *)
Lemma symbols_stage_extends (dl : N -> bool) (db : gmap Location CursorInfo)
  (batch : list (Location * CursorInfo)) (m : gmap Location CursorInfo)
  (k : Location) (ci : CursorInfo) :
  batchExtends db batch -> m !! k = Some ci ->
  extends ci
    (readSymbol (writeBatch db (fold_left (symbolStep dl db) (map_to_list m) batch)) k).
Proof.
  intros Hb Hk. rewrite fold_symbolStep, writeBatch_app.
  set (l := map_to_list m).
  assert (Hnd : NoDup l.*1) by apply NoDup_fst_map_to_list.
  assert (Hin : (k, ci) ∈ l) by (apply elem_of_map_to_list; exact Hk).
  destruct (snd (unite dl (readSymbol db k) ci)) eqn:Ech.
  - assert (Hw : (k, fst (unite dl (readSymbol db k) ci)) ∈ symbolsBatchOf dl db l).
    { apply list_elem_of_omap. exists (k, ci). split; [exact Hin|].
      cbn [fst snd]. rewrite Ech. reflexivity. }
    unfold readSymbol at 1.
    rewrite (writeBatch_written _ _ _ _ (symbolsBatchOf_NoDup dl db l Hnd) Hw).
    cbn. apply unite_extends_added.
  - assert (Hn : k ∉ (symbolsBatchOf dl db l).*1).
    { intros H. apply symbolsBatchOf_keys in H as (v & Hv & Hc).
      assert (v = ci).
      { apply elem_of_map_to_list in Hv. congruence. }
      subst v. congruence. }
    unfold readSymbol at 1. rewrite writeBatch_not_written by exact Hn.
    pose proof (unite_extends_added dl (readSymbol db k) ci) as X.
    rewrite (unite_unchanged _ _ _ Ech) in X.
    destruct (writeBatch_cases batch db k) as [E|(v & Hv & E)]; rewrite E.
    + exact X.
    + cbn. eapply extends_trans; [exact X | apply Hb; exact Hv].
Qed.

(** C3: for any sequence of [addSymbolNames] calls, one writer cycle (with
    the store open) leaves under every key the union of everything staged
    for that key with what was stored before, and puts a write for a key
    in the batch exactly when that union is strictly larger than what was
    stored before. *)
Theorem symbol_names_cycle (calls : list (gmap string (gset Location)))
  (db : gmap string (gset Location)) :
  exists (db' : gmap string (gset Location)) (batch : list (string * gset Location)),
    syncSymbolNames true db (staged calls) = Some (db', batch)
    /\ forall k : string,
         readNames db' k = readNames db k ∪ stagedUnion calls k
         /\ (k ∈ batch.*1 <-> readNames db k ⊂ readNames db k ∪ stagedUnion calls k).
Proof.
  set (l := map_to_list (staged calls)).
  assert (Hnd : NoDup l.*1) by apply NoDup_fst_map_to_list.
  assert (Hl : forall k v, (k, v) ∈ l <-> staged calls !! k = Some v)
    by (intros; apply elem_of_map_to_list).
  exists (writeBatch db (namesBatch db l)), (namesBatch db l).
  split.
  - unfold syncSymbolNames. fold l.
    destruct (decide (staged calls = ∅)) as [E|E].
    + assert (El : l = []) by (apply map_to_list_empty_iff; exact E).
      rewrite El. reflexivity.
    + cbn [negb]. rewrite fold_namesStep. cbn [app orb].
      destruct (bool_decide (namesBatch db l = [])) eqn:Eb; cbn [negb].
      * apply bool_decide_eq_true in Eb. rewrite Eb. reflexivity.
      * reflexivity.
  - intros k. rewrite <- staged_lookup.
    assert (Hin : k ∈ (namesBatch db l).*1 <->
                  ~ default ∅ (staged calls !! k) ⊆ readNames db k).
    { split.
      - intros H. apply namesBatch_keys in H as (v & Hv & Hg).
        apply Hl in Hv. rewrite Hv. cbn. apply addTo_grew. exact Hg.
      - intros H. destruct (staged calls !! k) as [v|] eqn:Ev; [|cbn in H; set_solver].
        cbn in H. apply list_elem_of_fmap. exists (k, readNames db k ∪ v).
        split; [reflexivity|]. apply list_elem_of_omap. exists (k, v).
        split; [apply Hl; exact Ev|]. cbn [fst snd].
        apply addTo_grew in H. rewrite H. reflexivity. }
    split.
    + destruct (decide (k ∈ (namesBatch db l).*1)) as [Hk|Hk].
      * pose proof Hk as Hk'. apply namesBatch_keys in Hk' as (v & Hv & Hg).
        assert (Hw : (k, readNames db k ∪ v) ∈ namesBatch db l).
        { apply list_elem_of_omap. exists (k, v). split; [exact Hv|].
          cbn [fst snd]. rewrite Hg. reflexivity. }
        unfold readNames at 1.
        rewrite (writeBatch_written _ _ _ _ (namesBatch_NoDup db l Hnd) Hw).
        apply Hl in Hv. rewrite Hv. reflexivity.
      * unfold readNames at 1. rewrite writeBatch_not_written by exact Hk.
        fold (readNames db k).
        assert (Hsub : default ∅ (staged calls !! k) ⊆ readNames db k).
        { destruct (decide (default ∅ (staged calls !! k) ⊆ readNames db k)); [assumption|].
          exfalso. apply Hk, Hin. assumption. }
        set_solver.
    + rewrite Hin. split.
      * intros H. split; [set_solver|]. intros H2. apply H. set_solver.
      * intros [_ H] H2. apply H. set_solver.
Qed.

(** The cycle on a small input: [helper] is already stored, so only
    [main] is written. *)
Lemma symbol_names_cycle_example :
  exists db' batch,
    syncSymbolNames true namesOnDisk (staged [firstCall; secondCall]) = Some (db', batch)
    /\ batch.*1 = ["main"%string]
    /\ readNames db' "main" = {[ locA; locC ]}
    /\ readNames db' "helper" = {[ locB ]}.
Proof.
  eexists. eexists. split; [reflexivity|].
  split; [reflexivity|].
  split; apply (bool_decide_eq_true_1 _); vm_compute; reflexivity.
Qed.

(** C1, as stated, fails: a non-normal reference from [locA] to the symbol
    staged at [locB] leaves [locA] (not [locB]) in the references of
    [locA], and sets the target of [locA] (not of [locB]). *)
Lemma back_link_lands_on_referrer :
  exists db',
    syncSymbols noDefinitions true ∅ oneCall declaredAtB = Some db'
    /\ (locB ∉ references (readSymbol db' locA))
    /\ isNull (target (readSymbol db' locB)) = true
    /\ ~ linksBothWays db' locA locB.
Proof.
  eexists. split; [reflexivity|].
  assert (T : isNull (target (readSymbol
               (writeBatch (∅ : gmap Location CursorInfo)
                  (fold_left (symbolStep noDefinitions ∅)
                     (map_to_list (referenceInMemory declaredAtB locA locB MemberFunction))
                     [])) locB)) = true) by (vm_compute; reflexivity).
  split; [apply (bool_decide_eq_true_1 _); vm_compute; reflexivity|].
  split; [exact T|].
  intros (_ & _ & H). cbn in H, T. congruence.
Qed.

(** The branch that goes through the store reads the store but writes to
    the batch: of two references to the same target that is not staged,
    the later write replaces the earlier one, and [locA] is lost from the
    references of [locB]. *)
Lemma store_branch_overwrites :
  exists db',
    syncSymbols noDefinitions true ∅
      [ (locA, (locB, MemberFunction)); (locC, (locB, MemberFunction)) ] ∅ = Some db'
    /\ references (readSymbol db' locB) = {[ locC ]}.
Proof.
  eexists. split; [reflexivity|].
  apply (bool_decide_eq_true_1 _). vm_compute. reflexivity.
Qed.

(** C1 (amended): for a staged reference (from, to, kind) with kind other
    than Normal whose [to] is present in the staged symbols map, the cycle
    (with the symbols store open) completes, and afterwards the stored
    [symbols[to].references] and [symbols[from].references] both contain
    [from], and [symbols[from].target] is not null when [to] is not. *)
Theorem non_normal_reference_links (dl : N -> bool) (db : gmap Location CursorInfo)
  (refs : list (Location * (Location * ReferenceType)))
  (stagedSymbols : gmap Location CursorInfo)
  (from to : Location) (k : ReferenceType) :
  (from, (to, k)) ∈ refs -> isNormal k = false -> is_Some (stagedSymbols !! to) ->
  exists db',
    syncSymbols dl true db refs stagedSymbols = Some db'
    /\ from ∈ references (readSymbol db' to)
    /\ from ∈ references (readSymbol db' from)
    /\ (isNull to = false -> isNull (target (readSymbol db' from)) = false).
Proof.
  intros Hin Hk Hto. unfold syncSymbols.
  set (c0 := {| symbols := stagedSymbols; symbolsBatch := []; opened := false |}).
  destruct (syncReferences_total db refs c0) as [c Hc]. rewrite Hc.
  assert (Hl : linked from to (symbols c)).
  { exact (syncReferences_linked true db refs from to k c0 c Hin Hk Hto Hc). }
  assert (Hb : batchExtends db (symbolsBatch c)).
  { eapply syncReferences_batch; [|exact Hc]. intros k' v' H. inversion H. }
  destruct Hl as [(ci & A & B) (o & C & D & E)].
  destruct (decide (symbols c = ∅)) as [Em|_].
  { rewrite Em, lookup_empty in A. discriminate. }
  rewrite andb_false_r. eexists. split; [reflexivity|].
  pose proof (symbols_stage_extends dl db _ _ _ _ Hb A) as [X1 _].
  pose proof (symbols_stage_extends dl db _ _ _ _ Hb C) as [X2 X3].
  split; [set_solver|]. split; [set_solver | auto].
Qed.

(** The theorem at work on the call staged at [locA]. *)
Lemma non_normal_reference_witness :
  (locA, (locB, MemberFunction)) ∈ oneCall /\
  isNormal MemberFunction = false /\
  is_Some (declaredAtB !! locB) /\
  exists db',
    syncSymbols noDefinitions true ∅ oneCall declaredAtB = Some db'
    /\ locA ∈ references (readSymbol db' locB)
    /\ locA ∈ references (readSymbol db' locA)
    /\ (isNull locB = false -> isNull (target (readSymbol db' locA)) = false).
Proof.
  assert (A : (locA, (locB, MemberFunction)) ∈ oneCall) by (left).
  assert (B : isNormal MemberFunction = false) by reflexivity.
  assert (C : is_Some (declaredAtB !! locB)) by (exists emptyCursorInfo; reflexivity).
  split; [exact A|]. split; [exact B|]. split; [exact C|].
  exact (non_normal_reference_links noDefinitions ∅ oneCall declaredAtB locA locB
           MemberFunction A B C).
Defined.

Lemma syncSymbolNames_shape (db m : gmap string (gset Location)) :
  syncSymbolNames true db m
  = Some (writeBatch db (namesBatch db (map_to_list m)), namesBatch db (map_to_list m)).
Proof.
  unfold syncSymbolNames. destruct (decide (m = ∅)) as [E|E].
  - assert (El : map_to_list m = []) by (apply map_to_list_empty_iff; exact E).
    rewrite El. reflexivity.
  - cbn [negb]. rewrite fold_namesStep. cbn [app orb].
    destruct (bool_decide (namesBatch db (map_to_list m) = [])) eqn:Eb; cbn [negb].
    + apply bool_decide_eq_true in Eb. rewrite Eb. reflexivity.
    + reflexivity.
Qed.

Lemma readNames_after_cycle (db m : gmap string (gset Location)) (k : string)
  (v : gset Location) :
  m !! k = Some v ->
  readNames (writeBatch db (namesBatch db (map_to_list m))) k = readNames db k ∪ v.
Proof.
  intros Hk. set (l := map_to_list m).
  assert (Hnd : NoDup l.*1) by apply NoDup_fst_map_to_list.
  assert (Hin : (k, v) ∈ l) by (apply elem_of_map_to_list; exact Hk).
  destruct (snd (addTo (readNames db k) v)) eqn:Eg.
  - assert (Hw : (k, readNames db k ∪ v) ∈ namesBatch db l).
    { apply list_elem_of_omap. exists (k, v). split; [exact Hin|].
      cbn [fst snd]. rewrite Eg. reflexivity. }
    unfold readNames at 1.
    rewrite (writeBatch_written _ _ _ _ (namesBatch_NoDup db l Hnd) Hw). reflexivity.
  - assert (Hn : k ∉ (namesBatch db l).*1).
    { intros H. apply namesBatch_keys in H as (v' & Hv' & Hg).
      apply elem_of_map_to_list in Hv'. congruence. }
    unfold readNames at 1. rewrite writeBatch_not_written by exact Hn.
    fold (readNames db k).
    assert (Hsub : v ⊆ readNames db k).
    { destruct (decide (v ⊆ readNames db k)) as [|Hns]; [assumption|].
      apply addTo_grew in Hns. congruence. }
    set_solver.
Qed.

(** X14: the symbol-names cycle is idempotent: running it a second time
    with the same staged names on the store the first run produced writes
    nothing, and leaves that store as it is. *)
Theorem symbol_names_cycle_idempotent (db m : gmap string (gset Location)) :
  exists (db' : gmap string (gset Location)) (batch : list (string * gset Location)),
    syncSymbolNames true db m = Some (db', batch)
    /\ syncSymbolNames true db' m = Some (db', []).
Proof.
  eexists. eexists. split; [apply syncSymbolNames_shape|].
  rewrite syncSymbolNames_shape.
  set (db' := writeBatch db (namesBatch db (map_to_list m))).
  assert (E : namesBatch db' (map_to_list m) = []).
  { assert (G : forall l : list (string * gset Location),
               (forall k v, (k, v) ∈ l -> v ⊆ readNames db' k) ->
               namesBatch db' l = []).
    { induction l as [|[k v] l IH]; intros H; [reflexivity|].
      unfold namesBatch. cbn [omap list_omap fst snd]. fold (namesBatch db' l).
      destruct (snd (addTo (readNames db' k) v)) eqn:Eg.
      - apply addTo_grew in Eg. exfalso. apply Eg. apply H. left.
      - apply IH. intros k' v' Hin. apply H. right. exact Hin. }
    apply G. intros k v Hin. apply elem_of_map_to_list in Hin.
    unfold db'. rewrite (readNames_after_cycle db m k v Hin). set_solver. }
  rewrite E. reflexivity.
Qed.

Lemma referenceInMemory_keys (m : gmap Location CursorInfo) (from to : Location)
  (k : ReferenceType) (x : Location) :
  is_Some (referenceInMemory m from to k !! x) ->
  is_Some (m !! x) \/ (x = from /\ isNormal k = false).
Proof.
  assert (A : forall (f : CursorInfo -> CursorInfo) (y : Location)
                     (n : gmap Location CursorInfo),
             is_Some (alter f y n !! x) -> is_Some (n !! x)).
  { intros f y n [ci H]. destruct (decide (y = x)) as [->|Hne].
    - rewrite lookup_alter_eq in H. destruct (n !! x); [eauto | discriminate].
    - rewrite lookup_alter_ne in H by exact Hne. eauto. }
  unfold referenceInMemory. destruct (isNormal k); cbn [negb].
  - intros H. left. eapply A. exact H.
  - intros H.
    assert (H' : is_Some (touch from (alter (addReferences {[from]}) to m) !! x)).
    { match type of H with
      | is_Some ((if ?b then _ else _) !! _) => destruct b
      end; [apply A in H|]; apply A in H; apply A in H; exact H. }
    unfold touch in H'.
    destruct (alter (addReferences {[from]}) to m !! from) eqn:E.
    + left. eapply A. exact H'.
    + destruct (decide (x = from)) as [->|Hne]; [right; split; reflexivity|].
      rewrite lookup_insert_ne in H' by congruence. left. eapply A. exact H'.
Qed.

Lemma onlyAdds_refl (a : CursorInfo) : onlyAdds a a.
Proof. unfold onlyAdds. split_and!; [set_solver | reflexivity.. | auto]. Qed.

Lemma onlyAdds_trans (a b c : CursorInfo) :
  onlyAdds a b -> onlyAdds b c -> onlyAdds a c.
Proof.
  intros (A1 & A2 & A3 & A4 & A5) (B1 & B2 & B3 & B4 & B5).
  unfold onlyAdds. split_and!; [set_solver | congruence.. |].
  intros Hn. rewrite <- (A5 Hn). apply B5. rewrite (A5 Hn). exact Hn.
Qed.

Lemma onlyAdds_addReferences (extra : gset Location) (ci : CursorInfo) :
  onlyAdds ci (addReferences extra ci).
Proof. unfold onlyAdds. cbn. split_and!; [set_solver | reflexivity.. | auto]. Qed.

Lemma onlyAdds_setTarget (t : Location) (ci : CursorInfo) :
  isNull (target ci) = true -> onlyAdds ci (setTarget t ci).
Proof.
  intros Hn. unfold onlyAdds. cbn.
  split_and!; [set_solver | reflexivity.. | congruence].
Qed.

Lemma onlyAddsTo_refl (m : gmap Location CursorInfo) : onlyAddsTo m m.
Proof. intros k ci E. exists ci. split; [exact E | apply onlyAdds_refl]. Qed.

Lemma onlyAddsTo_trans (m1 m2 m3 : gmap Location CursorInfo) :
  onlyAddsTo m1 m2 -> onlyAddsTo m2 m3 -> onlyAddsTo m1 m3.
Proof.
  intros H12 H23 k ci E. destruct (H12 _ _ E) as (ci2 & E2 & X2).
  destruct (H23 _ _ E2) as (ci3 & E3 & X3). exists ci3.
  split; [exact E3 | eapply onlyAdds_trans; eauto].
Qed.

Lemma onlyAddsTo_alter (f : CursorInfo -> CursorInfo) (k : Location)
  (m : gmap Location CursorInfo) :
  (forall ci, m !! k = Some ci -> onlyAdds ci (f ci)) -> onlyAddsTo m (alter f k m).
Proof.
  intros Hf k' ci E. destruct (decide (k' = k)) as [->|Hne].
  - exists (f ci). rewrite lookup_alter_eq, E. split; [reflexivity | auto].
  - exists ci. rewrite lookup_alter_ne by congruence.
    split; [exact E | apply onlyAdds_refl].
Qed.

Lemma onlyAddsTo_touch (k : Location) (m : gmap Location CursorInfo) :
  onlyAddsTo m (touch k m).
Proof.
  unfold touch. destruct (m !! k) eqn:E; [apply onlyAddsTo_refl|].
  intros k' ci E'. exists ci. split; [|apply onlyAdds_refl].
  rewrite lookup_insert_ne; [exact E' | congruence].
Qed.

(** The in-memory branch writes a target only where there was none, and
    otherwise only adds references. *)
Lemma referenceInMemory_onlyAdds (m : gmap Location CursorInfo) (from to : Location)
  (k : ReferenceType) :
  onlyAddsTo m (referenceInMemory m from to k).
Proof.
  unfold referenceInMemory.
  set (m1 := alter (addReferences {[from]}) to m).
  assert (G1 : onlyAddsTo m m1).
  { apply onlyAddsTo_alter. intros. apply onlyAdds_addReferences. }
  destruct (isNormal k); cbn [negb]; [exact G1|].
  set (m2 := touch from m1).
  set (m3 := alter (addReferences (references (m2 !!! from))) to m2).
  set (m4 := alter (addReferences (references (m3 !!! to))) from m3).
  assert (G4 : onlyAddsTo m m4).
  { eapply onlyAddsTo_trans; [exact G1|].
    eapply onlyAddsTo_trans; [apply onlyAddsTo_touch|].
    eapply onlyAddsTo_trans; apply onlyAddsTo_alter; intros;
      apply onlyAdds_addReferences. }
  destruct (isNull (target (m4 !!! from))) eqn:En; [|exact G4].
  eapply onlyAddsTo_trans; [exact G4|]. apply onlyAddsTo_alter. intros ci E.
  apply onlyAdds_setTarget. rewrite (lookup_total_correct _ _ _ E) in En. exact En.
Qed.

(** X15: the loop over the staged references only ever adds to the staged
    symbols: every symbol is still there afterwards with at least the
    references it had, with the kind, usr and symbol name it had, and with
    the very target it had if that was not null; and the only entries the
    loop creates are for the referring side of references that are not
    normal. *)
Theorem references_stage_only_adds (opens : bool) (db : gmap Location CursorInfo)
  (refs : list (Location * (Location * ReferenceType))) :
  forall c c' : Cycle,
    syncReferences opens db refs c = Some c' ->
    (forall x ci, symbols c !! x = Some ci ->
       exists ci', symbols c' !! x = Some ci'
         /\ references ci ⊆ references ci'
         /\ kind ci' = kind ci /\ usr ci' = usr ci /\ symbolName ci' = symbolName ci
         /\ (isNull (target ci) = false -> target ci' = target ci))
    /\ (forall x, is_Some (symbols c' !! x) ->
          is_Some (symbols c !! x)
          \/ exists to k, (x, (to, k)) ∈ refs /\ isNormal k = false).
Proof.
  change (forall c c' : Cycle,
            syncReferences opens db refs c = Some c' ->
            onlyAddsTo (symbols c) (symbols c')
            /\ (forall x, is_Some (symbols c' !! x) ->
                  is_Some (symbols c !! x)
                  \/ exists to k, (x, (to, k)) ∈ refs /\ isNormal k = false)).
  induction refs as [|[from [to k]] refs IH]; intros c c' H.
  - inversion H. subst. split; [apply onlyAddsTo_refl | auto].
  - cbn [syncReferences] in H. destruct (symbols c !! to) eqn:E.
    + destruct (IH _ _ H) as [G K]. cbn [symbols] in G, K. split.
      * eapply onlyAddsTo_trans; [apply referenceInMemory_onlyAdds | exact G].
      * intros x Hx. destruct (K x Hx) as [Hm|(to' & k' & Hin & Hk)].
        -- apply referenceInMemory_keys in Hm as [Hm|[-> Hk]]; [left; exact Hm|].
           right. exists to, k. split; [left | exact Hk].
        -- right. exists to', k'. split; [right; exact Hin | exact Hk].
    + destruct (negb (opened c) && negb opens); [discriminate|].
      destruct (IH _ _ H) as [G K]. cbn [symbols] in G, K. split; [exact G|].
      intros x Hx. destruct (K x Hx) as [Hm|(to' & k' & Hin & Hk)]; [left; exact Hm|].
      right. exists to', k'. split; [right; exact Hin | exact Hk].
Qed.

Lemma references_stage_only_adds_witness :
  syncReferences true ∅ oneCall
    {| symbols := targetedAtB; symbolsBatch := []; opened := false |}
  = Some {| symbols := referenceInMemory targetedAtB locA locB MemberFunction;
            symbolsBatch := []; opened := false |}
  /\ exists ci',
       referenceInMemory targetedAtB locA locB MemberFunction !! locB = Some ci'
       /\ locA ∈ references ci'
       /\ target ci' = locC.
Proof.
  assert (A : syncReferences true ∅ oneCall
                {| symbols := targetedAtB; symbolsBatch := []; opened := false |}
              = Some {| symbols := referenceInMemory targetedAtB locA locB MemberFunction;
                        symbolsBatch := []; opened := false |}) by reflexivity.
  assert (B : targetedAtB !! locB = Some (setTarget locC emptyCursorInfo))
    by reflexivity.
  destruct (references_stage_only_adds true ∅ oneCall _ _ A) as [G _].
  destruct (G locB _ B) as (ci' & E & _ & _ & _ & _ & T).
  split; [exact A|].
  cbn [symbols] in E. exists ci'. split; [exact E|].
  split; [|apply T; reflexivity].
  assert (L : referenceInMemory targetedAtB locA locB MemberFunction !! locB
              ≫= (fun ci => Some (bool_decide (locA ∈ references ci))) = Some true)
    by (vm_compute; reflexivity).
  rewrite E in L. cbn in L. inversion L as [L']. apply bool_decide_eq_true_1 in L'.
  exact L'.
Defined.

End SyncerFacts.

Module DiscoveryFacts.
Import Discovery.

Local Open Scope string_scope.

Example ancestorDirs_example :
  ancestorDirs "/work/proj/lib/src/x.c"
  = ["/work/proj/lib/src/"; "/work/proj/lib/"; "/work/proj/"; "/work/"].
Proof. reflexivity. Qed.

Example ancestorDirs_top_level : ancestorDirs "/x.c" = [].
Proof. reflexivity. Qed.

Example fnmatch_examples :
  fnmatch "*.pro" "/work/proj/app.pro" = true
  /\ fnmatch "autogen.*" "autogen.sh" = true
  /\ fnmatch "Makefile*" "Makefile.am" = true
  /\ fnmatch "Makefile*" "/work/proj/Makefile.am" = false
  /\ fnmatch "*.pro" "/work/proj/app.pro.bak" = false.
Proof. repeat split. Qed.

Lemma lastIndexAux_le (c : ascii) (s : string) :
  forall pos from best b : Z,
    (best <= b)%Z -> (from <= b)%Z -> (lastIndexAux c s pos from best <= b)%Z.
Proof.
  induction s as [|a s IH]; intros pos from best b Hb Hf; [exact Hb|].
  cbn [lastIndexAux]. apply IH; [|exact Hf].
  destruct (Ascii.eqb a c && (pos <=? from)%Z) eqn:E; [|exact Hb].
  apply andb_true_iff in E as [_ E]. lia.
Qed.

(** The index found is at most [from] (or it is -1). *)
Lemma lastIndexOf_le (c : ascii) (s : string) (from : Z) :
  (lastIndexOf c s from <= Z.max from (-1))%Z.
Proof. unfold lastIndexOf. apply lastIndexAux_le; lia. Qed.

(** [fuel] never cuts the loop short: once it covers [slash], more fuel
    changes nothing. *)
Lemma findAncestorLoop_fuel (fs : FileSystem) (path fn : string) (flags : Z) :
  forall (fuel fuel' : nat) (slash : Z) (ret : string),
    (slash <= Z.of_nat fuel)%Z -> (slash <= Z.of_nat fuel')%Z ->
    findAncestorLoop fs fuel path fn flags slash ret
    = findAncestorLoop fs fuel' path fn flags slash ret.
Proof.
  induction fuel as [|fuel IH]; intros fuel' slash ret H1 H2.
  - destruct fuel' as [|fuel']; [reflexivity|]. cbn [findAncestorLoop].
    pose proof (lastIndexOf_le "/" path (slash - 1)).
    replace (lastIndexOf "/" path (slash - 1) >? 0)%Z with false by lia. reflexivity.
  - destruct fuel' as [|fuel']; cbn [findAncestorLoop];
      pose proof (lastIndexOf_le "/" path (slash - 1)).
    + replace (lastIndexOf "/" path (slash - 1) >? 0)%Z with false by lia. reflexivity.
    + destruct (lastIndexOf "/" path (slash - 1) >? 0)%Z eqn:E; [|reflexivity].
      destruct (markerAt fs fn flags _); [destruct (hasFlag flags Shallow); [reflexivity|]|];
        apply IH; lia.
Qed.

Lemma findAncestor_fuel (fs : FileSystem) (path fn : string) (flags : Z) (extra : nat) :
  findAncestorLoop fs (S (String.length path) + extra) path fn flags (sizeOf path) ""
  = findAncestor fs path fn flags.
Proof. unfold findAncestor. apply findAncestorLoop_fuel; unfold sizeOf; lia. Qed.

Lemma lastIndexAux_lt (c : ascii) (s : string) :
  forall pos from best : Z,
    (best < pos + Z.of_nat (String.length s))%Z ->
    (lastIndexAux c s pos from best < pos + Z.of_nat (String.length s))%Z.
Proof.
  induction s as [|a s IH]; intros pos from best Hb; [exact Hb|].
  cbn [lastIndexAux String.length].
  replace (pos + Z.of_nat (S (String.length s)))%Z
    with ((pos + 1) + Z.of_nat (String.length s))%Z by lia.
  apply IH. cbn [String.length] in Hb.
  destruct (Ascii.eqb a c && (pos <=? from)%Z); lia.
Qed.

Lemma substring_prefix_length (s : string) :
  forall n : nat, (n <= String.length s)%nat ->
    String.length (String.substring 0 n s) = n.
Proof.
  induction s as [|a s IH]; intros n Hn.
  - cbn in Hn. destruct n; [reflexivity | lia].
  - destruct n as [|n]; [reflexivity|]. cbn [String.substring String.length] in *.
    rewrite IH by lia. reflexivity.
Qed.


Lemma last_cons {A} (a d : A) (l : list A) : List.last (a :: l) d = List.last l a.
Proof.
  revert a d. induction l as [|b l IH]; intros a d; [reflexivity|].
  change (List.last (a :: b :: l) d) with (List.last (b :: l) d).
  rewrite (IH b d), (IH b a). reflexivity.
Qed.

(** Without [Shallow], the loop keeps the last ancestor at which the marker
    is found. *)
Lemma findAncestorLoop_last (fs : FileSystem) (path fn : string) (flags : Z) :
  hasFlag flags Shallow = false ->
  forall (fuel : nat) (slash : Z) (ret : string),
    findAncestorLoop fs fuel path fn flags slash ret
    = List.last (List.filter (markerAt fs fn flags) (ancestorsFrom fuel path slash)) ret.
Proof.
  intros Hs. induction fuel as [|fuel IH]; intros slash ret; [reflexivity|].
  cbn [findAncestorLoop ancestorsFrom].
  destruct (lastIndexOf "/" path (slash - 1) >? 0)%Z; [|reflexivity].
  cbn [List.filter]. rewrite Hs.
  destruct (markerAt fs fn flags _); rewrite IH; [|reflexivity].
  rewrite last_cons. reflexivity.
Qed.

Lemma findAncestor_shallowest (fs : FileSystem) (path fn : string) (flags : Z) :
  hasFlag flags Shallow = false ->
  findAncestor fs path fn flags = shallowestWith fs path fn flags.
Proof. intros Hs. apply findAncestorLoop_last. exact Hs. Qed.

Lemma entries_not_shallow (e : string * Z) :
  e ∈ entries -> hasFlag e.2 Shallow = false.
Proof.
  intros H. unfold entries in H.
  repeat (apply elem_of_cons in H as [->|H]; [reflexivity|]).
  inversion H.
Qed.


Lemma last_filter_none (f : string -> bool) (d : string) (l : list string) :
  (forall x, x ∈ l -> f x = false) -> List.last (List.filter f l) d = d.
Proof.
  intros H. induction l as [|a l IH]; [reflexivity|].
  cbn [List.filter]. rewrite (H a) by left. apply IH. intros x Hx. apply H. right. exact Hx.
Qed.




Lemma fnmatch_leading_literal (c : ascii) (pattern s : string) :
  Ascii.eqb c "*" = false -> Ascii.eqb c "?" = false -> Ascii.eqb c "/" = false ->
  fnmatch (String c pattern) (String "/" s) = false.
Proof.
  intros H1 H2 H3. cbn [fnmatch]. rewrite H1, H2.
  rewrite Ascii.eqb_sym, H3. reflexivity.
Qed.

Lemma ancestorsFrom_absolute (rest : string) (dir : string) :
  forall (fuel : nat) (slash : Z),
    dir ∈ ancestorsFrom fuel (String "/" rest) slash ->
    exists tail, dir = String "/" tail.
Proof.
  induction fuel as [|fuel IH]; intros slash H; [inversion H|].
  cbn [ancestorsFrom] in H.
  destruct (lastIndexOf "/" (String "/" rest) (slash - 1) >? 0)%Z eqn:E; [|inversion H].
  apply elem_of_cons in H as [H|H]; [|eapply IH; exact H].
  destruct (Z.to_nat (lastIndexOf "/" (String "/" rest) (slash - 1) + 1)) as [|n] eqn:En;
    [lia|].
  cbn in H. eauto.
Qed.

(** A glob that starts with an ordinary character is matched against the
    whole path of each directory entry, which starts with a slash when the
    input is absolute: it is never found. *)
Lemma leading_literal_glob_never_found (fs : FileSystem) (rest : string)
  (c : ascii) (pattern : string) :
  Ascii.eqb c "*" = false -> Ascii.eqb c "?" = false -> Ascii.eqb c "/" = false ->
  findAncestor fs (String "/" rest) (String c pattern) Wildcard = "".
Proof.
  intros H1 H2 H3. rewrite findAncestor_shallowest by reflexivity.
  unfold shallowestWith. apply last_filter_none. intros dir Hd.
  apply ancestorsFrom_absolute in Hd as [tail ->].
  unfold markerAt. replace (hasFlag Wildcard Wildcard) with true by reflexivity.
  cbn [negb]. unfold scanDirectory. destruct (opendir fs (String "/" tail)) as [names|]; [|reflexivity].
  induction names as [|name names IH]; [reflexivity|].
  cbn [existsb]. rewrite IH, orb_false_r.
  change (String "/" tail ++ name) with (String "/" (tail ++ name)).
  rewrite (fnmatch_leading_literal c pattern _ H1 H2 H3). apply andb_false_r.
Qed.

Lemma Makefile_glob_never_found (fs : FileSystem) (rest : string) :
  findAncestor fs (String "/" rest) "Makefile*" Wildcard = ""
  /\ findAncestor fs (String "/" rest) "GNUMakefile*" Wildcard = ""
  /\ findAncestor fs (String "/" rest) "autogen.*" Wildcard = ""
  /\ findAncestor fs (String "/" rest) "INSTALL*" Wildcard = ""
  /\ findAncestor fs (String "/" rest) "README*" Wildcard = "".
Proof.
  split_and!; apply leading_literal_glob_never_found; reflexivity.
Qed.





Lemma last_filter_in (f : string -> bool) (l : list string) :
  forall d : string,
    List.last (List.filter f l) d = d
    \/ (List.last (List.filter f l) d ∈ l /\ f (List.last (List.filter f l) d) = true).
Proof.
  induction l as [|a l IH]; intros d; [left; reflexivity|].
  cbn [List.filter]. destruct (f a) eqn:E.
  - rewrite last_cons. right. destruct (IH a) as [X|[X Y]].
    + rewrite X. split; [left | exact E].
    + split; [right; exact X | exact Y].
  - destruct (IH d) as [X|[X Y]]; [left; exact X|].
    right. split; [right; exact X | exact Y].
Qed.




Example findAncestor_nested :
  findAncestor nestedTree "/work/proj/lib/src/x.c" ".git" Shallow = "/work/proj/lib/"
  /\ findAncestor nestedTree "/work/proj/lib/src/x.c" ".git" 0 = "/work/proj/"
  /\ findAncestor nestedTree "/work/proj/lib/src/x.c" "GTAGS" Shallow = "".
Proof. repeat split. Qed.

Lemma lastIndexAux_spec (c : ascii) (s : string) :
  forall pos from best : Z,
    lastIndexAux c s pos from best = best
    \/ ((pos <= lastIndexAux c s pos from best)%Z
        /\ String.get (Z.to_nat (lastIndexAux c s pos from best - pos)) s = Some c).
Proof.
  induction s as [|a s IH]; intros pos from best; [left; reflexivity|].
  cbn [lastIndexAux].
  destruct (IH (pos + 1)%Z from
              (if Ascii.eqb a c && (pos <=? from)%Z then pos else best)) as [X|[X Y]].
  - rewrite X. destruct (Ascii.eqb a c && (pos <=? from)%Z) eqn:E; [|left; reflexivity].
    right. split; [lia|]. rewrite Z.sub_diag. cbn.
    apply andb_true_iff in E as [E _]. apply Ascii.eqb_eq in E. subst a. reflexivity.
  - right. split; [lia|].
    replace (Z.to_nat (lastIndexAux c s (pos + 1) from
                         (if Ascii.eqb a c && (pos <=? from)%Z then pos else best) - pos))
      with (S (Z.to_nat (lastIndexAux c s (pos + 1) from
                           (if Ascii.eqb a c && (pos <=? from)%Z then pos else best)
                         - (pos + 1)))) by lia.
    exact Y.
Qed.

Lemma get_substring_prefix (s : string) :
  forall n i : nat, (i < n)%nat -> String.get i (String.substring 0 n s) = String.get i s.
Proof.
  induction s as [|a s IH]; intros n i Hi.
  - destruct n; reflexivity.
  - destruct n as [|n]; [lia|]. cbn [String.substring].
    destruct i as [|i]; [reflexivity|]. cbn [String.get]. apply IH. lia.
Qed.

Lemma endsWithSlash_append (r : string) : endsWithSlash (r ++ "/") = true.
Proof.
  assert (L : String.length (r ++ "/") = S (String.length r)).
  { induction r as [|a r IH]; [reflexivity|]. simpl. rewrite IH. reflexivity. }
  assert (G : String.get (String.length r) (r ++ "/") = Some "/"%char).
  { clear L. induction r as [|a r IH]; [reflexivity|]. exact IH. }
  unfold endsWithSlash. rewrite L. cbn [Nat.sub]. rewrite Nat.sub_0_r, G.
  destruct r; reflexivity.
Qed.

(** Every directory the loop visits ends with a slash. *)
Lemma ancestorsFrom_endsWithSlash (path dir : string) :
  forall (fuel : nat) (slash : Z),
    dir ∈ ancestorsFrom fuel path slash -> endsWithSlash dir = true.
Proof.
  induction fuel as [|fuel IH]; intros slash H; [inversion H|].
  cbn [ancestorsFrom] in H.
  destruct (lastIndexOf "/" path (slash - 1) >? 0)%Z eqn:E; [|inversion H].
  apply elem_of_cons in H as [H|H]; [|eapply IH; exact H].
  set (r := lastIndexOf "/" path (slash - 1)) in *.
  assert (L : (r < Z.of_nat (String.length path))%Z).
  { unfold r, lastIndexOf.
    pose proof (lastIndexAux_lt "/" path 0 (slash - 1) (-1)) as X. lia. }
  assert (G : String.get (Z.to_nat r) path = Some "/"%char).
  { destruct (lastIndexAux_spec "/" path 0 (slash - 1) (-1)) as [X|[_ X]].
    - unfold r, lastIndexOf in E. rewrite X in E. discriminate E.
    - rewrite Z.sub_0_r in X. exact X. }
  assert (Ld : String.length dir = S (Z.to_nat r)).
  { subst dir. rewrite substring_prefix_length by lia. lia. }
  assert (Gd : String.get (Z.to_nat r) dir = Some "/"%char).
  { subst dir. rewrite get_substring_prefix by lia. exact G. }
  unfold endsWithSlash. rewrite Ld. cbn [Nat.sub]. rewrite Nat.sub_0_r, Gd.
  destruct dir; [discriminate Ld | reflexivity].
Qed.

Lemma firstRoot_Some (fs : FileSystem) (path : string) (es : list (string * Z))
  (p : string) :
  firstRoot fs path es = Some p ->
  accepted fs p = true /\ exists e, e ∈ es /\ p = findAncestor fs path e.1 e.2.
Proof.
  induction es as [|[n f] es IH]; intros H; [discriminate H|].
  cbn [firstRoot] in H. destruct (accepted fs (findAncestor fs path n f)) eqn:E.
  - inversion H. subst p. split; [exact E|]. exists (n, f). split; [left | reflexivity].
  - destruct (IH H) as [A (e & He & Hp)]. split; [exact A|].
    exists e. split; [right; exact He | exact Hp].
Qed.

Lemma scanConfigStatus_Some (fs : FileSystem) (lines : list string) (ret : string) :
  scanConfigStatus fs lines = Some ret ->
  ret <> home fs /\ endsWithSlash ret = true.
Proof.
  induction lines as [|line lines IH]; intros H; [discriminate H|].
  cbn [scanConfigStatus] in H.
  destruct (String.index 0 "configure" line) as [n|]; [|exact (IH H)].
  match type of H with
  | (if negb (String.eqb ?r _) then _ else _) = _ => set (r0 := r) in *
  end.
  destruct (String.eqb r0 (home fs)) eqn:E; cbn [negb] in H; [exact (IH H)|].
  inversion H. subst ret. split; [apply String.eqb_neq; exact E|].
  unfold r0. destruct (endsWithSlash (resolved fs (String.substring 0 n line))) eqn:Es;
    [exact Es | apply endsWithSlash_append].
Qed.

(** X17: what [findProjectRoot] returns is either the empty path or a
    path that ends with a slash and is not the home directory. *)
Theorem findProjectRoot_result (fs : FileSystem) (path : string) :
  findProjectRoot fs path = ""
  \/ (findProjectRoot fs path <> home fs
      /\ endsWithSlash (findProjectRoot fs path) = true).
Proof.
  unfold findProjectRoot. destruct (firstRoot fs path entries) as [p|] eqn:E.
  - right. apply firstRoot_Some in E as [A (e & He & Hp)].
    unfold accepted in A. apply andb_true_iff in A as [A1 A2].
    split; [apply String.eqb_neq; destruct (String.eqb p (home fs)); [discriminate A2 | reflexivity]|].
    rewrite (findAncestor_shallowest _ _ _ _ (entries_not_shallow e He)) in Hp.
    unfold shallowestWith in Hp.
    destruct (last_filter_in (markerAt fs e.1 e.2) (ancestorDirs path) "") as [X|[X _]].
    + rewrite X in Hp. subst p. discriminate A1.
    + rewrite <- Hp in X. exact (ancestorsFrom_endsWithSlash _ _ _ _ X).
  - destruct (negb (isEmpty (findAncestor fs path "config.status" 0))); [|left; reflexivity].
    destruct (scanConfigStatus fs _) as [ret|] eqn:Ec; [|left; reflexivity].
    right. exact (scanConfigStatus_Some _ _ _ Ec).
Qed.

End DiscoveryFacts.

Module StagingFacts.
Import Staging.

Lemma writeBatch_map_to_list {K} `{Countable K} {V} (m r : gmap K V) (k : K) :
  Syncer.writeBatch m (map_to_list r) !! k
  = match r !! k with
    | Some v => Some v
    | None => m !! k
    end.
Proof.
  destruct (r !! k) as [v|] eqn:E.
  - apply SyncerFacts.writeBatch_written; [apply NoDup_fst_map_to_list|].
    apply elem_of_map_to_list. exact E.
  - apply SyncerFacts.writeBatch_not_written. intros Hin.
    apply list_elem_of_fmap in Hin as ([k' v] & -> & Hv).
    apply elem_of_map_to_list in Hv. cbn in E. congruence.
Qed.

Lemma addReferences_lookup
  (m r : gmap Syncer.Location (Syncer.Location * Syncer.ReferenceType))
  (k : Syncer.Location) :
  addReferences m r !! k
  = match r !! k with
    | Some v => Some v
    | None => m !! k
    end.
Proof.
  unfold addReferences. destruct (decide (m = ∅)) as [->|_].
  - rewrite lookup_empty. destruct (r !! k); reflexivity.
  - apply (writeBatch_map_to_list m r k).
Qed.

Lemma fold_addReferences_lookup
  (calls : list (gmap Syncer.Location (Syncer.Location * Syncer.ReferenceType))) :
  forall (acc : gmap Syncer.Location (Syncer.Location * Syncer.ReferenceType))
         (k : Syncer.Location),
    fold_left addReferences calls acc !! k
    = match lastMention calls k with
      | Some v => Some v
      | None => acc !! k
      end.
Proof.
  induction calls as [|c calls IH]; intros acc k; [reflexivity|].
  cbn [fold_left lastMention]. rewrite IH.
  destruct (lastMention calls k); [reflexivity|]. apply addReferences_lookup.
Qed.

(** X11: staged references are last-writer-wins: after any sequence of
    [addReferences] calls the buffer holds, for every referring location,
    the target and kind given by the last call that mentions it, and
    nothing for a location no call mentions. *)
Theorem addReferences_last_writer_wins
  (calls : list (gmap Syncer.Location (Syncer.Location * Syncer.ReferenceType)))
  (k : Syncer.Location) :
  stagedReferences calls !! k = lastMention calls k.
Proof.
  unfold stagedReferences. rewrite fold_addReferences_lookup, lookup_empty.
  destruct (lastMention calls k); reflexivity.
Qed.

(** ** Dependencies *)

Lemma dependency_grew (c v : gset string) :
  (size c <? size (c ∪ v))%nat = true <-> ~ v ⊆ c.
Proof.
  rewrite Nat.ltb_lt. split.
  - intros Hs Hsub. replace (c ∪ v) with c in Hs by set_solver. lia.
  - intros Hn. assert (Hle : (size c <= size (c ∪ v))%nat)
      by (apply subseteq_size; set_solver).
    destruct (decide (size c = size (c ∪ v))) as [E|E]; [|lia].
    exfalso. apply Hn.
    assert (E' : c = c ∪ v) by (apply set_subseteq_size_eq; [set_solver | lia]).
    set_solver.
Qed.

Lemma fold_uniteDependenciesAt_lookup (l : list (string * gset string)) :
  forall (m : gmap string (gset string)) (k : string),
    NoDup l.*1 ->
    default ∅ (fold_left uniteDependenciesAt l m !! k)
    = default ∅ (m !! k) ∪ default ∅ ((list_to_map l : gmap string (gset string)) !! k).
Proof.
  induction l as [|[k' v] l IH]; intros m k Hnd.
  - cbn. rewrite lookup_empty. cbn. set_solver.
  - cbn [fold_left]. inversion Hnd as [|? ? Hnotin Hnd']. subst.
    rewrite (IH _ _ Hnd'). unfold uniteDependenciesAt. cbn [fst snd list_to_map foldr].
    destruct (decide (k = k')) as [->|Hne].
    + rewrite !lookup_insert_eq.
      rewrite (not_elem_of_list_to_map_1 l k') by exact Hnotin. cbn. set_solver.
    + rewrite !lookup_insert_ne by congruence. reflexivity.
Qed.

Lemma addDependencies_lookup (m dependencies : gmap string (gset string)) (k : string) :
  default ∅ (addDependencies m dependencies !! k)
  = default ∅ (m !! k) ∪ default ∅ (dependencies !! k).
Proof.
  unfold addDependencies. destruct (decide (m = ∅)) as [->|Hne].
  - rewrite lookup_empty. cbn. set_solver.
  - rewrite fold_uniteDependenciesAt_lookup by apply NoDup_fst_map_to_list.
    rewrite list_to_map_to_list. reflexivity.
Qed.

Lemma stagedDependencies_lookup (calls : list (gmap string (gset string))) (k : string) :
  default ∅ (stagedDependencies calls !! k) = stagedDependencyUnion calls k.
Proof.
  unfold stagedDependencies.
  assert (G : forall acc : gmap string (gset string),
             default ∅ (fold_left addDependencies calls acc !! k)
             = default ∅ (acc !! k) ∪ stagedDependencyUnion calls k).
  { induction calls as [|c calls IH]; intros acc.
    - cbn. unfold stagedDependencyUnion. cbn. set_solver.
    - cbn [fold_left]. rewrite IH, addDependencies_lookup.
      unfold stagedDependencyUnion. cbn [List.map union_list foldr]. set_solver. }
  rewrite G, lookup_empty. cbn. set_solver.
Qed.

Lemma fold_dependenciesStep (db : gmap string (gset string))
  (l : list (string * gset string)) :
  forall (batch : list (string * gset string)) (changed : bool),
    fold_left (dependenciesStep db) l (batch, changed)
    = (batch ++ dependenciesBatch db l,
       changed || negb (bool_decide (dependenciesBatch db l = []))).
Proof.
  induction l as [|[k v] l IH]; intros batch changed.
  - cbn. rewrite app_nil_r, orb_false_r. reflexivity.
  - cbn [fold_left]. unfold dependenciesStep at 2. cbn [fst snd].
    unfold dependenciesBatch. cbn [omap list_omap fst snd]. fold (dependenciesBatch db l).
    destruct (size (readDependencies db k) <? size (readDependencies db k ∪ v))%nat.
    + rewrite IH, <- app_assoc. cbn. rewrite orb_true_r. reflexivity.
    + rewrite IH. reflexivity.
Qed.

Lemma dependenciesBatch_keys (db : gmap string (gset string))
  (l : list (string * gset string)) (k : string) :
  k ∈ (dependenciesBatch db l).*1 ->
  exists v, (k, v) ∈ l /\ ~ v ⊆ readDependencies db k.
Proof.
  intros H. apply list_elem_of_fmap in H as ([k' x] & -> & Hx).
  apply list_elem_of_omap in Hx as ([k'' v] & Hin & Hf). cbn [fst snd] in Hf.
  destruct (size (readDependencies db k'') <? size (readDependencies db k'' ∪ v))%nat eqn:E;
    [|discriminate].
  inversion Hf. subst. exists v. split; [exact Hin | apply dependency_grew; exact E].
Qed.

Lemma dependenciesBatch_NoDup (db : gmap string (gset string))
  (l : list (string * gset string)) :
  NoDup l.*1 -> NoDup (dependenciesBatch db l).*1.
Proof.
  induction l as [|[k v] l IH]; intros Hnd; [constructor|].
  inversion Hnd as [|? ? Hnotin Hnd']. subst.
  unfold dependenciesBatch. cbn [omap list_omap fst snd]. fold (dependenciesBatch db l).
  destruct (size (readDependencies db k) <? size (readDependencies db k ∪ v))%nat; [|auto].
  cbn. constructor; [|auto].
  intros Hin. apply dependenciesBatch_keys in Hin as (v' & Hv' & _).
  apply Hnotin. apply list_elem_of_fmap. exists (k, v'). split; [reflexivity | exact Hv'].
Qed.

(** X12: for any sequence of [addDependencies] calls, one writer cycle
    (with the store open) leaves under every file the union of all the
    dependency sets staged for it with what was stored before, and batches
    a write for a file exactly when that union is strictly larger than
    what was stored. *)
Theorem dependencies_cycle (calls : list (gmap string (gset string)))
  (db : gmap string (gset string)) :
  exists (db' : gmap string (gset string)) (batch : list (string * gset string)),
    syncDependencies true db (stagedDependencies calls) = Some (db', batch)
    /\ forall k : string,
         readDependencies db' k = readDependencies db k ∪ stagedDependencyUnion calls k
         /\ (k ∈ batch.*1 <->
             readDependencies db k ⊂ readDependencies db k ∪ stagedDependencyUnion calls k).
Proof.
  set (l := map_to_list (stagedDependencies calls)).
  assert (Hnd : NoDup l.*1) by apply NoDup_fst_map_to_list.
  assert (Hl : forall k v, (k, v) ∈ l <-> stagedDependencies calls !! k = Some v)
    by (intros; apply elem_of_map_to_list).
  exists (Syncer.writeBatch db (dependenciesBatch db l)), (dependenciesBatch db l).
  split.
  - unfold syncDependencies. fold l.
    destruct (decide (stagedDependencies calls = ∅)) as [E|E].
    + assert (El : l = []) by (apply map_to_list_empty_iff; exact E).
      rewrite El. reflexivity.
    + cbn [negb]. rewrite fold_dependenciesStep. cbn [app orb].
      destruct (bool_decide (dependenciesBatch db l = [])) eqn:Eb; cbn [negb].
      * apply bool_decide_eq_true in Eb. rewrite Eb. reflexivity.
      * reflexivity.
  - intros k. rewrite <- stagedDependencies_lookup.
    assert (Hin : k ∈ (dependenciesBatch db l).*1 <->
                  ~ default ∅ (stagedDependencies calls !! k) ⊆ readDependencies db k).
    { split.
      - intros H. apply dependenciesBatch_keys in H as (v & Hv & Hg).
        apply Hl in Hv. rewrite Hv. exact Hg.
      - intros H. destruct (stagedDependencies calls !! k) as [v|] eqn:Ev;
          [|cbn in H; set_solver].
        cbn in H. apply list_elem_of_fmap. exists (k, readDependencies db k ∪ v).
        split; [reflexivity|]. apply list_elem_of_omap. exists (k, v).
        split; [apply Hl; exact Ev|]. cbn [fst snd].
        apply dependency_grew in H. rewrite H. reflexivity. }
    split.
    + destruct (decide (k ∈ (dependenciesBatch db l).*1)) as [Hk|Hk].
      * pose proof Hk as Hk'. apply dependenciesBatch_keys in Hk' as (v & Hv & Hg).
        assert (Hw : (k, readDependencies db k ∪ v) ∈ dependenciesBatch db l).
        { apply list_elem_of_omap. exists (k, v). split; [exact Hv|].
          cbn [fst snd]. apply dependency_grew in Hg. rewrite Hg. reflexivity. }
        unfold readDependencies at 1.
        rewrite (SyncerFacts.writeBatch_written _ _ _ _
                   (dependenciesBatch_NoDup db l Hnd) Hw).
        apply Hl in Hv. rewrite Hv. reflexivity.
      * unfold readDependencies at 1.
        rewrite SyncerFacts.writeBatch_not_written by exact Hk.
        fold (readDependencies db k).
        assert (Hsub : default ∅ (stagedDependencies calls !! k) ⊆ readDependencies db k).
        { destruct (decide (default ∅ (stagedDependencies calls !! k)
                            ⊆ readDependencies db k)); [assumption|].
          exfalso. apply Hk, Hin. assumption. }
        set_solver.
    + rewrite Hin. split.
      * intros H. split; [set_solver|]. intros H2. apply H. set_solver.
      * intros [_ H] H2. apply H. set_solver.
Qed.

(** ** File information *)

Lemma fold_collect {A} (l : list A) :
  forall acc : list A, fold_left (fun b kv => b ++ [kv]) l acc = acc ++ l.
Proof.
  induction l as [|a l IH]; intros acc; [rewrite app_nil_r; reflexivity|].
  cbn [fold_left]. rewrite IH, <- app_assoc. reflexivity.
Qed.

Lemma fold_addFileInformation_lookup (calls : list (string * list string * Z)) :
  forall (acc : gmap string FileInformation) (input : string),
    fold_left addFileInformation calls acc !! input
    = match lastInformation calls input with
      | Some fi => Some fi
      | None => acc !! input
      end.
Proof.
  induction calls as [|[[p args] ts] calls IH]; intros acc input; [reflexivity|].
  cbn [fold_left lastInformation]. rewrite IH.
  destruct (lastInformation calls input); [reflexivity|].
  unfold addFileInformation. destruct (String.eqb_spec p input) as [->|Hne].
  - apply lookup_insert_eq.
  - apply lookup_insert_ne. exact Hne.
Qed.

(** X13: file information is overwritten, not merged: after any sequence
    of [addFileInformation] calls and one writer cycle with the store
    open, the store holds for every source the arguments and time stamp
    of the last call that named it, and what it held before for every
    other source.  When the store cannot be opened and something is
    staged, the thread returns and nothing is stored. *)
Theorem file_information_cycle (calls : list (string * list string * Z))
  (db : gmap string FileInformation) :
  (exists db',
     syncInformations true db (stagedInformations calls) = Some db'
     /\ forall input : string,
          db' !! input = match lastInformation calls input with
                         | Some fi => Some fi
                         | None => db !! input
                         end)
  /\ (calls <> [] -> syncInformations false db (stagedInformations calls) = None).
Proof.
  assert (Hst : forall input, stagedInformations calls !! input = lastInformation calls input).
  { intros input. unfold stagedInformations.
    rewrite fold_addFileInformation_lookup, lookup_empty.
    destruct (lastInformation calls input); reflexivity. }
  split.
  - unfold syncInformations.
    destruct (decide (stagedInformations calls = ∅)) as [E|E].
    + exists db. split; [reflexivity|]. intros input.
      rewrite <- Hst, E, lookup_empty. reflexivity.
    + cbn [negb]. eexists. split; [reflexivity|]. intros input.
      rewrite fold_collect. cbn [app]. rewrite writeBatch_map_to_list, Hst. reflexivity.
  - intros Hne. unfold syncInformations.
    destruct (decide (stagedInformations calls = ∅)) as [E|E]; [|reflexivity].
    exfalso. destruct calls as [|[[p args] ts] calls]; [congruence|].
    assert (X : stagedInformations ((p, args, ts) :: calls) !! p <> None).
    { rewrite Hst. cbn [lastInformation]. destruct (lastInformation calls p); [discriminate|].
      rewrite String.eqb_refl. discriminate. }
    rewrite E, lookup_empty in X. congruence.
Qed.

Example file_information_example :
  syncInformations true ∅ (stagedInformations threeReports)
    ≫= (fun db' => db' !! "/src/a.c"%string)
  = Some {| lastTouched := 102; compileArgs := ["-O2"%string; "-g"%string] |}
  /\ syncInformations true ∅ (stagedInformations threeReports)
       ≫= (fun db' => db' !! "/src/b.c"%string)
     = Some {| lastTouched := 101; compileArgs := ["-O2"%string] |}.
Proof. split; vm_compute; reflexivity. Qed.

Example dependencies_example :
  match syncDependencies true ∅ (stagedDependencies [depsFirst; depsSecond]) with
  | Some (db', _) =>
      bool_decide (readDependencies db' "/src/a.c"
                   = {[ "/src/a.h"%string; "/src/b.h"%string ]})
  | None => false
  end = true.
Proof. vm_compute. reflexivity. Qed.

End StagingFacts.
